(** * obsparams: the parameter checker of [scripts/obsfile_params_check.py]

    A shallow embedding of the class [obsfile_params_check] and the
    properties of its methods.

    - Python values are modelled as the interpreter has them: a [str] is a
      sequence of Unicode code points, a [dict] a finite map, a [set] a
      finite set, an exception a class with a message.
    - The libraries the class calls are not part of the repository.  [re]
      and the [str] methods are modelled by their documented behaviour
      ([Py], [Re]); an XML document is a tree of elements ([ET]); the
      parsers and interpreters themselves ([ET.fromstring], [base64],
      [exec], [eval]) and the remote ([github]) are left abstract.
    - Methods that talk to the remote or raise are written in a small
      state-and-exception monad over the object's fields. *)

From stdpp Require Import gmap list sorting.
From Stdlib Require Import NArith.
From Stdlib Require Ascii String.
Import Ascii.AsciiSyntax String.StringSyntax.

#[local] Set Warnings "-register-all".

Local Open Scope N_scope.
Local Open Scope list_scope.

(** * Part I: the program *)

(** ** Python built-ins *)

Module Py.

(** A [str] is a sequence of code points. *)
Definition char : Type := N.
Definition str : Type := list char.

(** ASCII literals of the source, as code points. *)
Definition chr (a : Ascii.ascii) : char := Ascii.N_of_ascii a.
Definition lit (s : String.string) : str :=
  chr <$> String.list_ascii_of_string s.

Arguments chr a%_char_scope : simpl never.
Arguments lit s%_string_scope : simpl never.

Definition LF : char := 10.
Definition CR : char := 13.

(** Truth value of a [str]: non-empty. *)
Definition truthy (s : str) : bool :=
  match s with [] => false | _ :: _ => true end.

(** [a <= b] on [str]: lexicographic on code points. *)
Fixpoint str_leb (a b : str) : bool :=
  match a, b with
  | [], _ => true
  | _ :: _, [] => false
  | x :: a', y :: b' =>
      if x <? y then true else if x =? y then str_leb a' b' else false
  end.

Definition str_le (a b : str) : Prop := str_leb a b = true.

#[export] Instance str_le_dec a b : Decision (str_le a b).
Proof. unfold str_le. apply _. Defined.

(** [sorted(l)] on a list of [str]. *)
Definition sorted (l : list str) : list str := merge_sort str_le l.

(** [list(set(l))]: the elements of the set, in the set's own order. *)
Definition list_set (l : list str) : list str :=
  elements (list_to_set l : gset str).

(** [x in l] for a list. *)
Definition contains (x : str) (l : list str) : bool := bool_decide (x ∈ l).

(** [s.split(sep)] for a separator of one character, as at every call
    site: cut at each occurrence; the result is never empty. *)
Fixpoint split (sep : char) (s : str) : list str :=
  match s with
  | [] => [[]]
  | c :: s' =>
      if c =? sep then [] :: split sep s'
      else match split sep s' with
           | piece :: pieces => (c :: piece) :: pieces
           | [] => [[c]]
           end
  end.

(** [s.split(sep, maxsplit)]: at most [maxsplit] cuts, the rest of the
    text is the last piece. *)
Fixpoint splitn (sep : char) (maxsplit : nat) (s : str) : list str :=
  match s with
  | [] => [[]]
  | c :: s' =>
      if c =? sep then
        match maxsplit with
        | O => [s]
        | S m => [] :: splitn sep m s'
        end
      else match splitn sep maxsplit s' with
           | piece :: pieces => (c :: piece) :: pieces
           | [] => [[c]]
           end
  end.

(** [sep.join(l)]. *)
Fixpoint join (sep : str) (l : list str) : str :=
  match l with
  | [] => []
  | [x] => x
  | x :: l' => x ++ sep ++ join sep l'
  end.

(** The line boundaries of [str.splitlines]: LF, VT, FF, CR, FS, GS, RS,
    NEL, LINE SEPARATOR, PARAGRAPH SEPARATOR (and CR LF as one). *)
Definition is_linebreak (c : char) : bool :=
  bool_decide (c ∈ [10; 11; 12; 13; 28; 29; 30; 133; 8232; 8233]).

(** [s.splitlines()]: [cur] is the line being read.  A boundary ends the
    line, also an empty one; the end of the text ends a non-empty line
    only. *)
Fixpoint splitlines_from (cur : str) (s : str) : list str :=
  match s with
  | [] => match cur with [] => [] | _ :: _ => [cur] end
  | c :: s' =>
      if is_linebreak c then
        match s' with
        | d :: s'' =>
            if (c =? CR) && (d =? LF) then cur :: splitlines_from [] s''
            else cur :: splitlines_from [] s'
        | [] => cur :: splitlines_from [] s'
        end
      else splitlines_from (cur ++ [c]) s'
  end.

Definition splitlines (s : str) : list str := splitlines_from [] s.

(** [s[-n:]] for [n > 0]: the last [n] characters, all of [s] when it is
    shorter. *)
Definition suffix_slice (n : nat) (s : str) : str :=
  drop (length s - n) s.

(** [s[:n]]. *)
Definition prefix_slice (n : nat) (s : str) : str := take n s.

(** [l[-1]]: [None] stands for [IndexError]. *)
Definition last_item {A} (l : list A) : option A := last l.

End Py.

Import Py.

(** ** The module [re]

    A fragment of Python's regular expressions (as of Python 3.7), enough
    for the patterns of the class with escaped triggers: literals,
    backslash escapes of non-alphanumeric characters and [\n], [.],
    character sets of plain characters, capturing groups, alternation, and
    the [*], [*?] and [{n}] repetitions of a one-character item.  A pattern
    outside the fragment is not compiled ([None]); this covers what [re]
    rejects with [re.error] and what it accepts but the fragment leaves
    out. *)

Module Re.

(** [re.escape]: a backslash before each of the special characters,
    everything else unchanged. *)
Definition special_chars : list char :=
  lit "()[]{}?*+-|^$\.&~# " ++ [9; 10; 13; 11; 12].

Definition is_special (c : char) : bool := bool_decide (c ∈ special_chars).

Definition escape (pattern : str) : str :=
  pattern ≫= λ c, if is_special c then [chr "\"; c] else [c].

(** *** Syntax *)

(** An item that matches one character. *)
Inductive atom :=
  | Lit (c : char)              (* the character itself *)
  | Any                         (* [.]: any character but a newline *)
  | Set_ (members : list char). (* [[...]] *)

Inductive regex :=
  | Atom (a : atom)
  | Star (lazy : bool) (a : atom)   (* [a*], and [a*?] when [lazy] *)
  | Repeat (n : nat) (a : atom)     (* [a{n}] *)
  | Group (i : nat) (r : regex)     (* the [i]-th capturing group *)
  | Empty
  | Seq (r1 r2 : regex)
  | Alt (r1 r2 : regex).

#[export] Instance atom_eq_dec : EqDecision atom.
Proof. solve_decision. Defined.
#[export] Instance regex_eq_dec : EqDecision regex.
Proof. solve_decision. Defined.

(** *** Compilation *)

Inductive token :=
  | TAtom (a : atom) | TOpen | TClose | TBar | TStar | TQuest
  | TRepeat (n : nat).

Definition is_digit (c : char) : bool := (48 <=? c) && (c <=? 57).

Definition is_alnum (c : char) : bool :=
  is_digit c || ((65 <=? c) && (c <=? 90)) || ((97 <=? c) && (c <=? 122)).

(** Where the lexer is: in the pattern, in a character set after its
    [members], or in the braces of a repetition after the digits of [n]. *)
Inductive mode :=
  | Plain
  | InSet (members : list char)
  | InBraces (n : option nat).

(** The lexer.  In a set only plain members are in the fragment (no
    negation, range, escape or nested bracket); in braces, only digits;
    in the pattern, a backslash makes the next character literal unless it
    is alphanumeric, and [\n] is a newline. *)
Fixpoint lex (m : mode) (s : str) : option (list token) :=
  match s with
  | [] => match m with Plain => Some [] | _ => None end
  | c :: s' =>
      match m with
      | InSet members =>
          if c =? chr "]" then
            match members with
            | [] => None
            | _ :: _ => (TAtom (Set_ members) ::.) <$> lex Plain s'
            end
          else if bool_decide (c ∈ lit "\^-[") then None
          else lex (InSet (members ++ [c])) s'
      | InBraces n =>
          if is_digit c then
            lex (InBraces (Some (10 * default 0 n + N.to_nat (c - 48))%nat)) s'
          else if c =? chr "}" then
            match n with
            | None => None
            | Some n => (TRepeat n ::.) <$> lex Plain s'
            end
          else None
      | Plain =>
          if c =? chr "\" then
            match s' with
            | d :: s'' =>
                if is_alnum d then
                  if d =? chr "n" then (TAtom (Lit LF) ::.) <$> lex Plain s''
                  else None
                else (TAtom (Lit d) ::.) <$> lex Plain s''
            | [] => None
            end
          else if c =? chr "[" then lex (InSet []) s'
          else if c =? chr "{" then lex (InBraces None) s'
          else if c =? chr "." then (TAtom Any ::.) <$> lex Plain s'
          else if c =? chr "(" then (TOpen ::.) <$> lex Plain s'
          else if c =? chr ")" then (TClose ::.) <$> lex Plain s'
          else if c =? chr "|" then (TBar ::.) <$> lex Plain s'
          else if c =? chr "*" then (TStar ::.) <$> lex Plain s'
          else if c =? chr "?" then (TQuest ::.) <$> lex Plain s'
          else if bool_decide (c ∈ lit "+^$") then None
          else (TAtom (Lit c) ::.) <$> lex Plain s'
      end
  end.

Definition seq_of (items : list regex) : regex := foldr Seq Empty items.

Fixpoint alt_of (first : regex) (others : list regex) : regex :=
  match others with
  | [] => first
  | r :: others' => Alt first (alt_of r others')
  end.

(** A frame of the parser: the alternatives already closed by [|] and the
    items of the alternative being read; [index] numbers the group the
    frame was opened for. *)
Record frame := Frame {
  index : nat;
  alts : list regex;
  items : list regex;
}.

Definition close (f : frame) : regex :=
  match alts f ++ [seq_of (items f)] with
  | r :: rs => alt_of r rs
  | [] => Empty
  end.

Record parser := Parser {
  enclosing : list frame;
  current : frame;
  ngroups : nat;
}.

Definition push_item (r : regex) (f : frame) : frame :=
  Frame (index f) (alts f) (items f ++ [r]).

(** Replace the last item [x] of the frame by [g x], when [g] accepts it. *)
Definition map_last (g : regex → option regex) (f : frame) : option frame :=
  match reverse (items f) with
  | [] => None
  | x :: before =>
      r ← g x; Some (Frame (index f) (alts f) (reverse before ++ [r]))
  end.

Definition parse_token (p : parser) (t : token) : option parser :=
  match t with
  | TAtom a =>
      Some (Parser (enclosing p) (push_item (Atom a) (current p)) (ngroups p))
  | TStar =>
      f ← map_last (λ x, match x with Atom a => Some (Star false a)
                                    | _ => None end) (current p);
      Some (Parser (enclosing p) f (ngroups p))
  | TQuest =>
      f ← map_last (λ x, match x with Star false a => Some (Star true a)
                                    | _ => None end) (current p);
      Some (Parser (enclosing p) f (ngroups p))
  | TRepeat n =>
      f ← map_last (λ x, match x with Atom a => Some (Repeat n a)
                                    | _ => None end) (current p);
      Some (Parser (enclosing p) f (ngroups p))
  | TBar =>
      let f := current p in
      Some (Parser (enclosing p)
              (Frame (index f) (alts f ++ [seq_of (items f)]) [])
              (ngroups p))
  | TOpen =>
      let i := S (ngroups p) in
      Some (Parser (current p :: enclosing p) (Frame i [] []) i)
  | TClose =>
      match enclosing p with
      | [] => None
      | outer :: rest =>
          let f := current p in
          Some (Parser rest (push_item (Group (index f) (close f)) outer)
                  (ngroups p))
      end
  end.

Fixpoint parse_tokens (p : parser) (ts : list token) : option parser :=
  match ts with
  | [] => Some p
  | t :: ts' => p' ← parse_token p t; parse_tokens p' ts'
  end.

(** A compiled pattern: its tree and its number of groups. *)
Record Pattern := { tree : regex; groups : nat }.

Definition compile (pattern : str) : option Pattern :=
  ts ← lex Plain pattern;
  p ← parse_tokens (Parser [] (Frame 0 [] []) 0) ts;
  match enclosing p with
  | [] => Some {| tree := close (current p); groups := ngroups p |}
  | _ :: _ => None
  end.

(** *** Matching *)

Definition matches (a : atom) (c : char) : bool :=
  match a with
  | Lit d => c =? d
  | Any => negb (c =? LF)
  | Set_ members => bool_decide (c ∈ members)
  end.

(** The texts that may remain after [a*?], fewest repetitions first. *)
Fixpoint star_lazy (a : atom) (s : str) : list str :=
  s :: match s with
       | c :: s' => if matches a c then star_lazy a s' else []
       | [] => []
       end.

(** The texts that may remain after [a*], most repetitions first. *)
Fixpoint star_greedy (a : atom) (s : str) : list str :=
  match s with
  | c :: s' => if matches a c then star_greedy a s' else []
  | [] => []
  end ++ [s].

(** The text that remains after [a{n}]. *)
Fixpoint consume (n : nat) (a : atom) (s : str) : option str :=
  match n with
  | O => Some s
  | S n' =>
      match s with
      | c :: s' => if matches a c then consume n' a s' else None
      | [] => None
      end
  end.

(** [run r s caps]: every way to match [r] at the start of [s], as the
    text that remains and the text captured by each group that took part,
    in the order the backtracking matcher tries them. *)
Fixpoint run (r : regex) (s : str) (caps : gmap nat str)
  : list (str * gmap nat str) :=
  match r with
  | Atom a =>
      match s with
      | c :: s' => if matches a c then [(s', caps)] else []
      | [] => []
      end
  | Star lazy a =>
      (λ s', (s', caps)) <$> (if lazy then star_lazy a s else star_greedy a s)
  | Repeat n a =>
      match consume n a s with
      | Some s' => [(s', caps)]
      | None => []
      end
  | Group i r' =>
      (λ '(s', caps'),
         (s', <[i := take (length s - length s') s]> caps'))
        <$> run r' s caps
  | Empty => [(s, caps)]
  | Seq r1 r2 => run r1 s caps ≫= λ '(s', caps'), run r2 s' caps'
  | Alt r1 r2 => run r1 s caps ++ run r2 s caps
  end.

(** The first match of [r] at the start of [s]; with [must_advance] an
    empty match is passed over. *)
Definition match_here (r : regex) (s : str) (must_advance : bool)
  : option (str * gmap nat str) :=
  head (filter (λ '(s', _), ¬ (must_advance = true ∧ length s' = length s))
          (run r s ∅)).

(** The first position of [s] with a match: the text from the start of the
    match, the text after it, and the captures.  [must_advance] applies to
    the first position only. *)
Fixpoint search (r : regex) (s : str) (must_advance : bool)
  : option (str * str * gmap nat str) :=
  match match_here r s must_advance with
  | Some (rest, caps) => Some (s, rest, caps)
  | None =>
      match s with
      | [] => None
      | _ :: s' => search r s' false
      end
  end.

(** What [findall] returns for one match: the group when the pattern has
    one, the whole match when it has none. *)
Definition matched (p : Pattern) (start rest : str) (caps : gmap nat str)
  : str :=
  match groups p with
  | O => take (length start - length rest) start
  | _ => default [] (caps !! 1%nat)
  end.

(** The loop of [findall]: search from the end of the last match, and pass
    over an empty match right after an empty match. *)
Fixpoint findall_loop (fuel : nat) (p : Pattern) (s : str)
  (must_advance : bool) : option (list str) :=
  match fuel with
  | O => None
  | S fuel' =>
      match search (tree p) s must_advance with
      | None => Some []
      | Some (start, rest, caps) =>
          (matched p start rest caps ::.)
            <$> findall_loop fuel' p rest
                  (bool_decide (length rest = length start))
      end
  end.

(** [re.findall(pattern, string)], for a pattern of the fragment with at
    most one group (with more, the items are tuples).  Two rounds of the
    loop always consume a character, so the fuel is never used up. *)
Definition findall (pattern : str) (string : str) : option (list str) :=
  p ← compile pattern;
  if bool_decide (groups p ≤ 1)%nat
  then findall_loop (2 * length string + 2) p string false
  else None.

(** The loop of [sub]: the text up to each match, then the replacement;
    after the last match, the rest of the text. *)
Fixpoint sub_loop (fuel : nat) (p : Pattern) (repl : str) (s : str)
  (must_advance : bool) : option str :=
  match fuel with
  | O => None
  | S fuel' =>
      match search (tree p) s must_advance with
      | None => Some s
      | Some (start, rest, caps) =>
          (λ out, take (length s - length start) s ++ repl ++ out)
            <$> sub_loop fuel' p repl rest
                  (bool_decide (length rest = length start))
      end
  end.

(** The replacement that a template stands for: the template itself when
    it holds no backslash, a newline for [\n]; other escapes and group
    references are not in the fragment. *)
Fixpoint expand_template (repl : str) : option str :=
  match repl with
  | [] => Some []
  | c :: repl' =>
      if c =? chr "\" then
        match repl' with
        | d :: repl'' =>
            if d =? chr "n" then (LF ::.) <$> expand_template repl''
            else None
        | [] => None
        end
      else (c ::.) <$> expand_template repl'
  end.

(** [re.sub(pattern, repl, string)]. *)
Definition sub (pattern repl string : str) : option str :=
  p ← compile pattern;
  repl ← expand_template repl;
  sub_loop (2 * length string + 2) p repl string false.

End Re.

(** ** The module [xml.etree.ElementTree]

    A parsed document is a tree of elements; of an element the class reads
    the tag, the attributes and the children. *)

Module ET.

Inductive Element :=
  Elem (tag : str) (attrib : gmap str str) (children : list Element).

Definition tag (e : Element) : str := let 'Elem t _ _ := e in t.
Definition attrib (e : Element) : gmap str str := let 'Elem _ a _ := e in a.

(** [list(e)]: the children, in document order. *)
Definition children (e : Element) : list Element :=
  let 'Elem _ _ c := e in c.

(** [e.get(key)]: [None] when the attribute is absent. *)
Definition get (e : Element) (key : str) : option str := attrib e !! key.

(** [e.iter(t)]: the element itself and all elements below it, in document
    order, that have tag [t]. *)
Fixpoint iter (t : str) (e : Element) : list Element :=
  let 'Elem t' _ c := e in
  (if bool_decide (t' = t) then [e] else [])
    ++ (fix below (l : list Element) : list Element :=
          match l with
          | [] => []
          | x :: l' => iter t x ++ below l'
          end) c.

(** The elements with tag [t] strictly below [e]. *)
Definition descendants (t : str) (e : Element) : list Element :=
  children e ≫= iter t.

End ET.

(** ** Exceptions, outcomes and the state of a call *)

(** The exception classes the program meets, with the built-in hierarchy;
    [Derived name base] is a class defined by a library. *)
Inductive exn_class :=
  | BaseException | SystemExit | KeyboardInterrupt | Exception
  | ArithmeticError | ZeroDivisionError | AttributeError
  | ImportError | ModuleNotFoundError
  | LookupError | IndexError | KeyError
  | NameError | UnboundLocalError
  | SyntaxError | IndentationError | TabError
  | TypeError | ValueError
  | Derived (name : str) (base : exn_class).

#[export] Instance exn_class_eq_dec : EqDecision exn_class.
Proof. solve_decision. Defined.

(** The proper base classes of a class. *)
Fixpoint bases (c : exn_class) : list exn_class :=
  match c with
  | BaseException => []
  | SystemExit | KeyboardInterrupt | Exception => [BaseException]
  | ArithmeticError | AttributeError | ImportError | LookupError
  | NameError | SyntaxError | TypeError | ValueError =>
      [Exception; BaseException]
  | ZeroDivisionError => [ArithmeticError; Exception; BaseException]
  | ModuleNotFoundError => [ImportError; Exception; BaseException]
  | IndexError | KeyError => [LookupError; Exception; BaseException]
  | UnboundLocalError => [NameError; Exception; BaseException]
  | IndentationError => [SyntaxError; Exception; BaseException]
  | TabError => [IndentationError; SyntaxError; Exception; BaseException]
  | Derived _ base => base :: bases base
  end.

Definition issubclass (c d : exn_class) : bool :=
  bool_decide (c = d) || bool_decide (d ∈ bases c).

(** A raised exception: its class and [str(e)]. *)
Record exn := Exn { class_of : exn_class; message : str }.

(** [except d]: does the clause catch [e]? *)
Definition caught_by (d : exn_class) (e : exn) : bool :=
  issubclass (class_of e) d.

(** How a call ends.  [OutOfFuel]: a loop did not end within its fuel.
    [Unmodelled]: the call left the modelled fragment of a library. *)
Inductive outcome (A : Type) :=
  | Return (a : A)
  | Raise (e : exn)
  | OutOfFuel
  | Unmodelled.

Arguments Return {A} a.
Arguments Raise {A} e.
Arguments OutOfFuel {A}.
Arguments Unmodelled {A}.

(** *** The remote ([github]) *)

(** An entry of a listing.  [entries] is the answer of
    [repo.get_contents(path)] for this entry, so that a repository is a
    finite tree. *)
Inductive ContentFile :=
  mkContentFile (type_ : str) (path : str) (content : option str)
    (entries : exn + list ContentFile).

Definition type_ (f : ContentFile) : str :=
  let 'mkContentFile t _ _ _ := f in t.
Definition path (f : ContentFile) : str :=
  let 'mkContentFile _ p _ _ := f in p.
Definition content (f : ContentFile) : option str :=
  let 'mkContentFile _ _ c _ := f in c.
Definition entries (f : ContentFile) : exn + list ContentFile :=
  let 'mkContentFile _ _ _ e := f in e.

(** [repo.get_contents(directory)] gives one entry for a file and a list
    for a directory. *)
Inductive contents := One (f : ContentFile) | Many (l : list ContentFile).

Record Repository := { get_contents : str → exn + contents }.
Record Github := { get_repo : str → exn + Repository }.

(** A request sent to the remote. *)
Inductive request :=
  | GetRepo (full_name : str)
  | GetContents (full_name : str) (path : str).

(** The fields of the object ([self.g], [self.__content], unset before the
    first listing), the requests sent so far, and what was printed. *)
Record state := State {
  g : Github;
  content_ : option (list ContentFile);
  sent : list request;
  printed : list str;
}.

(** [obsfile_params_check(token)], for the client [Github(token)]. *)
Definition init (client : Github) : state := State client None [] [].

(** *** The monad of methods *)

Definition M (A : Type) : Type := state → outcome A * state.

#[export] Instance M_ret : MRet M := λ A a σ, (Return a, σ).

#[export] Instance M_bind : MBind M := λ A B f m σ,
  match m σ with
  | (Return a, σ') => f a σ'
  | (Raise e, σ') => (Raise e, σ')
  | (OutOfFuel, σ') => (OutOfFuel, σ')
  | (Unmodelled, σ') => (Unmodelled, σ')
  end.

Definition raise {A} (c : exn_class) (msg : str) : M A :=
  λ σ, (Raise (Exn c msg), σ).

Definition out_of_fuel {A} : M A := λ σ, (OutOfFuel, σ).
Definition unmodelled {A} : M A := λ σ, (Unmodelled, σ).

(** The answer of a library call: a value, or the exception it raises. *)
Definition lift {A} (r : exn + A) : M A :=
  λ σ, match r with inl e => (Raise e, σ) | inr a => (Return a, σ) end.

(** A call to the remote: sent, then answered. *)
Definition ask {A} (q : request) (answer : exn + A) : M A :=
  λ σ, lift answer (State (g σ) (content_ σ) (sent σ ++ [q]) (printed σ)).

Definition client : M Github := λ σ, (Return (g σ), σ).

(** [self.__content = l]. *)
Definition set_content (l : list ContentFile) : M unit :=
  λ σ, (Return (), State (g σ) (Some l) (sent σ) (printed σ)).

(** [self.__content]. *)
Definition get_content : M (list ContentFile) :=
  λ σ, match content_ σ with
       | Some l => (Return l, σ)
       | None =>
           (Raise (Exn AttributeError
                     (lit "'obsfile_params_check' object has no attribute "
                        ++ lit "'_obsfile_params_check__content'")), σ)
       end.

(** The result of a call to [re]; outside the fragment it is not modelled. *)
Definition re {A} (r : option A) : M A :=
  match r with
  | Some a => mret a
  | None => unmodelled
  end.

(** A static method called from a method: what it prints, how it ends. *)
Definition static {A} (r : list str * outcome A) : M A :=
  λ σ, (r.2, State (g σ) (content_ σ) (sent σ) (printed σ ++ r.1)).

(** [l[i]]. *)
Definition item {A} (l : list A) (i : nat) : M A :=
  match l !! i with
  | Some x => mret x
  | None => raise IndexError (lit "list index out of range")
  end.

(** A call ends: it returns or raises. *)
Definition ends {A} (r : outcome A * state) : Prop :=
  match r.1 with
  | Return _ | Raise _ => True
  | OutOfFuel | Unmodelled => False
  end.

(** ** The class [obsfile_params_check] *)

Definition DQUOTE : char := 34.

(** The number of entries of a listing, with all that is below them. *)
Fixpoint size (f : ContentFile) : nat :=
  let 'mkContentFile _ _ _ e := f in
  S (match e with
     | inl _ => 0
     | inr l => (fix sizes (l : list ContentFile) : nat :=
                   match l with
                   | [] => 0
                   | x :: l' => size x + sizes l'
                   end) l
     end)%nat.

Fixpoint sizes (l : list ContentFile) : nat :=
  match l with
  | [] => 0
  | f :: l' => size f + sizes l'
  end.

(** The [while contents:] loop of [list_files]. *)
Fixpoint list_files_loop (fuel : nat) (full_name : str)
  (contents : list ContentFile) : M unit :=
  match fuel with
  | O => out_of_fuel
  | S fuel' =>
      match contents with
      | [] => mret ()
      | file_content :: contents =>
          if bool_decide (type_ file_content = lit "dir") then
            below ← ask (GetContents full_name (path file_content))
                        (entries file_content);
            list_files_loop fuel' full_name (contents ++ below)
          else
            files ← get_content;
            _ ← set_content (files ++ [file_content]);
            list_files_loop fuel' full_name contents
      end
  end.

(** [list_files(self, path)].  Every round of the loop takes one entry of
    the finite listing, so its size is fuel enough. *)
Definition list_files (path_ : str) : M (list str) :=
  let path_ := splitn (chr "/") 2 path_ in
  '(user, repository, directory) ←
    match path_ !! 0%nat, path_ !! 1%nat, path_ !! 2%nat with
    | Some user, Some repository, Some directory =>
        mret (user, repository, directory)
    | Some user, Some repository, None => mret (user, repository, [])
    | _, _, _ =>
        raise IndexError
          (lit "'username/repository' must be included in the path.")
    end;
  let full_name := user ++ lit "/" ++ repository in
  gh ← client;
  repo ← ask (GetRepo full_name) (get_repo gh full_name);
  contents ← ask (GetContents full_name directory)
                 (get_contents repo directory);
  let contents := match contents with One f => [f] | Many l => l end in
  _ ← set_content [];
  _ ← list_files_loop (S (sizes contents)) full_name contents;
  files ← get_content;
  mret (path <$> files).

(** [diff(self, params_declared, params_used)]: two loops that append to
    three lists, returned under three keys. *)
Definition diff (params_declared params_used : list str)
  : gmap str (list str) :=
  let '(used, not_used) :=
    fold_left
      (λ '(used, not_used) param,
         if contains param params_used
         then (used ++ [param], not_used)
         else (used, not_used ++ [param]))
      params_declared ([], []) in
  let not_declared :=
    fold_left
      (λ not_declared param,
         if negb (contains param params_declared)
         then not_declared ++ [param]
         else not_declared)
      params_used [] in
  <[lit "used" := used]>
    (<[lit "not_used" := not_used]>
       (<[lit "not_declared" := not_declared]> ∅)).

(** The body of [get_obsparams] after the fetch.  [param_val_[1]] raises
    [IndexError] on a line without ['='], which [except IndexError: pass]
    drops. *)
Definition get_obsparams_of (content : str) : list str :=
  let lines := splitlines content in
  let param_val := split (chr "=") <$> lines in
  fold_left
    (λ params param_val_,
       match param_val_ !! 1%nat with
       | Some value =>
           if truthy value
           then match param_val_ !! 0%nat with
                | Some key => params ++ [key]
                | None => params
                end
           else params
       | None => params
       end)
    param_val [].

(** What one line contributes in [get_obsparams_of]. *)
Definition declared_key (line : str) : option str :=
  let param_val_ := split (chr "=") line in
  match param_val_ !! 1%nat with
  | Some value => if truthy value then param_val_ !! 0%nat else None
  | None => None
  end.

(** The declaration parser as the specification words it: a line is cut at
    the first ['='] only, and contributes its key when the value side is
    not empty. *)
Definition declared_key_spec (line : str) : option str :=
  match splitn (chr "=") 1 line with
  | [key; value] => if truthy value then Some key else None
  | _ => None
  end.

Definition get_obsparams_spec (content : str) : list str :=
  omap declared_key_spec (splitlines content).

(** The pattern of [params_extract], as the f-string builds it around the
    two parts of the trigger. *)
Definition middle : str :=
  lit "['" ++ [DQUOTE] ++ lit "](.*?)['" ++ [DQUOTE] ++ lit "].*?".

Definition literal_pattern (trigger : str * str) : str :=
  trigger.1 ++ middle ++ trigger.2.

(** What [literal_pattern] means for a raw trigger [(prefix, suffix)]: the
    prefix, a quote, the group [(.*?)], a quote, [.*?], the suffix. *)
Definition quote : Re.atom := Re.Set_ [chr "'"; DQUOTE].

Definition literal (t : str) : list Re.regex := Re.Atom ∘ Re.Lit <$> t.

Definition literal_tree (trigger : str * str) : Re.regex :=
  Re.seq_of
    (literal trigger.1
       ++ [Re.Atom quote; Re.Group 1 (Re.seq_of [Re.Star true Re.Any]);
           Re.Atom quote; Re.Star true Re.Any]
       ++ literal trigger.2).

(** The body of [params_extract] after the fetch. *)
Definition params_extract_of (trigger : str * str) (content : str)
  (already_escaped : bool) : option (list str) :=
  let trigger :=
    if negb already_escaped
    then (Re.escape trigger.1, Re.escape trigger.2)
    else trigger in
  params ← Re.findall (literal_pattern trigger) content;
  let params := list_set params in
  Some (sorted params).

(** The pattern that [params_extract_of] hands to [findall]. *)
Definition pattern_of (trigger : str * str) (already_escaped : bool) : str :=
  literal_pattern
    (if negb already_escaped
     then (Re.escape trigger.1, Re.escape trigger.2)
     else trigger).

Section Class.

(** [base64.b64decode(c).decode()], for the [content] of an entry. *)
Variable b64decode_decode : option str → exn + str.

(** [ET.fromstring]. *)
Variable fromstring : str → exn + ET.Element.

(** [read_file(self, path)]. *)
Definition read_file (path_ : str) : M str :=
  _ ← list_files path_;
  file_content ← get_content;
  if bool_decide (1 < length file_content)%nat then
    raise ValueError (lit "File is not uniquely specified.")
  else
    first ← item file_content 0;
    lift (b64decode_decode (content first)).

(** [get_obsparams(self, path)]. *)
Definition get_obsparams (path_ : str) : M (list str) :=
  content ← read_file path_;
  mret (get_obsparams_of content).

(** [params_extract(self, trigger, path, already_escaped=False)]. *)
Definition params_extract (trigger : str * str) (path_ : str)
  (already_escaped : bool) : M (list str) :=
  content ← read_file path_;
  re (params_extract_of trigger content already_escaped).

(** An item of the result of [list_from_launch]: the dict
    [{"type": ..., "remap": [{from: to}, ...]}]. *)
Record launched := Launched {
  type : option str;
  remap : list (option str * option str);
}.

Definition describe (node : ET.Element) : launched :=
  {| type := ET.get node (lit "type");
     remap := (λ remap, (ET.get remap (lit "from"), ET.get remap (lit "to")))
                <$> ET.iter (lit "remap") node |}.

(** The [while elements:] loop of [list_from_launch].  Nothing bounds the
    chain of includes, hence the fuel. *)
Fixpoint expand (fuel : nat) (user repository : str)
  (elements nodes : list ET.Element) : M (list ET.Element) :=
  match fuel with
  | O => out_of_fuel
  | S fuel' =>
      match elements with
      | [] => mret nodes
      | child :: elements =>
          if bool_decide (ET.tag child = lit "include") then
            file ← match ET.get child (lit "file") with
                   | Some file => mret file
                   | None =>
                       raise AttributeError
                         (lit "'NoneType' object has no attribute 'split'")
                   end;
            launch_path ← item (splitn (chr "/") 1 file) 1;
            let launch_path :=
              join (lit "/") [user; repository; launch_path] in
            code ← read_file launch_path;
            root ← lift (fromstring code);
            expand fuel' user repository (elements ++ ET.children root) nodes
          else
            expand fuel' user repository elements (nodes ++ [child])
      end
  end.

(** [list_from_launch(self, path, path_dict)]; [path_dict] is not used. *)
Definition list_from_launch (fuel : nat) (path_ : str)
  (path_dict : list (gmap str str)) : M (list launched) :=
  if bool_decide (suffix_slice 7 path_ ≠ lit ".launch") then mret []
  else
    code ← read_file path_;
    let path_ := splitn (chr "/") 2 path_ in
    user ← item path_ 0;
    repository ← item path_ 1;
    file_path ← item path_ 2;
    root ← lift (fromstring code);
    let elements := ET.children root in
    nodes ← expand fuel user repository elements [];
    mret (describe <$> nodes).

End Class.

(** *** Dynamic evaluation *)

(** The two patterns of [params_extract_eval], as the f-strings build
    them: a quoted name between the two parts of the trigger, and anything
    between them. *)
Definition quoted_pattern (trigger : str * str) : str :=
  trigger.1 ++ lit "['" ++ [DQUOTE] ++ lit "](.*?)['" ++ [DQUOTE] ++ lit "]"
    ++ trigger.2.

Definition any_pattern (trigger : str * str) : str :=
  trigger.1 ++ lit "(.*?)" ++ trigger.2.

(** The [ignore_import] branch of [params_extract_eval]: six
    substitutions, one after the other. *)
Definition strip_imports (content : str) : option str :=
  content ← Re.sub (lit ".*?import.*?\n") (lit "\n") content;
  content ← Re.sub (lit "sys.path.*?\n") (lit "\n") content;
  content ← Re.sub (lit "if.*?\n") (lit "\n") content;
  content ← Re.sub (lit "for.*?\n") (lit "\n") content;
  content ← Re.sub (lit "while.*?\n") (lit "\n") content;
  Re.sub (lit " {4}") (lit "") content.

Section Eval.

(** The interpreter: the namespace of a module, the values it holds. *)
Variable namespace : Type.
Variable object : Type.

(** [importlib.util.module_from_spec(spec_from_loader(name, loader=None))]:
    the namespace of a fresh module. *)
Variable module_from_spec : str → namespace.

(** [exec(content, namespace)]: the namespace as the run leaves it, and the
    exception that ended the run, if any. *)
Variable exec : str → namespace → namespace * option exn.

(** [eval(expression)] where [pymodule] is the module of the namespace. *)
Variable eval : namespace → str → exn + object.

(** [str(value)]. *)
Variable str_ : object → exn + str.

(** What one [print(...)] call writes. *)
Definition print (args : list str) : str := join (lit " ") args ++ [LF].

(** [re.search(r"\.", s).start()]: the index of the first ['.']; [None]
    when there is none. *)
Fixpoint find_dot (s : str) : option nat :=
  match s with
  | [] => None
  | c :: s' => if c =? chr "." then Some O else S <$> find_dot s'
  end.

(** The second [try] of [eval_param] and its return: read the variable,
    print it, format the token.  [except Exception] puts ["???"] in place
    of a value that cannot be read. *)
Definition resolve (pymodule : namespace) (param : str) (out : list str)
  : list str * outcome str :=
  let after_eval : exn + list str * (str + object) :=
    match eval pymodule (lit "pymodule." ++ param) with
    | inr value => inr (out, inr value)
    | inl e =>
        if caught_by Exception e
        then inr (out ++ [print [message e];
                          print [lit "Reference cannot be resolved."]],
                  inl (lit "???"))
        else inl e
    end in
  match after_eval with
  | inl e => (out, Raise e)
  | inr (out, true_param) =>
      match match true_param with
            | inl s => inr s
            | inr value => str_ value
            end with
      | inl e => (out, Raise e)
      | inr text =>
          (out ++ [print [text]], Return (param ++ lit " -> " ++ text))
      end
  end.

(** What the three [except] clauses after [exec] print. *)
Definition incomplete (e : exn) (filename : str) : str :=
  print [message e; [LF] ++ lit "Incompletely imported " ++ filename ++ lit "."].

(** Do the three [except] clauses after [exec] catch [e]? *)
Definition recoverable (e : exn) : bool :=
  caught_by ModuleNotFoundError e || caught_by NameError e
  || caught_by IndentationError e.

(** [eval_param(path, content, param)]: what it prints, and how it ends. *)
Definition eval_param (path_ content param : str) : list str * outcome str :=
  match last_item (split (chr "/") path_) with
  | None => ([], Raise (Exn IndexError (lit "list index out of range")))
  | Some filename =>
  match find_dot filename with
  | None =>
      ([], Raise (Exn AttributeError
                    (lit "'NoneType' object has no attribute 'start'")))
  | Some start =>
  let filename := prefix_slice start filename in
  let pymodule := module_from_spec filename in
  let '(pymodule, raised) := exec content pymodule in
  match raised with
  | None => resolve pymodule param []
  | Some e =>
      if caught_by ModuleNotFoundError e
      then resolve pymodule param [incomplete e filename]
      else if caught_by NameError e
      then resolve pymodule param [incomplete e filename]
      else if caught_by IndentationError e
      then resolve pymodule param [incomplete e filename]
      else ([], Raise e)
  end end end.

(** The loop of [params_extract_eval] over the references found:
    [true_params.append(self.eval_param(path, content, param))] for each
    [param] of [all_params] that is not in [params]. *)
Fixpoint eval_references (path_ content : str) (params all_params : list str)
  (true_params : list str) : M (list str) :=
  match all_params with
  | [] => mret true_params
  | param :: all_params' =>
      if negb (contains param params) then
        token ← static (eval_param path_ content param);
        eval_references path_ content params all_params'
          (true_params ++ [token])
      else eval_references path_ content params all_params' true_params
  end.

(** [base64.b64decode(c).decode()], as in [read_file]. *)
Variable b64decode_decode : option str → exn + str.

(** [params_extract_eval(self, trigger, path, already_escaped=False,
    ignore_import=False)]. *)
Definition params_extract_eval (trigger : str * str) (path_ : str)
  (already_escaped ignore_import : bool) : M (list str) :=
  content ← read_file b64decode_decode path_;
  let trigger :=
    if negb already_escaped
    then (Re.escape trigger.1, Re.escape trigger.2)
    else trigger in
  params ← re (Re.findall (quoted_pattern trigger) content);
  all_params ← re (Re.findall (any_pattern trigger) content);
  content ← (if ignore_import then re (strip_imports content)
             else mret content);
  true_params ← eval_references path_ content params all_params [];
  let params := list_set (params ++ true_params) in
  mret (sorted params).

End Eval.

(** The name [eval_param] gives the module: the last segment of the path,
    up to its first ['.']; [None] when there is no ['.']. *)
Definition module_name (path_ : str) : option str :=
  filename ← last_item (split (chr "/") path_);
  start ← find_dot filename;
  Some (prefix_slice start filename).

(** *** The file dictionary, indirect references and mappings *)

(** [l[-1]]. *)
Definition last_of {A} (l : list A) : M A :=
  match last_item l with
  | Some x => mret x
  | None => raise IndexError (lit "list index out of range")
  end.

(** The list of [get_file_dict]: for each file, the dict
    [{content.path.split("/")[-1]: content.path}]. *)
Fixpoint file_dicts (files : list ContentFile) : M (list (gmap str str)) :=
  match files with
  | [] => mret []
  | content :: files =>
      name ← last_of (split (chr "/") (path content));
      dicts ← file_dicts files;
      mret ({[name := path content]} :: dicts)
  end.

(** [get_file_dict(self, path)]. *)
Definition get_file_dict (path_ : str) : M (list (gmap str str)) :=
  _ ← list_files path_;
  files ← get_content;
  file_dicts files.

(** The second and third pattern of [params_extract_match], as the
    f-strings build them: anything between the two parts of the trigger,
    and an assignment of a quoted text to [param]. *)
Definition span_pattern (trigger : str * str) : str :=
  trigger.1 ++ lit "(.*?).*?" ++ trigger.2.

Definition assignment_pattern (param : str) : str :=
  param ++ lit " = ['" ++ [DQUOTE] ++ lit "](.*?)['" ++ [DQUOTE] ++ lit "]".

(** What [span_pattern] means for a raw trigger: the prefix, the group
    [(.*?)], [.*?], the suffix. *)
Definition span_tree (trigger : str * str) : Re.regex :=
  Re.seq_of
    (literal trigger.1
       ++ [Re.Group 1 (Re.seq_of [Re.Star true Re.Any]); Re.Star true Re.Any]
       ++ literal trigger.2).

(** The loop of [params_extract_match] over the references found: for each
    [param] of [all_params] that is not in [params], the first assignment
    to [param] in the content, or a message when there is none. *)
Fixpoint match_references (path_ content : str) (params all_params : list str)
  (true_params : list str) : M (list str) :=
  match all_params with
  | [] => mret true_params
  | param :: all_params' =>
      if negb (contains param params) then
        param_ ← re (Re.findall (assignment_pattern param) content);
        match param_ !! 0%nat with
        | Some value =>
            match_references path_ content params all_params'
              (true_params ++ [value])
        | None =>
            _ ← static ([print [lit "couldn't parse" ++ path_]], Return ());
            match_references path_ content params all_params' true_params
        end
      else match_references path_ content params all_params' true_params
  end.

Section Rest.

Variable b64decode_decode : option str → exn + str.

(** [params_extract_match(self, trigger, path, already_escaped=False)];
    [findall] gives a list, so [isinstance(params, list)] holds. *)
Definition params_extract_match (trigger : str * str) (path_ : str)
  (already_escaped : bool) : M (list str) :=
  content ← read_file b64decode_decode path_;
  let trigger :=
    if negb already_escaped
    then (Re.escape trigger.1, Re.escape trigger.2)
    else trigger in
  params ← re (Re.findall (literal_pattern trigger) content);
  all_params ← re (Re.findall (span_pattern trigger) content);
  true_params ← match_references path_ content params all_params [];
  let params := list_set (params ++ true_params) in
  mret (sorted params).

(** [re.sub(pattern, repl, string)] for the three patterns of
    [extract_mapping]: two of them ([={3,}] and [^.*?:]) use a bounded
    repetition and an anchor, which [Re] leaves out. *)
Variable re_sub : str → str → str → str.

(** The lines that [extract_mapping] cuts at ['=']. *)
Definition mapping_lines (code : str) : list str :=
  let code := re_sub (lit " *?") (lit "") code in
  let code := re_sub (lit "={3,}") (lit "") code in
  let code := split LF code in
  re_sub (lit "^.*?:") (lit "") <$> code.

(** [extract_mapping(self, path)].  [line[1]] raises [IndexError] on a
    line without ['='], which [except IndexError: pass] drops. *)
Definition extract_mapping (path_ : str) : M (list (gmap str str)) :=
  code ← read_file b64decode_decode path_;
  let code := mapping_lines code in
  let code := splitn (chr "=") 1 <$> code in
  mret
    (fold_left
       (λ mapping line,
          match line !! 1%nat with
          | Some value =>
              if truthy value
              then match line !! 0%nat with
                   | Some key => mapping ++ [{[key := value]}]
                   | None => mapping
                   end
              else mapping
          | None => mapping
          end)
       code []).

End Rest.

(** ** A small repository, for the examples

    [owner/repo] holds a README, two declaration files, two scripts and a
    directory of three launch files; [owner/repo/empty] lists nothing. *)

Module Demo.

Definition obs_text : str :=
  lit "a=1" ++ [LF] ++ lit "b=" ++ [LF] ++ lit "c=3" ++ [LF].
Definition bad_obs_text : str := lit "k==1" ++ [LF].
Definition script_text : str :=
  lit "x = obs['foo']" ++ [LF] ++ lit "y = obs['bar']".
Definition indirect_text : str :=
  lit "key = 'foo'" ++ [LF] ++ lit "x = obs[key]".
Definition top_text : str :=
  lit "<launch><include file='$(find pkg)/launch/sub.launch'/></launch>".
Definition sub_text : str :=
  lit "<launch><node type='talker.py'><remap from='a' to='b'/></node></launch>".
Definition flat_text : str :=
  lit "<launch><remap from='a' to='b'/><node type='listener.py'/></launch>".

(** The base64 text of each file, and what it decodes to. *)
Definition encoded : list (str * str) :=
  [ (lit "IyByb3MxX3Rlc3Q=", lit "# ros1_test");
    (lit "YT0xCmI9CmM9Mwo=", obs_text);
    (lit "az09MQo=", bad_obs_text);
    (lit "eCA9IG9ic1snZm9vJ10KeSA9IG9ic1snYmFyJ10=", script_text);
    (lit "a2V5ID0gJ2ZvbycKeCA9IG9ic1trZXld", indirect_text);
    (lit "PGxhdW5jaD48aW5jbHVkZSBmaWxlPSckKGZpbmQgcGtnKS9sYXVuY2gvc3ViLmxhdW5jaCcvPjwvbGF1bmNoPg==",
     top_text);
    (lit "PGxhdW5jaD48bm9kZSB0eXBlPSd0YWxrZXIucHknPjxyZW1hcCBmcm9tPSdhJyB0bz0nYicvPjwvbm9kZT48L2xhdW5jaD4=",
     sub_text);
    (lit "PGxhdW5jaD48cmVtYXAgZnJvbT0nYScgdG89J2InLz48bm9kZSB0eXBlPSdsaXN0ZW5lci5weScvPjwvbGF1bmNoPg==",
     flat_text) ].

Fixpoint assoc {V} (k : str) (l : list (str * V)) : option V :=
  match l with
  | [] => None
  | (k', v) :: l' => if bool_decide (k' = k) then Some v else assoc k l'
  end.

Definition b64decode_decode (c : option str) : exn + str :=
  match c with
  | None =>
      inl (Exn TypeError
             (lit "argument should be a bytes-like object or ASCII string, not 'NoneType'"))
  | Some c =>
      match assoc c encoded with
      | Some text => inr text
      | None =>
          inl (Exn (Derived (lit "binascii.Error") ValueError)
                 (lit "Incorrect padding"))
      end
  end.

(** The element trees of the three launch files. *)
Definition remap_a_b : ET.Element :=
  ET.Elem (lit "remap") {[lit "from" := lit "a"; lit "to" := lit "b"]} [].

Definition sub_root : ET.Element :=
  ET.Elem (lit "launch") ∅
    [ET.Elem (lit "node") {[lit "type" := lit "talker.py"]} [remap_a_b]].

Definition top_root : ET.Element :=
  ET.Elem (lit "launch") ∅
    [ET.Elem (lit "include")
       {[lit "file" := lit "$(find pkg)/launch/sub.launch"]} []].

Definition flat_root : ET.Element :=
  ET.Elem (lit "launch") ∅
    [remap_a_b; ET.Elem (lit "node") {[lit "type" := lit "listener.py"]} []].

Definition fromstring (text : str) : exn + ET.Element :=
  match assoc text [(top_text, top_root); (sub_text, sub_root);
                    (flat_text, flat_root)] with
  | Some root => inr root
  | None =>
      inl (Exn (Derived (lit "ParseError") SyntaxError) (lit "syntax error"))
  end.

(** The repository. *)
Definition file (path_ b64 : String.string) : ContentFile :=
  mkContentFile (lit "file") (lit path_) (Some (lit b64)) (inr []).

Arguments file (path_ b64)%_string_scope.

Definition readme := file "README.md" "IyByb3MxX3Rlc3Q=".
Definition horizon := file "horizon.obs" "YT0xCmI9CmM9Mwo=".
Definition bad := file "bad.obs" "az09MQo=".
Definition script := file "script.py" "eCA9IG9ic1snZm9vJ10KeSA9IG9ic1snYmFyJ10=".
Definition indirect := file "indirect.py" "a2V5ID0gJ2ZvbycKeCA9IG9ic1trZXld".
Definition top := file "launch/top.launch"
  "PGxhdW5jaD48aW5jbHVkZSBmaWxlPSckKGZpbmQgcGtnKS9sYXVuY2gvc3ViLmxhdW5jaCcvPjwvbGF1bmNoPg==".
Definition sub := file "launch/sub.launch"
  "PGxhdW5jaD48bm9kZSB0eXBlPSd0YWxrZXIucHknPjxyZW1hcCBmcm9tPSdhJyB0bz0nYicvPjwvbm9kZT48L2xhdW5jaD4=".
Definition flat := file "launch/flat.launch"
  "PGxhdW5jaD48cmVtYXAgZnJvbT0nYScgdG89J2InLz48bm9kZSB0eXBlPSdsaXN0ZW5lci5weScvPjwvbGF1bmNoPg==".

Definition launch_dir : ContentFile :=
  mkContentFile (lit "dir") (lit "launch") None (inr [top; sub; flat]).

Definition not_found : exn :=
  Exn (Derived (lit "UnknownObjectException")
         (Derived (lit "GithubException") Exception))
      (lit "404 Not Found").

Definition repo : Repository :=
  {| get_contents directory :=
       match assoc directory
               [ (lit "",
                  Many [readme; horizon; bad; script; indirect; launch_dir]);
                 (lit "README.md", One readme);
                 (lit "horizon.obs", One horizon);
                 (lit "bad.obs", One bad);
                 (lit "script.py", One script);
                 (lit "indirect.py", One indirect);
                 (lit "launch", Many [top; sub; flat]);
                 (lit "launch/top.launch", One top);
                 (lit "launch/sub.launch", One sub);
                 (lit "launch/flat.launch", One flat);
                 (lit "empty", Many []) ] with
       | Some c => inr c
       | None => inl not_found
       end |}.

Definition github : Github :=
  {| get_repo full_name :=
       if bool_decide (full_name = lit "owner/repo") then inr repo
       else inl not_found |}.

Definition self : state := init github.

(** An interpreter for the examples of [eval_param]: running the content
    leaves the namespace as it is, and no attribute can be read. *)
Definition exec (content : str) (ns : unit) : unit * option exn := (ns, None).
Definition exec_raises (e : exn) (content : str) (ns : unit)
  : unit * option exn := (ns, Some e).
Definition name_error : exn :=
  Exn NameError (lit "name 'rospy' is not defined").
Definition type_error : exn :=
  Exn TypeError (lit "unsupported operand type(s) for +: 'int' and 'str'").
Definition eval (ns : unit) (expression : str) : exn + unit :=
  inl (Exn AttributeError
         (lit "module has no attribute " ++ drop 9 expression)).

End Demo.

(** ** A second small repository, for the examples of includes and
    mappings

    [owner/pkg] holds four launch files -- one that includes itself, one
    with an include between two nodes, one with an include without
    [file], one with a [file] without ['/'] -- the launch file [sub] of
    the first repository, and a file of mappings. *)

Module Launches.

Definition loop_text : str :=
  lit "<launch><include file='$(find pkg)/launch/loop.launch'/></launch>".
Definition mixed_text : str :=
  lit "<launch><node type='a.py'/><include file='$(find pkg)/launch/sub.launch'/><node type='b.py'/></launch>".
Definition nofile_text : str := lit "<launch><include/></launch>".
Definition noslash_text : str :=
  lit "<launch><include file='sub.launch'/></launch>".
Definition mapping_text : str :=
  lit "a=b" ++ [LF] ++ lit "c==d" ++ [LF] ++ lit "e=" ++ [LF] ++ lit "f".

Definition texts : list (str * str) :=
  [ (lit "PGxhdW5jaD48aW5jbHVkZSBmaWxlPSckKGZpbmQgcGtnKS9sYXVuY2gvbG9vcC5sYXVuY2gnLz48L2xhdW5jaD4=",
     loop_text);
    (lit "PGxhdW5jaD48bm9kZSB0eXBlPSdhLnB5Jy8+PGluY2x1ZGUgZmlsZT0nJChmaW5kIHBrZykvbGF1bmNoL3N1Yi5sYXVuY2gnLz48bm9kZSB0eXBlPSdiLnB5Jy8+PC9sYXVuY2g+",
     mixed_text);
    (lit "PGxhdW5jaD48aW5jbHVkZS8+PC9sYXVuY2g+", nofile_text);
    (lit "PGxhdW5jaD48aW5jbHVkZSBmaWxlPSdzdWIubGF1bmNoJy8+PC9sYXVuY2g+",
     noslash_text);
    (lit "PGxhdW5jaD48bm9kZSB0eXBlPSd0YWxrZXIucHknPjxyZW1hcCBmcm9tPSdhJyB0bz0nYicvPjwvbm9kZT48L2xhdW5jaD4=",
     Demo.sub_text);
    (lit "YT1iCmM9PWQKZT0KZg==", mapping_text) ].

Definition decode (c : option str) : exn + str :=
  match c with
  | None =>
      inl (Exn TypeError
             (lit "argument should be a bytes-like object or ASCII string, not 'NoneType'"))
  | Some c =>
      match Demo.assoc c texts with
      | Some text => inr text
      | None =>
          inl (Exn (Derived (lit "binascii.Error") ValueError)
                 (lit "Incorrect padding"))
      end
  end.

(** The element trees of the launch files. *)
Definition self_include : ET.Element :=
  ET.Elem (lit "include")
    {[lit "file" := lit "$(find pkg)/launch/loop.launch"]} [].

Definition loop_root : ET.Element := ET.Elem (lit "launch") ∅ [self_include].

Definition node_a : ET.Element :=
  ET.Elem (lit "node") {[lit "type" := lit "a.py"]} [].
Definition node_b : ET.Element :=
  ET.Elem (lit "node") {[lit "type" := lit "b.py"]} [].
Definition include_sub : ET.Element :=
  ET.Elem (lit "include")
    {[lit "file" := lit "$(find pkg)/launch/sub.launch"]} [].

Definition mixed_root : ET.Element :=
  ET.Elem (lit "launch") ∅ [node_a; include_sub; node_b].

Definition include_nothing : ET.Element := ET.Elem (lit "include") ∅ [].
Definition nofile_root : ET.Element :=
  ET.Elem (lit "launch") ∅ [include_nothing].

Definition include_bare : ET.Element :=
  ET.Elem (lit "include") {[lit "file" := lit "sub.launch"]} [].
Definition noslash_root : ET.Element :=
  ET.Elem (lit "launch") ∅ [include_bare].

Definition parse (text : str) : exn + ET.Element :=
  match Demo.assoc text
          [(loop_text, loop_root); (mixed_text, mixed_root);
           (nofile_text, nofile_root); (noslash_text, noslash_root);
           (Demo.sub_text, Demo.sub_root)] with
  | Some root => inr root
  | None =>
      inl (Exn (Derived (lit "ParseError") SyntaxError) (lit "syntax error"))
  end.

(** The repository. *)
Definition loop := Demo.file "launch/loop.launch"
  "PGxhdW5jaD48aW5jbHVkZSBmaWxlPSckKGZpbmQgcGtnKS9sYXVuY2gvbG9vcC5sYXVuY2gnLz48L2xhdW5jaD4=".
Definition mixed := Demo.file "launch/mixed.launch"
  "PGxhdW5jaD48bm9kZSB0eXBlPSdhLnB5Jy8+PGluY2x1ZGUgZmlsZT0nJChmaW5kIHBrZykvbGF1bmNoL3N1Yi5sYXVuY2gnLz48bm9kZSB0eXBlPSdiLnB5Jy8+PC9sYXVuY2g+".
Definition nofile := Demo.file "launch/nofile.launch"
  "PGxhdW5jaD48aW5jbHVkZS8+PC9sYXVuY2g+".
Definition noslash := Demo.file "launch/noslash.launch"
  "PGxhdW5jaD48aW5jbHVkZSBmaWxlPSdzdWIubGF1bmNoJy8+PC9sYXVuY2g+".
Definition mapping := Demo.file "mapping.txt" "YT1iCmM9PWQKZT0KZg==".

Definition pkg : Repository :=
  {| get_contents directory :=
       match Demo.assoc directory
               [ (lit "launch/loop.launch", One loop);
                 (lit "launch/mixed.launch", One mixed);
                 (lit "launch/nofile.launch", One nofile);
                 (lit "launch/noslash.launch", One noslash);
                 (lit "launch/sub.launch", One Demo.sub);
                 (lit "mapping.txt", One mapping) ] with
       | Some c => inr c
       | None => inl Demo.not_found
       end |}.

Definition remote : Github :=
  {| get_repo full_name :=
       if bool_decide (full_name = lit "owner/pkg") then inr pkg
       else inl Demo.not_found |}.

Definition checker : state := init remote.

(** [re.sub] with the three patterns of [extract_mapping], on a text that
    holds no space, no run of three ['='] and no [':']: nothing is
    replaced. *)
Definition re_sub (pattern repl string : str) : str := string.

End Launches.

(** ** Notions used in the properties *)

(** The files that a listing reaches: its own entries that are not
    directories, and the files that the listing of one of its directories
    reaches. *)
Inductive listed (f : ContentFile) : list ContentFile → Prop :=
  | listed_here contents :
      f ∈ contents → type_ f ≠ lit "dir" → listed f contents
  | listed_below contents d below :
      d ∈ contents → type_ d = lit "dir" → entries d = inr below →
      listed f below → listed f contents.

(** Two states of the object with the same client, and with the same
    client and the same stored listing. *)
Definition same_client (σ σ' : state) : Prop := g σ = g σ'.

Definition same_fields (σ σ' : state) : Prop :=
  g σ = g σ' ∧ content_ σ = content_ σ'.

(** A call that does not tell states related by [P] apart: it ends in the
    same way in both, and when it returns it leaves states related by
    [Q]. *)
Definition respects {A} (P Q : state → state → Prop) (m : M A) : Prop :=
  ∀ σ σ', P σ σ' →
    (m σ).1 = (m σ').1 ∧ (∀ a, (m σ).1 = Return a → Q (m σ).2 (m σ').2).

(** A call that never replaces the client. *)
Definition keeps_client {A} (m : M A) : Prop := ∀ σ, g (m σ).2 = g σ.



(** * Part II: properties *)

(** ** The built-ins and [re] on known cases

    What the interpreter (Python 3.11) answers for the same calls. *)

Section KnownCases.

Example splitlines_keeps_empty_lines :
  splitlines (lit "a" ++ [CR; LF; LF] ++ lit "b") = [lit "a"; []; lit "b"].
Proof. reflexivity. Qed.

Example splitlines_no_last_empty_line :
  splitlines (lit "a=1" ++ [LF] ++ lit "b=" ++ [LF]) = [lit "a=1"; lit "b="].
Proof. reflexivity. Qed.

Example split_every_separator :
  split (chr "=") (lit "k==1") = [lit "k"; []; lit "1"].
Proof. reflexivity. Qed.

Example split_of_empty : split (chr "=") [] = [[]].
Proof. reflexivity. Qed.

Example splitn_keeps_the_rest :
  splitn (chr "/") 2 (lit "a/b/c/d") = [lit "a"; lit "b"; lit "c/d"].
Proof. reflexivity. Qed.

Example escape_special_only :
  Re.escape (lit "obs[a b]-_%/") = lit "obs\[a\ b\]\-_%/".
Proof. vm_compute. reflexivity. Qed.

Example findall_lazy_star :
  Re.findall (lit "a*?") (lit "baac")
  = Some [[]; []; lit "a"; []; lit "a"; []; []].
Proof. vm_compute. reflexivity. Qed.

Example findall_greedy_star :
  Re.findall (lit "a*") (lit "baac") = Some [[]; lit "aa"; []; []].
Proof. vm_compute. reflexivity. Qed.

Example findall_alternation :
  Re.findall (lit "(a|b*)c") (lit "bbcac") = Some [lit "bb"; lit "a"].
Proof. vm_compute. reflexivity. Qed.

Example sub_empty_matches :
  Re.sub (lit "a*") (lit "-") (lit "baac") = Some (lit "-b--c-").
Proof. vm_compute. reflexivity. Qed.

Example sub_lines :
  Re.sub (lit "if.*?\n") (lit "\n")
    (lit "if x:" ++ [LF] ++ lit "    y = 1" ++ [LF] ++ lit "modify" ++ [LF])
  = Some ([LF] ++ lit "    y = 1" ++ [LF] ++ lit "mod" ++ [LF]).
Proof. vm_compute. reflexivity. Qed.

Example sub_repetition :
  Re.sub (lit " {4}") (lit "") (lit "if x:" ++ [LF] ++ lit "        y = 1")
  = Some (lit "if x:" ++ [LF] ++ lit "y = 1").
Proof. vm_compute. reflexivity. Qed.

End KnownCases.

(** ** Ordering of [str] *)

Section StrOrder.

Lemma str_leb_refl a : str_leb a a = true.
Proof.
  induction a as [|x a IH]; simpl; [done|].
  rewrite N.ltb_irrefl, N.eqb_refl. exact IH.
Qed.

Lemma str_leb_total a b : str_leb a b = true ∨ str_leb b a = true.
Proof.
  revert b. induction a as [|x a IH]; intros [|y b]; simpl; auto.
  destruct (N.ltb_spec x y) as [Hxy|Hxy]; [by left|].
  destruct (N.ltb_spec y x) as [Hyx|Hyx]; [by right|].
  assert (x = y) as -> by lia. rewrite N.eqb_refl. apply IH.
Qed.

Lemma str_leb_trans a b c :
  str_leb a b = true → str_leb b c = true → str_leb a c = true.
Proof.
  revert b c. induction a as [|x a IH]; intros [|y b] [|z c]; simpl; try done.
  destruct (N.ltb_spec x y) as [Hxy|Hxy].
  - intros _. destruct (N.ltb_spec y z) as [Hyz|Hyz].
    + intros _. destruct (N.ltb_spec x z); [done|lia].
    + destruct (N.eqb_spec y z) as [->|]; [|done].
      intros _. destruct (N.ltb_spec x z); [done|lia].
  - destruct (N.eqb_spec x y) as [->|]; [|done].
    intros Hab. destruct (N.ltb_spec y z) as [Hyz|Hyz]; [done|].
    destruct (N.eqb_spec y z) as [->|]; [|done]. by apply IH.
Qed.

Lemma str_leb_antisym a b :
  str_leb a b = true → str_leb b a = true → a = b.
Proof.
  revert b. induction a as [|x a IH]; intros [|y b]; simpl; try done.
  destruct (N.ltb_spec x y) as [Hxy|Hxy].
  - intros _. destruct (N.ltb_spec y x); [lia|].
    destruct (N.eqb_spec y x); [lia|done].
  - destruct (N.eqb_spec x y) as [->|]; [|done].
    rewrite N.ltb_irrefl, N.eqb_refl. intros ? ?. f_equal. by apply IH.
Qed.

#[export] Instance str_le_refl : Reflexive str_le.
Proof. intros a. apply str_leb_refl. Qed.
#[export] Instance str_le_trans : Transitive str_le.
Proof. intros a b c. apply str_leb_trans. Qed.
#[export] Instance str_le_total : Total str_le.
Proof. intros a b. apply str_leb_total. Qed.
#[export] Instance str_le_antisym : AntiSymm eq str_le.
Proof. intros a b. apply str_leb_antisym. Qed.

End StrOrder.

(** ** The reconciler [diff] *)

Section Diff.

Implicit Types declared used : list str.

(** The first loop computes two filters of [declared]. *)
Lemma diff_loop1 used declared u n :
  fold_left
    (λ '(u, n) param,
       if contains param used then (u ++ [param], n) else (u, n ++ [param]))
    declared (u, n)
  = (u ++ filter (λ p, p ∈ used) declared,
     n ++ filter (λ p, p ∉ used) declared).
Proof.
  revert u n. induction declared as [|p l IH]; intros u n; simpl.
  - by rewrite !app_nil_r.
  - unfold contains at 2. case_bool_decide; rewrite IH.
    + rewrite filter_cons_True, filter_cons_False by tauto.
      by rewrite <- app_assoc.
    + rewrite filter_cons_False, filter_cons_True by tauto.
      by rewrite <- app_assoc.
Qed.

(** The second loop computes a filter of [used]. *)
Lemma diff_loop2 declared used nd :
  fold_left
    (λ nd param,
       if negb (contains param declared) then nd ++ [param] else nd)
    used nd
  = nd ++ filter (λ p, p ∉ declared) used.
Proof.
  revert nd. induction used as [|p l IH]; intros nd; simpl.
  - by rewrite app_nil_r.
  - unfold contains at 2. case_bool_decide; simpl; rewrite IH.
    + by rewrite filter_cons_False by (by intros ?).
    + rewrite filter_cons_True by done. by rewrite <- app_assoc.
Qed.

Lemma diff_filter declared used :
  diff declared used =
  <[lit "used" := filter (λ p, p ∈ used) declared]>
    (<[lit "not_used" := filter (λ p, p ∉ used) declared]>
       (<[lit "not_declared" := filter (λ p, p ∉ declared) used]> ∅)).
Proof. unfold diff. by rewrite diff_loop1, diff_loop2. Qed.

Lemma diff_used declared used :
  diff declared used !! lit "used" = Some (filter (λ p, p ∈ used) declared).
Proof. rewrite diff_filter. by rewrite lookup_insert_eq. Qed.

Lemma diff_not_used declared used :
  diff declared used !! lit "not_used"
  = Some (filter (λ p, p ∉ used) declared).
Proof.
  rewrite diff_filter. rewrite lookup_insert_ne by done.
  by rewrite lookup_insert_eq.
Qed.

Lemma diff_not_declared declared used :
  diff declared used !! lit "not_declared"
  = Some (filter (λ p, p ∉ declared) used).
Proof.
  rewrite diff_filter. rewrite !lookup_insert_ne by done.
  by rewrite lookup_insert_eq.
Qed.

Lemma diff_dom declared used :
  dom (diff declared used)
  = {[lit "used"; lit "not_used"; lit "not_declared"]}.
Proof.
  rewrite diff_filter, !dom_insert_L, dom_empty_L. set_solver.
Qed.

End Diff.

(** ** Claims about [diff] *)

Section DiffClaims.

Implicit Types declared used : list str.

Lemma Sorted_filter (P : str → Prop) `{!∀ x, Decision (P x)} (l : list str) :
  Sorted str_le l → Sorted str_le (filter P l).
Proof.
  intros Hl. apply StronglySorted_Sorted.
  apply (Sorted_StronglySorted _ _) in Hl.
  induction Hl as [|x l Hl IH Hx]; [constructor|].
  destruct (decide (P x)).
  - rewrite filter_cons_True by done. constructor; [done|].
    apply Forall_forall. intros y [_ Hy]%list_elem_of_filter.
    by eapply Forall_forall in Hx.
  - by rewrite filter_cons_False.
Qed.

(** C1 (as amended): the report has exactly the three keys; its lists are
    the intersection and the two differences of the inputs, cover their
    union and are pairwise disjoint; a bucket is free of duplicates
    whenever the list it is filled from is; and the documented scenario
    evaluates as stated. *)
Theorem diff_partitions_inputs declared used :
  let ret := diff declared used in
  dom ret = {[lit "used"; lit "not_used"; lit "not_declared"]} ∧
  (∀ x, x ∈ ret !!! lit "used" ↔ x ∈ declared ∧ x ∈ used) ∧
  (∀ x, x ∈ ret !!! lit "not_used" ↔ x ∈ declared ∧ x ∉ used) ∧
  (∀ x, x ∈ ret !!! lit "not_declared" ↔ x ∈ used ∧ x ∉ declared) ∧
  (∀ x, x ∈ ret !!! lit "used" ++ ret !!! lit "not_used"
             ++ ret !!! lit "not_declared"
        ↔ x ∈ declared ∨ x ∈ used) ∧
  (∀ x, ¬ (x ∈ ret !!! lit "used" ∧ x ∈ ret !!! lit "not_used") ∧
        ¬ (x ∈ ret !!! lit "used" ∧ x ∈ ret !!! lit "not_declared") ∧
        ¬ (x ∈ ret !!! lit "not_used" ∧ x ∈ ret !!! lit "not_declared")) ∧
  (NoDup declared →
     NoDup (ret !!! lit "used") ∧ NoDup (ret !!! lit "not_used")) ∧
  (NoDup used → NoDup (ret !!! lit "not_declared")) ∧
  diff [lit "a"; lit "b"; lit "c"] [lit "b"; lit "c"; lit "d"]
  = <[lit "used" := [lit "b"; lit "c"]]>
      (<[lit "not_used" := [lit "a"]]>
         (<[lit "not_declared" := [lit "d"]]> ∅)).
Proof.
  intros ret. subst ret.
  rewrite !lookup_total_alt, diff_used, diff_not_used, diff_not_declared.
  simpl. split_and!.
  - apply diff_dom.
  - intros x. rewrite list_elem_of_filter. tauto.
  - intros x. rewrite list_elem_of_filter. tauto.
  - intros x. rewrite list_elem_of_filter. tauto.
  - intros x. rewrite !elem_of_app, !list_elem_of_filter.
    destruct (decide (x ∈ declared)), (decide (x ∈ used)); tauto.
  - intros x. rewrite !list_elem_of_filter. tauto.
  - intros Hd. split; by apply NoDup_filter.
  - intros Hu. by apply NoDup_filter.
  - vm_compute. reflexivity.
Qed.

(** An instance: two lists without duplicates. *)
Lemma diff_partitions_inputs_witness :
  NoDup (diff [lit "a"; lit "b"] [lit "b"; lit "c"] !!! lit "used") ∧
  NoDup (diff [lit "a"; lit "b"] [lit "b"; lit "c"] !!! lit "not_declared").
Proof.
  pose proof (diff_partitions_inputs [lit "a"; lit "b"] [lit "b"; lit "c"])
    as (_ & _ & _ & _ & _ & _ & Hd & Hu & _).
  split.
  - apply Hd. apply (bool_decide_unpack _). vm_compute. exact I.
  - apply Hu. apply (bool_decide_unpack _). vm_compute. exact I.
Defined.

(** C1, as stated, fails: a name declared twice and never used is reported
    twice under ['not_used']. *)
Lemma diff_keeps_duplicates :
  diff [lit "a"; lit "a"] [] !!! lit "not_used" = [lit "a"; lit "a"] ∧
  ¬ NoDup (diff [lit "a"; lit "a"] [] !!! lit "not_used").
Proof.
  assert (diff [lit "a"; lit "a"] [] !!! lit "not_used"
          = [lit "a"; lit "a"]) as E by (vm_compute; reflexivity).
  split; [exact E|]. rewrite E.
  intros H. apply NoDup_cons in H as [H _]. apply H. left.
Qed.

(** C5 (as amended): each list of the report keeps the order of the list
    it is filled from -- ['used'] and ['not_used'] that of the declared
    list, ['not_declared'] that of the used list -- and is therefore
    sorted ascending whenever that input list is. *)
Theorem diff_keeps_input_order declared used :
  let ret := diff declared used in
  ret !!! lit "used" `sublist_of` declared ∧
  ret !!! lit "not_used" `sublist_of` declared ∧
  ret !!! lit "not_declared" `sublist_of` used ∧
  (Sorted str_le declared →
     Sorted str_le (ret !!! lit "used") ∧
     Sorted str_le (ret !!! lit "not_used")) ∧
  (Sorted str_le used → Sorted str_le (ret !!! lit "not_declared")).
Proof.
  intros ret. subst ret.
  rewrite !lookup_total_alt, diff_used, diff_not_used, diff_not_declared.
  simpl. repeat split; try apply sublist_filter; by apply Sorted_filter.
Qed.

(** An instance: two sorted lists. *)
Lemma diff_keeps_input_order_witness :
  Sorted str_le (diff [lit "a"; lit "b"] [lit "b"; lit "c"] !!! lit "used") ∧
  Sorted str_le
    (diff [lit "a"; lit "b"] [lit "b"; lit "c"] !!! lit "not_declared").
Proof.
  pose proof (diff_keeps_input_order [lit "a"; lit "b"] [lit "b"; lit "c"])
    as (_ & _ & _ & Hd & Hu).
  split.
  - apply Hd. repeat constructor.
  - apply Hu. repeat constructor.
Defined.

(** C5, as stated, fails: the report is never sorted by [diff]; an
    unsorted declared list gives an unsorted bucket. *)
Lemma diff_does_not_sort :
  diff [lit "b"; lit "a"] [] !!! lit "not_used" = [lit "b"; lit "a"] ∧
  ¬ Sorted str_le (diff [lit "b"; lit "a"] [] !!! lit "not_used").
Proof.
  assert (diff [lit "b"; lit "a"] [] !!! lit "not_used"
          = [lit "b"; lit "a"]) as E by (vm_compute; reflexivity).
  split; [exact E|]. rewrite E.
  intros H. apply Sorted_inv in H as [_ H]. apply HdRel_inv in H.
  vm_compute in H. discriminate.
Qed.

End DiffClaims.

(** ** The monad of methods *)

Section Monad.

Context {A B : Type}.
Implicit Types (m : M A) (f : A → M B) (σ : state).

Lemma bind_Return m f σ a σ1 :
  m σ = (Return a, σ1) → (m ≫= f) σ = f a σ1.
Proof. intros H. unfold mbind, M_bind. by rewrite H. Qed.

Lemma bind_Raise m f σ e σ1 :
  m σ = (Raise e, σ1) → (m ≫= f) σ = (Raise e, σ1).
Proof. intros H. unfold mbind, M_bind. by rewrite H. Qed.

Lemma bind_Return_inv m f σ b σ2 :
  (m ≫= f) σ = (Return b, σ2) →
  ∃ a σ1, m σ = (Return a, σ1) ∧ f a σ1 = (Return b, σ2).
Proof.
  unfold mbind, M_bind. destruct (m σ) as [[a| | |] σ1]; try done. eauto.
Qed.

End Monad.

Lemma ends_bind {A B} (m : M A) (f : A → M B) σ :
  ends (m σ) → (∀ a σ1, m σ = (Return a, σ1) → ends (f a σ1)) →
  ends ((m ≫= f) σ).
Proof.
  unfold mbind, M_bind, ends. destruct (m σ) as [[a| | |] σ1]; simpl; try done.
  intros _ H. by apply H.
Qed.

Lemma ends_lift {A} (r : exn + A) σ : ends (lift r σ).
Proof. by destruct r. Qed.

Lemma ends_ask {A} q (r : exn + A) σ : ends (ask q r σ).
Proof. unfold ask. apply ends_lift. Qed.

Lemma ends_item {A} (l : list A) i σ : ends (item l i σ).
Proof. unfold item. by destruct (l !! i). Qed.

Lemma ends_get_content σ : ends (get_content σ).
Proof. unfold get_content. by destruct (content_ σ). Qed.

(** ** The accessor: [list_files] and [read_file] *)

Section Accessor.

Lemma sizes_app l1 l2 : sizes (l1 ++ l2) = (sizes l1 + sizes l2)%nat.
Proof. induction l1 as [|f l1 IH]; simpl; [done|]. rewrite IH. lia. Qed.

Lemma size_entries f below :
  entries f = inr below → size f = S (sizes below).
Proof.
  destruct f as [t p c e]. simpl. by intros ->.
Qed.

(** The size of the listing is fuel enough: the loop of [list_files] ends. *)
Lemma list_files_loop_ends fuel full_name contents σ :
  (sizes contents < fuel)%nat →
  ends (list_files_loop fuel full_name contents σ).
Proof.
  revert contents σ. induction fuel as [|fuel IH]; intros contents σ Hlt; [lia|].
  destruct contents as [|f contents]; simpl; [done|].
  case_bool_decide.
  - apply ends_bind; [apply ends_ask|].
    intros below σ1 Hask. apply IH.
    assert (entries f = inr below) as Hf.
    { unfold ask, lift in Hask. destruct (entries f); naive_solver. }
    apply size_entries in Hf. rewrite sizes_app. simpl in Hlt. lia.
  - apply ends_bind; [apply ends_get_content|].
    intros files σ1 _. apply ends_bind; [done|].
    intros [] σ2 _. apply IH. destruct f; simpl in *; lia.
Qed.

Lemma list_files_ends path_ σ : ends (list_files path_ σ).
Proof.
  unfold list_files.
  apply ends_bind.
  { set (l := splitn (chr "/") 2 path_).
    destruct (l !! 0%nat), (l !! 1%nat), (l !! 2%nat); done. }
  intros [[user repository] directory] σ1 _.
  apply ends_bind; [done|]. intros gh σ2 _.
  apply ends_bind; [apply ends_ask|]. intros repo σ3 _.
  apply ends_bind; [apply ends_ask|]. intros contents σ4 _.
  apply ends_bind; [done|]. intros [] σ5 _.
  apply ends_bind; [apply list_files_loop_ends; lia|]. intros [] σ6 _.
  apply ends_bind; [apply ends_get_content|]. by intros files σ7 _.
Qed.

(** When [list_files] returns, [self.__content] holds the files listed. *)
Lemma list_files_Return path_ σ names σ1 :
  list_files path_ σ = (Return names, σ1) →
  ∃ files, content_ σ1 = Some files ∧ names = path <$> files.
Proof.
  unfold list_files. intros H.
  apply bind_Return_inv in H as ([[user repository] directory] & σa & _ & H).
  apply bind_Return_inv in H as (gh & σb & _ & H).
  apply bind_Return_inv in H as (repo & σc & _ & H).
  apply bind_Return_inv in H as (contents & σd & _ & H).
  apply bind_Return_inv in H as ([] & σe & _ & H).
  apply bind_Return_inv in H as ([] & σf & _ & H).
  apply bind_Return_inv in H as (files & σg & Hget & H).
  unfold get_content in Hget. destruct (content_ σf) eqn:E; [|done].
  injection Hget as <- <-. injection H as <- <-. eauto.
Qed.

End Accessor.

(** ** Claims about [read_file] *)

Section ReadFile.

Variable b64decode_decode : option str → exn + str.

Lemma read_file_ends path_ σ : ends (read_file b64decode_decode path_ σ).
Proof.
  unfold read_file.
  apply ends_bind; [apply list_files_ends|]. intros names σ1 _.
  apply ends_bind; [apply ends_get_content|]. intros files σ2 _.
  case_bool_decide; [done|].
  apply ends_bind; [apply ends_item|]. intros f σ3 _. apply ends_lift.
Qed.

(** After the listing, [read_file] looks at the number of files only. *)
Lemma read_file_after_listing path_ σ names σ1 files :
  list_files path_ σ = (Return names, σ1) →
  content_ σ1 = Some files →
  read_file b64decode_decode path_ σ =
    match files with
    | [] => (Raise (Exn IndexError (lit "list index out of range")), σ1)
    | [f] => lift (b64decode_decode (content f)) σ1
    | _ :: _ :: _ =>
        (Raise (Exn ValueError (lit "File is not uniquely specified.")), σ1)
    end.
Proof.
  intros Hlist Hfiles. unfold read_file.
  rewrite (bind_Return _ _ _ _ _ Hlist).
  assert (get_content σ1 = (Return files, σ1)) as Hget.
  { unfold get_content. by rewrite Hfiles. }
  rewrite (bind_Return _ _ _ _ _ Hget).
  destruct files as [|f [|f' files]]; simpl; try done.
Qed.

(** C8: [read_file] ends by returning or raising.  Once the path is
    listed, it raises [ValueError] when more than one file matches, raises
    ([IndexError]) when none does, and with exactly one file returns what
    decoding its content gives; when the listing itself raises, so does
    [read_file].  Hence a text is returned only when exactly one file
    matches, and it is the decoded content of that file. *)
Theorem read_file_exactly_one path_ σ :
  ends (read_file b64decode_decode path_ σ) ∧
  (∀ names σ1,
     list_files path_ σ = (Return names, σ1) →
     ∃ files,
       content_ σ1 = Some files ∧ names = path <$> files ∧
       read_file b64decode_decode path_ σ =
         match files with
         | [] => (Raise (Exn IndexError (lit "list index out of range")), σ1)
         | [f] => lift (b64decode_decode (content f)) σ1
         | _ :: _ :: _ =>
             (Raise (Exn ValueError (lit "File is not uniquely specified.")),
              σ1)
         end) ∧
  (∀ e σ1,
     list_files path_ σ = (Raise e, σ1) → read_file b64decode_decode path_ σ = (Raise e, σ1)) ∧
  (∀ text σ1,
     read_file b64decode_decode path_ σ = (Return text, σ1) →
     ∃ f, content_ σ1 = Some [f] ∧ b64decode_decode (content f) = inr text).
Proof.
  split_and!.
  - apply read_file_ends.
  - intros names σ1 Hlist.
    destruct (list_files_Return _ _ _ _ Hlist) as (files & Hfiles & ->).
    exists files. split_and!; [done..|]. by eapply read_file_after_listing.
  - intros e σ1 Hlist. unfold read_file. by apply bind_Raise.
  - intros text σ1 Hread. pose proof Hread as Hread'.
    unfold read_file in Hread'.
    apply bind_Return_inv in Hread' as (names & σa & Hlist & _).
    destruct (list_files_Return _ _ _ _ Hlist) as (files & Hfiles & ->).
    rewrite (read_file_after_listing _ _ _ _ _ Hlist Hfiles) in Hread.
    destruct files as [|f [|f' files]]; try done.
    unfold lift in Hread. destruct (b64decode_decode (content f)) eqn:E; [done|].
    injection Hread as -> ->. eauto.
Qed.

End ReadFile.

(** An instance: the README of the small repository. *)
Lemma read_file_exactly_one_witness :
  ∃ f, content_ (read_file Demo.b64decode_decode
                   (lit "owner/repo/README.md") Demo.self).2 = Some [f] ∧
       Demo.b64decode_decode (content f) = inr (lit "# ros1_test").
Proof.
  destruct (read_file_exactly_one Demo.b64decode_decode
              (lit "owner/repo/README.md") Demo.self) as (_ & _ & _ & H).
  apply H. vm_compute. reflexivity.
Defined.

(** ** Claims about [get_obsparams] *)

Section Obsparams.

Lemma split_cons_sep sep s : split sep (sep :: s) = [] :: split sep s.
Proof. simpl. by rewrite N.eqb_refl. Qed.

Lemma split_nonempty sep s : split sep s ≠ [].
Proof.
  induction s as [|c s IH]; simpl; [done|].
  destruct (c =? sep); [done|]. by destruct (split sep s).
Qed.

Lemma split_before_sep sep k v :
  sep ∉ k → split sep (k ++ sep :: v) = k :: split sep v.
Proof.
  induction k as [|c k IH]; intros Hk; simpl.
  - by rewrite N.eqb_refl.
  - apply not_elem_of_cons in Hk as [Hc Hk].
    destruct (N.eqb_spec c sep) as [->|_]; [done|]. by rewrite IH.
Qed.

Lemma split_no_sep sep k : sep ∉ k → split sep k = [k].
Proof.
  induction k as [|c k IH]; intros Hk; simpl; [done|].
  apply not_elem_of_cons in Hk as [Hc Hk].
  destruct (N.eqb_spec c sep) as [->|_]; [done|]. by rewrite IH.
Qed.

Lemma splitn_zero sep s : splitn sep 0 s = [s].
Proof.
  induction s as [|c s IH]; simpl; [done|].
  destruct (c =? sep); [done|]. by rewrite IH.
Qed.

Lemma splitn_before_sep sep k v :
  sep ∉ k → splitn sep 1 (k ++ sep :: v) = [k; v].
Proof.
  induction k as [|c k IH]; intros Hk; simpl.
  - by rewrite N.eqb_refl, splitn_zero.
  - apply not_elem_of_cons in Hk as [Hc Hk].
    destruct (N.eqb_spec c sep) as [->|_]; [done|]. by rewrite IH.
Qed.

Lemma splitn_no_sep sep n k : sep ∉ k → splitn sep n k = [k].
Proof.
  induction k as [|c k IH]; intros Hk; simpl; [done|].
  apply not_elem_of_cons in Hk as [Hc Hk].
  destruct (N.eqb_spec c sep) as [->|_]; [done|]. by rewrite IH.
Qed.

(** The first piece of a split is empty exactly when the text is empty or
    starts with the separator. *)
Lemma split_head_truthy sep v :
  truthy (default [] (head (split sep v)))
  = match v with [] => false | c :: _ => negb (c =? sep) end.
Proof.
  destruct v as [|c v]; simpl; [done|].
  destruct (c =? sep); [done|].
  pose proof (split_nonempty sep v). by destruct (split sep v).
Qed.

(** The loop of [get_obsparams_of] keeps, in the order of the lines, the
    key of each line that contributes. *)
Lemma get_obsparams_loop lines params :
  fold_left
    (λ params param_val_,
       match param_val_ !! 1%nat with
       | Some value =>
           if truthy value
           then match param_val_ !! 0%nat with
                | Some key => params ++ [key]
                | None => params
                end
           else params
       | None => params
       end)
    (split (chr "=") <$> lines) params
  = params ++ omap declared_key lines.
Proof.
  revert params. induction lines as [|line lines IH]; intros params; simpl.
  - by rewrite app_nil_r.
  - rewrite IH. unfold declared_key at 2.
    destruct (split (chr "=") line !! 1%nat) as [value|]; [|done].
    destruct (truthy value); [|done].
    destruct (split (chr "=") line !! 0%nat); [|done].
    by rewrite <- app_assoc.
Qed.

Lemma get_obsparams_of_lines content :
  get_obsparams_of content = omap declared_key (splitlines content).
Proof. unfold get_obsparams_of. by rewrite get_obsparams_loop. Qed.

(** A line [k=] contributes nothing. *)
Lemma declared_key_empty_value k :
  chr "=" ∉ k → declared_key (k ++ lit "=") = None.
Proof.
  intros Hk. unfold declared_key.
  change (lit "=") with (chr "=" :: []). by rewrite split_before_sep.
Qed.

(** A line without ['='] contributes nothing. *)
Lemma declared_key_no_equals line :
  chr "=" ∉ line → declared_key line = None.
Proof. intros H. unfold declared_key. by rewrite split_no_sep. Qed.

(** A line [k=v] contributes [k] exactly when [v] is not empty and does not
    start with ['='] itself. *)
Lemma declared_key_value k v :
  chr "=" ∉ k →
  declared_key (k ++ chr "=" :: v)
  = match v with
    | [] => None
    | c :: _ => if c =? chr "=" then None else Some k
    end.
Proof.
  intros Hk. unfold declared_key. rewrite split_before_sep by done. simpl.
  pose proof (split_head_truthy (chr "=") v) as Hv.
  pose proof (split_nonempty (chr "=") v).
  destruct (split (chr "=") v) as [|p ps]; [done|]. simpl in *. rewrite Hv.
  destruct v as [|c v]; [done|]. by destruct (c =? chr "=").
Qed.

(** The specification's reading of the same line: [k] whenever [v] is not
    empty. *)
Lemma declared_key_spec_value k v :
  chr "=" ∉ k →
  declared_key_spec (k ++ chr "=" :: v)
  = match v with [] => None | _ :: _ => Some k end.
Proof.
  intros Hk. unfold declared_key_spec. rewrite splitn_before_sep by done.
  by destruct v.
Qed.

Lemma declared_key_spec_no_equals line :
  chr "=" ∉ line → declared_key_spec line = None.
Proof. intros H. unfold declared_key_spec. by rewrite splitn_no_sep. Qed.

(** The documented scenario. *)
Lemma get_obsparams_scenario :
  get_obsparams_of (lit "a=1" ++ [LF] ++ lit "b=" ++ [LF] ++ lit "c=3" ++ [LF])
  = [lit "a"; lit "c"].
Proof. reflexivity. Qed.

(** C2, at the failing input: for the line [k==1] the value side ["=1"] is
    not empty, so the claim has [k] declared; the program cuts the line at
    every ['='], tests the empty piece between the two, and drops [k]. *)
Theorem get_obsparams_double_equals :
  get_obsparams_of (lit "k==1") = [] ∧
  get_obsparams_spec (lit "k==1") = [lit "k"] ∧
  (get_obsparams Demo.b64decode_decode (lit "owner/repo/bad.obs") Demo.self).1
  = Return [].
Proof. split_and!; vm_compute; reflexivity. Qed.

End Obsparams.

Section ObsparamsMethod.

Variable b64decode_decode : option str → exn + str.

(** The method applies [get_obsparams_of] to the text that is fetched. *)
Lemma get_obsparams_Return path_ σ content σ1 :
  read_file b64decode_decode path_ σ = (Return content, σ1) →
  get_obsparams b64decode_decode path_ σ
  = (Return (get_obsparams_of content), σ1).
Proof. intros H. unfold get_obsparams. by rewrite (bind_Return _ _ _ _ _ H). Qed.

End ObsparamsMethod.

(** ** Claims about [eval_param] *)

Section EvalClaims.

Variable namespace : Type.
Variable object : Type.
Variable module_from_spec : str → namespace.
Variable exec : str → namespace → namespace * option exn.
Variable eval : namespace → str → exn + object.
Variable str_ : object → exn + str.
Variable b64decode_decode : option str → exn + str.

Local Notation "'eval_param''" :=
  (eval_param namespace object module_from_spec exec eval str_).
Local Notation "'resolve''" := (resolve namespace object eval str_).
Local Notation "'eval_references''" :=
  (eval_references namespace object module_from_spec exec eval str_).
Local Notation "'params_extract_eval''" :=
  (params_extract_eval namespace object module_from_spec exec eval str_
     b64decode_decode).

(** After [exec], the call goes on exactly when the run ended without an
    exception or with one that the three [except] clauses catch. *)
Lemma eval_param_after_exec path_ content param name ns raised :
  module_name path_ = Some name →
  exec content (module_from_spec name) = (ns, raised) →
  eval_param' path_ content param =
    match raised with
    | None => resolve' ns param []
    | Some e =>
        if recoverable e then resolve' ns param [incomplete e name]
        else ([], Raise e)
    end.
Proof.
  unfold module_name, eval_param, recoverable. intros Hname Hexec.
  destruct (last_item (split (chr "/") path_)) as [filename|]; [|done].
  simpl in Hname. destruct (find_dot filename) as [start|]; [|done].
  injection Hname as <-. rewrite Hexec.
  destruct raised as [e|]; [|done].
  by destruct (caught_by ModuleNotFoundError e), (caught_by NameError e),
    (caught_by IndentationError e).
Qed.

(** A token that [resolve] returns has the arrow form. *)
Lemma resolve_arrow ns param out token :
  (resolve' ns param out).2 = Return token →
  ∃ text, token = param ++ lit " -> " ++ text.
Proof.
  unfold resolve.
  destruct (eval ns (lit "pymodule." ++ param)) as [e|value].
  - destruct (caught_by Exception e); simpl; [|done].
    intros [= <-]. eauto.
  - destruct (str_ value) as [e|text]; simpl; [done|].
    intros [= <-]. eauto.
Qed.

(** C7 (as amended): an exception of [exec] that one of the three clauses
    catches is printed and the variable is read all the same; when reading
    it raises an [Exception], the token is ["<name> -> ???"], the sentinel
    being the string ["???"]; when it gives a value, the token is
    ["<name> -> "] followed by [str] of the value; and every token the
    call returns has this arrow form. *)
Theorem eval_param_recovers path_ content param :
  (∀ token,
     (eval_param' path_ content param).2 = Return token →
     ∃ text, token = param ++ lit " -> " ++ text) ∧
  (∀ name ns e,
     module_name path_ = Some name →
     exec content (module_from_spec name) = (ns, Some e) →
     caught_by ModuleNotFoundError e = true ∨ caught_by NameError e = true
       ∨ caught_by IndentationError e = true →
     eval_param' path_ content param = resolve' ns param [incomplete e name] ∧
     head (eval_param' path_ content param).1 = Some (incomplete e name) ∧
     (∀ e', eval ns (lit "pymodule." ++ param) = inl e' →
            caught_by Exception e' = true →
            (eval_param' path_ content param).2
            = Return (param ++ lit " -> " ++ lit "???")) ∧
     (∀ value text,
        eval ns (lit "pymodule." ++ param) = inr value →
        str_ value = inr text →
        (eval_param' path_ content param).2
        = Return (param ++ lit " -> " ++ text))).
Proof.
  split.
  - intros token. unfold eval_param.
    destruct (last_item _) as [filename|]; [|done].
    destruct (find_dot filename) as [start|]; [|done].
    destruct (exec _ _) as [ns [e|]].
    + destruct (caught_by ModuleNotFoundError e); [apply resolve_arrow|].
      destruct (caught_by NameError e); [apply resolve_arrow|].
      destruct (caught_by IndentationError e); [apply resolve_arrow|done].
    + apply resolve_arrow.
  - intros name ns e Hname Hexec Hcaught.
    rewrite (eval_param_after_exec _ _ _ _ _ _ Hname Hexec).
    assert (recoverable e = true) as ->.
    { unfold recoverable. destruct Hcaught as [->| [->| ->]]; simpl;
        rewrite ?orb_true_r; done. }
    split_and!; [done| |..].
    + unfold resolve. destruct (eval ns _) as [e'|value].
      * by destruct (caught_by Exception e').
      * by destruct (str_ value).
    + intros e' He' Hc. unfold resolve. by rewrite He', Hc.
    + intros value text Hv Ht. unfold resolve. by rewrite Hv, Ht.
Qed.

Lemma static_silent {A} (r : outcome A) σ : static ([], r) σ = (r, σ).
Proof. unfold static. cbn. rewrite app_nil_r. by destruct σ. Qed.

(** The loop of the batch stops at the first reference it has to evaluate
    when [eval_param] raises without printing. *)
Lemma eval_references_raises path_ content params all_params true_params e σ :
  (∀ param, eval_param' path_ content param = ([], Raise e)) →
  Exists (λ param, param ∉ params) all_params →
  eval_references' path_ content params all_params true_params σ
  = (Raise e, σ).
Proof.
  intros Heval. induction 1 as [param all_params Hparam|param all_params _ IH];
    cbn [eval_references]; unfold contains.
  - rewrite bool_decide_eq_false_2 by done. cbn [negb].
    apply bind_Raise. rewrite Heval. apply static_silent.
  - case_bool_decide; cbn [negb]; [done|].
    apply bind_Raise. rewrite Heval. apply static_silent.
Qed.

(** C10: an exception of [exec] that none of the three clauses catches
    leaves [eval_param] as it is, before anything is printed or read, and
    with it [params_extract_eval] as soon as one reference has to be
    evaluated; the three clauses catch exactly the instances of
    [ModuleNotFoundError], [NameError] and [IndentationError], so a
    [TypeError] or a [ZeroDivisionError] is not caught. *)
Theorem eval_param_propagates path_ content name ns e :
  module_name path_ = Some name →
  exec content (module_from_spec name) = (ns, Some e) →
  (recoverable e = true ↔
     issubclass (class_of e) ModuleNotFoundError = true
     ∨ issubclass (class_of e) NameError = true
     ∨ issubclass (class_of e) IndentationError = true) ∧
  (recoverable e = true →
     ∀ param,
       eval_param' path_ content param
       = resolve' ns param [incomplete e name]) ∧
  (recoverable e = false →
     (∀ param, eval_param' path_ content param = ([], Raise e)) ∧
     (∀ trigger (already_escaped ignore_import : bool) σ text σ1
        params all_params,
        read_file b64decode_decode path_ σ = (Return text, σ1) →
        let trigger' :=
          if negb already_escaped
          then (Re.escape trigger.1, Re.escape trigger.2)
          else trigger in
        Re.findall (quoted_pattern trigger') text = Some params →
        Re.findall (any_pattern trigger') text = Some all_params →
        (if ignore_import then strip_imports text else Some text)
        = Some content →
        Exists (λ param, param ∉ params) all_params →
        params_extract_eval' trigger path_ already_escaped ignore_import σ
        = (Raise e, σ1))) ∧
  (class_of e = TypeError ∨ class_of e = ZeroDivisionError →
     recoverable e = false).
Proof.
  intros Hname Hexec.
  assert (∀ param,
    eval_param' path_ content param
    = if recoverable e then resolve' ns param [incomplete e name]
      else ([], Raise e)) as Hafter.
  { intros param.
    by rewrite (eval_param_after_exec _ _ param _ _ _ Hname Hexec). }
  split_and!.
  - unfold recoverable, caught_by. rewrite !orb_true_iff. tauto.
  - intros Hr param. by rewrite Hafter, Hr.
  - intros Hr. rewrite Hr in Hafter. split; [done|].
    intros trigger already_escaped ignore_import σ text σ1 params all_params
      Hread trigger' Hparams Hall Hcontent Hex.
    unfold params_extract_eval. fold trigger'.
    rewrite (bind_Return _ _ _ _ _ Hread), Hparams, Hall.
    unfold re at 1 2. unfold mbind at 1 2, M_bind, mret, M_ret.
    destruct ignore_import.
    + rewrite Hcontent. unfold re, mbind at 1, M_bind, mret, M_ret.
      apply bind_Raise. by apply eval_references_raises.
    + injection Hcontent as <-. unfold mbind at 1, M_bind, mret, M_ret.
      apply bind_Raise. by apply eval_references_raises.
  - unfold recoverable, caught_by. by intros [-> | ->].
Qed.

End EvalClaims.

(** An instance: [exec] ends with a [NameError] and the variable cannot be
    read. *)
Lemma eval_param_recovers_witness :
  (eval_param unit unit (λ _, ()) (Demo.exec_raises Demo.name_error)
     Demo.eval (λ _, inr []) (lit "owner/repo/script.py") Demo.script_text
     (lit "x")).2
  = Return (lit "x -> ???").
Proof.
  destruct (eval_param_recovers unit unit (λ _, ())
              (Demo.exec_raises Demo.name_error) Demo.eval (λ _, inr [])
              (lit "owner/repo/script.py") Demo.script_text (lit "x"))
    as [_ H].
  destruct (H (lit "script") () Demo.name_error) as (_ & _ & Hfail & _).
  - reflexivity.
  - reflexivity.
  - right. left. reflexivity.
  - eapply Hfail; reflexivity.
Defined.

(** C7, as stated, fails: the sentinel is not ["<unresolved>"]. *)
Lemma eval_param_sentinel_is_not_unresolved :
  (eval_param unit unit (λ _, ()) (Demo.exec_raises Demo.name_error)
     Demo.eval (λ _, inr []) (lit "owner/repo/script.py") Demo.script_text
     (lit "x")).2
  = Return (lit "x -> ???") ∧
  (eval_param unit unit (λ _, ()) (Demo.exec_raises Demo.name_error)
     Demo.eval (λ _, inr []) (lit "owner/repo/script.py") Demo.script_text
     (lit "x")).2
  ≠ Return (lit "x -> <unresolved>").
Proof. split; [reflexivity|]. vm_compute. discriminate. Qed.

(** An instance: [exec] ends with a [TypeError] while [obs[key]] has to be
    evaluated. *)
Lemma eval_param_propagates_witness :
  (params_extract_eval unit unit (λ _, ()) (Demo.exec_raises Demo.type_error)
     Demo.eval (λ _, inr []) Demo.b64decode_decode (lit "obs[", lit "]")
     (lit "owner/repo/indirect.py") false false Demo.self).1
  = Raise Demo.type_error.
Proof.
  destruct (eval_param_propagates unit unit (λ _, ())
              (Demo.exec_raises Demo.type_error) Demo.eval (λ _, inr [])
              Demo.b64decode_decode
              (lit "owner/repo/indirect.py") Demo.indirect_text
              (lit "indirect") () Demo.type_error)
    as (_ & _ & H & Hclass); [reflexivity..|].
  destruct H as [_ H]; [apply Hclass; left; reflexivity|].
  erewrite (H (lit "obs[", lit "]") false false Demo.self Demo.indirect_text
              _ [] [lit "key"]).
  - reflexivity.
  - vm_compute. reflexivity.
  - vm_compute. reflexivity.
  - vm_compute. reflexivity.
  - reflexivity.
  - left. apply not_elem_of_nil.
Defined.

(** ** Claims about [list_from_launch] *)

Section Launch.

Variable b64decode_decode : option str → exn + str.
Variable fromstring : str → exn + ET.Element.

Local Notation "'read_file''" := (read_file b64decode_decode).
Local Notation "'expand''" := (expand b64decode_decode fromstring).
Local Notation "'list_from_launch''" :=
  (list_from_launch b64decode_decode fromstring).

(** [e.iter(t)] is [e] itself, when it has the tag, and then what is below. *)
Lemma iter_self_descendants t e :
  ET.iter t e
  = (if bool_decide (ET.tag e = t) then [e] else []) ++ ET.descendants t e.
Proof.
  destruct e as [t' a c]. unfold ET.descendants. simpl. by f_equal.
Qed.

(** Without [include] elements the loop moves the elements to the nodes. *)
Lemma expand_no_include fuel user repository elements nodes σ :
  Forall (λ child, ET.tag child ≠ lit "include") elements →
  (length elements < fuel)%nat →
  expand' fuel user repository elements nodes σ
  = (Return (nodes ++ elements), σ).
Proof.
  revert elements nodes. induction fuel as [|fuel IH];
    intros elements nodes Hno Hfuel; [lia|].
  destruct elements as [|child elements]; simpl.
  - by rewrite app_nil_r.
  - apply Forall_cons in Hno as [Hchild Hno].
    rewrite bool_decide_eq_false_2 by done.
    rewrite IH by (done || simpl in Hfuel; lia).
    by rewrite <- app_assoc.
Qed.

(** The pieces of [s.split(sep, n)] before the last hold no separator. *)
Lemma splitn_head_no_sep sep n s piece pieces :
  splitn sep n s = piece :: pieces → pieces ≠ [] → sep ∉ piece.
Proof.
  revert n piece pieces. induction s as [|c s IH]; intros n piece pieces; simpl.
  - intros [= <- <-]. done.
  - destruct (N.eqb_spec c sep) as [->|Hc].
    + destruct n; intros [= <- <-]; [done|]. intros _. apply not_elem_of_nil.
    + destruct (splitn sep n s) as [|p ps] eqn:E; [intros [= <- <-]; done|].
      intros [= <- <-] Hps. apply not_elem_of_cons. split; [done|].
      by eapply IH.
Qed.

Lemma splitn_join3 sep a b c :
  sep ∉ a → sep ∉ b → splitn sep 2 (a ++ sep :: b ++ sep :: c) = [a; b; c].
Proof.
  intros Ha Hb. induction a as [|x a IH]; simpl.
  - rewrite N.eqb_refl. f_equal.
    clear Ha. induction b as [|y b IHb]; simpl.
    + by rewrite N.eqb_refl, splitn_zero.
    + apply not_elem_of_cons in Hb as [Hy Hb].
      destruct (N.eqb_spec y sep) as [->|_]; [done|]. by rewrite IHb.
  - apply not_elem_of_cons in Ha as [Hx Ha].
    destruct (N.eqb_spec x sep) as [->|_]; [done|]. by rewrite IH.
Qed.

Lemma splitn_three sep s a b c :
  splitn sep 2 s = [a; b; c] → (sep ∉ a) ∧ (sep ∉ b).
Proof.
  intros H. split; [by eapply splitn_head_no_sep|].
  revert a H. induction s as [|x s IH]; intros a; simpl; [done|].
  destruct (N.eqb_spec x sep) as [->|Hx].
  - intros [= <- H]. by eapply splitn_head_no_sep.
  - destruct (splitn sep 2 s) as [|p ps] eqn:E; [done|].
    intros [= <- ->]. by eapply IH.
Qed.

(** C6 (as amended).  A path that does not end in [.launch] gives the empty
    list and leaves the object and the remote untouched.  For a launch
    file without [include] children the result has one item per child of
    the root, in order, with the child's [type] attribute and the
    [(from, to)] pairs of the [remap] elements that [iter] finds: the
    child itself when it is a [remap] element, then those below it, in
    document order.  For a launch file whose only child is an [include],
    the file named by the attribute after its first ['/'] is fetched under
    the same owner and repository, and the result is that of its children;
    when that path ends in [.launch] this is the result of
    [list_from_launch] on the included file: whatever list that call
    returns, the call on the including file returns with one more round;
    and when the included file holds no [include] itself, the call
    returns the items of its children as soon as the rounds exceed their
    number by one. *)
Theorem list_from_launch_flattens fuel path_ path_dict σ :
  (suffix_slice 7 path_ ≠ lit ".launch" →
     list_from_launch' fuel path_ path_dict σ = (Return [], σ)) ∧
  (∀ child,
     ET.iter (lit "remap") child
     = (if bool_decide (ET.tag child = lit "remap") then [child] else [])
         ++ ET.descendants (lit "remap") child) ∧
  (∀ code σ1 user repository file_path root,
     suffix_slice 7 path_ = lit ".launch" →
     read_file' path_ σ = (Return code, σ1) →
     splitn (chr "/") 2 path_ = [user; repository; file_path] →
     fromstring code = inr root →
     (Forall (λ child, ET.tag child ≠ lit "include") (ET.children root) →
      (length (ET.children root) < fuel)%nat →
      list_from_launch' fuel path_ path_dict σ
      = (Return
           ((λ child,
               {| type := ET.get child (lit "type");
                  remap :=
                    (λ r, (ET.get r (lit "from"), ET.get r (lit "to")))
                      <$> ET.iter (lit "remap") child |})
              <$> ET.children root), σ1)) ∧
     (∀ include file before after,
        ET.children root = [include] →
        ET.tag include = lit "include" →
        ET.get include (lit "file") = Some file →
        file = before ++ chr "/" :: after →
        chr "/" ∉ before →
        let launch_path :=
          user ++ lit "/" ++ repository ++ lit "/" ++ after in
        list_from_launch' (S fuel) path_ path_dict σ
        = (code' ← read_file' launch_path;
           root' ← lift (fromstring code');
           nodes ← expand' fuel user repository (ET.children root') [];
           mret (describe <$> nodes)) σ1 ∧
        (suffix_slice 7 launch_path = lit ".launch" →
         list_from_launch' (S fuel) path_ path_dict σ
         = list_from_launch' fuel launch_path path_dict σ1) ∧
        (∀ nodes σ2,
           suffix_slice 7 launch_path = lit ".launch" →
           list_from_launch' fuel launch_path path_dict σ1
           = (Return nodes, σ2) →
           list_from_launch' (S fuel) path_ path_dict σ
           = (Return nodes, σ2)) ∧
        (∀ code' σ2 root',
           read_file' launch_path σ1 = (Return code', σ2) →
           fromstring code' = inr root' →
           Forall (λ child, ET.tag child ≠ lit "include")
             (ET.children root') →
           (length (ET.children root') < fuel)%nat →
           list_from_launch' (S fuel) path_ path_dict σ
           = (Return
                ((λ child,
                    {| type := ET.get child (lit "type");
                       remap :=
                         (λ r, (ET.get r (lit "from"), ET.get r (lit "to")))
                           <$> ET.iter (lit "remap") child |})
                   <$> ET.children root'), σ2)))).
Proof.
  split.
  { intros Hsuffix. unfold list_from_launch.
    by rewrite bool_decide_eq_true_2. }
  split; [intros child; apply iter_self_descendants|].
  intros code σ1 user repository file_path root Hsuffix Hread Hsplit Hroot.
  assert (∀ fuel',
    list_from_launch' fuel' path_ path_dict σ
    = (nodes ← expand' fuel' user repository (ET.children root) [];
       mret (describe <$> nodes)) σ1) as Hunfold.
  { intros fuel'. unfold list_from_launch.
    rewrite bool_decide_eq_false_2 by (by intros ?).
    rewrite (bind_Return _ _ _ _ _ Hread), Hsplit. simpl.
    unfold mbind at 1 2 3 4, M_bind, item, lift. simpl. by rewrite Hroot. }
  split.
  - intros Hno Hfuel. rewrite Hunfold.
    erewrite bind_Return; [|by apply expand_no_include]. done.
  - intros include file before after Hchildren Htag Hfile -> Hbefore launch_path.
    assert (list_from_launch' (S fuel) path_ path_dict σ
            = (code' ← read_file' launch_path;
               root' ← lift (fromstring code');
               nodes ← expand' fuel user repository (ET.children root') [];
               mret (describe <$> nodes)) σ1) as Hinclude.
    { rewrite Hunfold, Hchildren. simpl.
      rewrite bool_decide_eq_true_2 by done. rewrite Hfile.
      unfold mbind, M_bind, mret, M_ret. simpl.
      rewrite splitn_before_sep by done. unfold launch_path. simpl.
      destruct (read_file' _ σ1) as [[code'| | |] σ2]; try done.
      unfold lift. by destruct (fromstring code') as [e|root']. }
    assert (suffix_slice 7 launch_path = lit ".launch" →
            list_from_launch' (S fuel) path_ path_dict σ
            = list_from_launch' fuel launch_path path_dict σ1) as Hsame.
    { intros Hsuffix'.
      rewrite Hinclude. unfold list_from_launch at 1.
      rewrite bool_decide_eq_false_2 by (by intros ?).
      destruct (splitn_three _ _ _ _ _ Hsplit) as [Huser Hrepo].
      unfold mbind, M_bind, item, mret, M_ret, launch_path. simpl.
      destruct (read_file' _ σ1) as [[code'| | |] σ2]; try done.
      by rewrite splitn_join3. }
    split_and!; [done|done| |].
    + intros nodes σ2 Hsuffix' Hnodes. by rewrite Hsame.
    + intros code' σ2 root' Hread' Hroot' Hno Hfuel. rewrite Hinclude.
      rewrite (bind_Return _ _ _ _ _ Hread'), Hroot'.
      unfold mbind at 1. unfold M_bind at 1. unfold lift at 1.
      erewrite bind_Return; [|by apply expand_no_include]. done.
Qed.

End Launch.

(** An instance: [top.launch] includes [sub.launch]. *)
Lemma list_from_launch_flattens_witness :
  list_from_launch Demo.b64decode_decode Demo.fromstring 3
    (lit "owner/repo/launch/top.launch") [] Demo.self
  = (Return [ {| type := Some (lit "talker.py");
                 remap := [(Some (lit "a"), Some (lit "b"))] |} ],
     (read_file Demo.b64decode_decode (lit "owner/repo/launch/sub.launch")
        (read_file Demo.b64decode_decode
           (lit "owner/repo/launch/top.launch") Demo.self).2).2).
Proof.
  destruct (list_from_launch_flattens Demo.b64decode_decode Demo.fromstring
              2 (lit "owner/repo/launch/top.launch") [] Demo.self)
    as (_ & _ & H).
  edestruct (H Demo.top_text
               (read_file Demo.b64decode_decode
                  (lit "owner/repo/launch/top.launch") Demo.self).2
               (lit "owner") (lit "repo") (lit "launch/top.launch")
               Demo.top_root) as [_ Hinc].
  - reflexivity.
  - vm_compute. reflexivity.
  - reflexivity.
  - reflexivity.
  - edestruct (Hinc (ET.Elem (lit "include")
                       {[lit "file" := lit "$(find pkg)/launch/sub.launch"]} [])
                 (lit "$(find pkg)/launch/sub.launch")
                 (lit "$(find pkg)") (lit "launch/sub.launch"))
      as (_ & _ & _ & Hreturns).
    + reflexivity.
    + reflexivity.
    + vm_compute. reflexivity.
    + reflexivity.
    + apply (bool_decide_unpack _). vm_compute. exact I.
    + rewrite (Hreturns Demo.sub_text
                 (read_file Demo.b64decode_decode
                    (lit "owner/repo/launch/sub.launch")
                    (read_file Demo.b64decode_decode
                       (lit "owner/repo/launch/top.launch") Demo.self).2).2
                 Demo.sub_root).
      * vm_compute. reflexivity.
      * vm_compute. reflexivity.
      * reflexivity.
      * repeat constructor. discriminate.
      * simpl. lia.
Defined.

(** C6, as stated, fails: a [remap] element that is itself a child of the
    root contributes its own pair, though no [remap] element is below
    it. *)
Lemma list_from_launch_counts_the_child_itself :
  (list_from_launch Demo.b64decode_decode Demo.fromstring 3
     (lit "owner/repo/launch/flat.launch") [] Demo.self).1
  = Return [ {| type := None; remap := [(Some (lit "a"), Some (lit "b"))] |};
             {| type := Some (lit "listener.py"); remap := [] |} ] ∧
  (list_from_launch Demo.b64decode_decode Demo.fromstring 3
     (lit "owner/repo/launch/flat.launch") [] Demo.self).1
  ≠ Return
      ((λ child,
          {| type := ET.get child (lit "type");
             remap :=
               (λ r, (ET.get r (lit "from"), ET.get r (lit "to")))
                 <$> ET.descendants (lit "remap") child |})
         <$> ET.children Demo.flat_root).
Proof. split; [vm_compute; reflexivity|]. vm_compute. discriminate. Qed.

(** ** The module [re]: compiling an escaped trigger *)

Section ReCompile.

Import Re.

Lemma special_not_alnum c : is_special c = true → is_alnum c = false.
Proof.
  unfold is_special. intros H%bool_decide_eq_true.
  unfold special_chars in H. vm_compute in H.
  repeat (apply elem_of_cons in H as [->|H]; [reflexivity|]).
  by apply elem_of_nil in H.
Qed.

Lemma not_special_neq c x :
  is_special c = false → x ∈ special_chars → (c =? x) = false.
Proof.
  unfold is_special. intros H%bool_decide_eq_false Hx.
  destruct (N.eqb_spec c x) as [->|]; done.
Qed.

(** A character that [escape] leaves alone is a literal for the lexer. *)
Lemma lex_plain c s :
  is_special c = false →
  lex Plain (c :: s) = (TAtom (Lit c) ::.) <$> lex Plain s.
Proof.
  intros Hc. cbn [lex].
  rewrite !(not_special_neq c) by (done || (apply (bool_decide_unpack _); vm_compute; exact I)).
  rewrite bool_decide_eq_false_2; [done|].
  intros Hin. apply bool_decide_eq_false in Hc. apply Hc.
  vm_compute in Hin.
  repeat (apply elem_of_cons in Hin as [->|Hin];
          [apply (bool_decide_unpack _); vm_compute; exact I|]).
  by apply elem_of_nil in Hin.
Qed.

(** An escaped character is a literal for the lexer. *)
Lemma lex_escaped c s :
  is_special c = true →
  lex Plain (chr "\" :: c :: s) = (TAtom (Lit c) ::.) <$> lex Plain s.
Proof. intros Hc. cbn [lex]. by rewrite N.eqb_refl, special_not_alnum. Qed.

Lemma lex_escape t rest ts :
  lex Plain rest = Some ts →
  lex Plain (escape t ++ rest) = Some ((TAtom ∘ Lit <$> t) ++ ts).
Proof.
  intros Hrest. induction t as [|c t IH]; [done|].
  unfold escape in *. cbn [mbind list_bind]. rewrite <- app_assoc.
  destruct (is_special c) eqn:Hc; cbn [app].
  - rewrite lex_escaped by done. by rewrite IH.
  - rewrite lex_plain by done. by rewrite IH.
Qed.

Ltac decide_tests :=
  repeat match goal with
    | |- context [?a =? ?b] =>
        let v := eval vm_compute in (a =? b) in
        change (a =? b) with v; cbv iota
    | |- context [bool_decide ?P] =>
        let v := eval vm_compute in (bool_decide P) in
        change (bool_decide P) with v; cbv iota
    end.

Lemma lex_open_set s : lex Plain (chr "[" :: s) = lex (InSet []) s.
Proof. cbn [lex]. decide_tests. done. Qed.

Lemma lex_dot s : lex Plain (chr "." :: s) = (TAtom Any ::.) <$> lex Plain s.
Proof. cbn [lex]. decide_tests. done. Qed.

Lemma lex_open s : lex Plain (chr "(" :: s) = (TOpen ::.) <$> lex Plain s.
Proof. cbn [lex]. decide_tests. done. Qed.

Lemma lex_close s : lex Plain (chr ")" :: s) = (TClose ::.) <$> lex Plain s.
Proof. cbn [lex]. decide_tests. done. Qed.

Lemma lex_star s : lex Plain (chr "*" :: s) = (TStar ::.) <$> lex Plain s.
Proof. cbn [lex]. decide_tests. done. Qed.

Lemma lex_quest s : lex Plain (chr "?" :: s) = (TQuest ::.) <$> lex Plain s.
Proof. cbn [lex]. decide_tests. done. Qed.

Lemma lex_set_quote members s :
  lex (InSet members) (chr "'" :: s) = lex (InSet (members ++ [chr "'"])) s.
Proof. cbn [lex]. decide_tests. done. Qed.

Lemma lex_set_dquote members s :
  lex (InSet members) (DQUOTE :: s) = lex (InSet (members ++ [DQUOTE])) s.
Proof. cbn [lex]. decide_tests. done. Qed.

Lemma lex_set_close c members s :
  lex (InSet (c :: members)) (chr "]" :: s)
  = (TAtom (Set_ (c :: members)) ::.) <$> lex Plain s.
Proof. cbn [lex]. decide_tests. done. Qed.

Lemma lex_middle rest :
  lex Plain (middle ++ rest)
  = ([TAtom quote; TOpen; TAtom Any; TStar; TQuest; TClose;
      TAtom quote; TAtom Any; TStar; TQuest] ++.) <$> lex Plain rest.
Proof.
  change (middle ++ rest) with
    (chr "[" :: chr "'" :: DQUOTE :: chr "]" :: chr "(" :: chr "."
       :: chr "*" :: chr "?" :: chr ")" :: chr "[" :: chr "'" :: DQUOTE
       :: chr "]" :: chr "." :: chr "*" :: chr "?" :: rest).
  rewrite lex_open_set, lex_set_quote, lex_set_dquote. cbn [app].
  rewrite lex_set_close, lex_open, lex_dot, lex_star, lex_quest, lex_close.
  rewrite lex_open_set, lex_set_quote, lex_set_dquote. cbn [app].
  rewrite lex_set_close, lex_dot, lex_star, lex_quest.
  by destruct (lex Plain rest).
Qed.

Lemma lex_literal_pattern prefix suffix :
  lex Plain (literal_pattern (escape prefix, escape suffix))
  = Some ((TAtom ∘ Lit <$> prefix)
            ++ [TAtom quote; TOpen; TAtom Any; TStar; TQuest; TClose;
                TAtom quote; TAtom Any; TStar; TQuest]
            ++ (TAtom ∘ Lit <$> suffix)).
Proof.
  unfold literal_pattern. cbn [fst snd].
  apply lex_escape. rewrite lex_middle.
  rewrite <- (app_nil_r (escape suffix)).
  by rewrite (lex_escape suffix [] []), app_nil_r.
Qed.

Lemma parse_literal enc i a its n t ts :
  parse_tokens (Parser enc (Frame i a its) n) ((TAtom ∘ Lit <$> t) ++ ts)
  = parse_tokens (Parser enc (Frame i a (its ++ literal t)) n) ts.
Proof.
  revert its. induction t as [|c t IH]; intros its.
  - by rewrite app_nil_r.
  - rewrite fmap_cons.
    cbn [app parse_tokens parse_token mbind option_bind compose].
    unfold push_item. cbn [current enclosing ngroups index alts items].
    rewrite IH. unfold literal. by rewrite fmap_cons, <- app_assoc.
Qed.

Lemma map_last_snoc g i a its x :
  map_last g (Frame i a (its ++ [x]))
  = r ← g x; Some (Frame i a (its ++ [r])).
Proof.
  unfold map_last. cbn [items index alts].
  rewrite reverse_app. change (reverse [x]) with [x]. cbn [app].
  rewrite reverse_involutive. by destruct (g x).
Qed.

(** An escaped trigger compiles to [literal_tree], with one group. *)
Lemma compile_literal_pattern prefix suffix :
  compile (literal_pattern (escape prefix, escape suffix))
  = Some {| tree := literal_tree (prefix, suffix); groups := 1 |}.
Proof.
  unfold compile. rewrite lex_literal_pattern. cbn [mbind option_bind].
  rewrite parse_literal.
  cbn [parse_tokens parse_token app mbind option_bind].
  repeat (unfold push_item;
          cbn [index alts items current enclosing ngroups mbind option_bind];
          rewrite ?map_last_snoc).
  rewrite <- (app_nil_r (TAtom ∘ Lit <$> suffix)), parse_literal.
  cbn [parse_tokens mbind option_bind enclosing current ngroups].
  unfold close, literal_tree. cbn [alts items app alt_of fst snd].
  by rewrite <- !app_assoc.
Qed.

End ReCompile.

(** ** The module [re]: matching *)

Section ReMatch.

Import Re.

Lemma elem_of_star_lazy a s e :
  e ∈ star_lazy a s ↔ ∃ g, s = g ++ e ∧ Forall (λ c, matches a c = true) g.
Proof.
  revert e. induction s as [|c s IH]; intros e; cbn [star_lazy].
  - rewrite list_elem_of_singleton. split.
    + intros ->. by exists [].
    + intros (g & Hg & _). symmetry in Hg. by apply app_eq_nil in Hg as [_ ->].
  - rewrite elem_of_cons. split.
    + intros [->|He]; [by exists []|].
      destruct (matches a c) eqn:Hc; [|by apply elem_of_nil in He].
      apply IH in He as (g & -> & Hg). exists (c :: g). split; [done|].
      by constructor.
    + intros ([|c' g] & Hs & Hg); [left; by simplify_eq/=|right].
      simplify_eq/=. apply Forall_cons in Hg as [-> Hg]. apply IH. eauto.
Qed.

Lemma elem_of_star_greedy a s e :
  e ∈ star_greedy a s ↔ e ∈ star_lazy a s.
Proof.
  revert e. induction s as [|c s IH]; intros e; cbn [star_greedy star_lazy].
  - done.
  - rewrite elem_of_app, !elem_of_cons.
    destruct (matches a c); rewrite ?IH, ?elem_of_nil; tauto.
Qed.

Lemma consume_suffix n a s s' : consume n a s = Some s' → s' `suffix_of` s.
Proof.
  revert s. induction n as [|n IH]; intros s; cbn [consume].
  - by intros [= ->].
  - destruct s as [|c s]; [done|]. destruct (matches a c); [|done].
    intros H%IH. by apply suffix_cons_r.
Qed.

(** What remains after a match is the end of the text. *)
Lemma run_suffix r s caps e c :
  (e, c) ∈ run r s caps → e `suffix_of` s.
Proof.
  revert s caps e c.
  induction r as [a|lazy a|n a|i r IH| |r1 IH1 r2 IH2|r1 IH1 r2 IH2];
    intros s caps e c; cbn [run].
  - destruct s as [|ch s]; [by intros ?%elem_of_nil|].
    destruct (matches a ch); [|by intros ?%elem_of_nil].
    intros [= -> ->]%list_elem_of_singleton. by apply suffix_cons_r.
  - intros (e' & [= -> ->] & He)%list_elem_of_fmap.
    assert (e' ∈ star_lazy a s) as (g & -> & _)%elem_of_star_lazy.
    { destruct lazy; [done|]. by apply elem_of_star_greedy. }
    by apply suffix_app_r.
  - destruct (consume n a s) as [s'|] eqn:E; [|by intros ?%elem_of_nil].
    intros [= -> ->]%list_elem_of_singleton. by eapply consume_suffix.
  - intros ([e' c'] & [= -> ->] & He)%list_elem_of_fmap. by eapply IH.
  - by intros [= -> ->]%list_elem_of_singleton.
  - intros ([s' c'] & He & Hs)%list_elem_of_bind.
    etrans; [by eapply IH2|by eapply IH1].
  - intros [He|He]%elem_of_app; [by eapply IH1|by eapply IH2].
Qed.

Lemma match_here_Some r s must_advance e c :
  match_here r s must_advance = Some (e, c) →
  (e, c) ∈ run r s ∅ ∧ ¬ (must_advance = true ∧ length e = length s).
Proof.
  unfold match_here. intros H%head_Some_elem_of.
  by apply list_elem_of_filter in H as [? ?].
Qed.

(** Without [must_advance], the first match is the first way to match. *)
Lemma match_here_head r s : match_here r s false = head (run r s ∅).
Proof.
  unfold match_here. f_equal.
  induction (run r s ∅) as [|[e c] l IH]; [done|].
  rewrite filter_cons_True by (by intros [? _]). by f_equal.
Qed.

Lemma search_Some r s must_advance start e c :
  search r s must_advance = Some (start, e, c) →
  start `suffix_of` s ∧ (e, c) ∈ run r start ∅ ∧
  (must_advance = true → length start = length s → length e ≠ length start).
Proof.
  revert must_advance. induction s as [|ch s IH]; intros must_advance;
    cbn [search].
  - destruct (match_here r [] must_advance) as [[e' c']|] eqn:E; [|done].
    intros [= <- <- <-]. apply match_here_Some in E as [Hin Hadv].
    split_and!; [done..|]. intros Hm _ Hlen. apply Hadv. by split.
  - destruct (match_here r (ch :: s) must_advance) as [[e' c']|] eqn:E.
    + intros [= <- <- <-]. apply match_here_Some in E as [Hin Hadv].
      split_and!; [done..|]. intros Hm _ Hlen. apply Hadv. by split.
    + intros H. apply IH in H as (Hsuf & Hrun & _).
      split_and!; [by apply suffix_cons_r|done|].
      intros _ Hlen. apply suffix_length in Hsuf. simpl in Hlen. lia.
Qed.

Lemma findall_loop_S fuel p s must_advance :
  findall_loop (S fuel) p s must_advance
  = match search (tree p) s must_advance with
    | None => Some []
    | Some (start, rest, caps) =>
        (matched p start rest caps ::.)
          <$> findall_loop fuel p rest
                (bool_decide (length rest = length start))
    end.
Proof. done. Qed.

(** Two rounds of the loop of [findall] consume a character: the fuel
    [2 * length s + 2] is never used up. *)
Lemma findall_loop_fuel fuel p s (must_advance : bool) :
  (2 * length s + (if must_advance then 0 else 1) < fuel)%nat →
  is_Some (findall_loop fuel p s must_advance).
Proof.
  revert s must_advance. induction fuel as [|fuel IH]; intros s must_advance Hfuel;
    [lia|].
  cbn [findall_loop].
  destruct (search (tree p) s must_advance) as [[[start e] c]|] eqn:E; [|done].
  apply search_Some in E as (Hstart & Hrun & Hadv).
  apply run_suffix in Hrun. apply suffix_length in Hstart, Hrun.
  destruct (IH e (bool_decide (length e = length start))) as [ms ->]; [|done].
  case_bool_decide as Hlen; [|lia].
  destruct (decide (length start = length s)) as [Heq|]; [|lia].
  destruct must_advance; [|lia]. by destruct Hadv.
Qed.


(** Each item that [findall] returns comes from a match somewhere in the
    text. *)
Lemma findall_loop_sound fuel p s must_advance ms x :
  findall_loop fuel p s must_advance = Some ms → x ∈ ms →
  ∃ start e c,
    start `suffix_of` s ∧ (e, c) ∈ run (tree p) start ∅ ∧
    x = matched p start e c.
Proof.
  revert s must_advance ms. induction fuel as [|fuel IH];
    intros s must_advance ms; cbn [findall_loop]; [done|].
  destruct (search (tree p) s must_advance) as [[[start e] c]|] eqn:E.
  - destruct (findall_loop fuel p e _) as [ms'|] eqn:E'; [|done].
    intros [= <-]. apply search_Some in E as (Hstart & Hrun & _).
    intros [->|Hx]%elem_of_cons; [by eauto 6|].
    destruct (IH _ _ _ E' Hx) as (start' & e' & c' & Hsuf & ? & ?).
    exists start', e', c'. split_and!; [|done..].
    etrans; [done|]. etrans; [by eapply run_suffix|done].
  - intros [= <-]. by intros ?%elem_of_nil.
Qed.

End ReMatch.

(** ** Matching the pattern of a raw trigger *)

Section Literal.

Import Re.

Lemma run_Seq_Atom a r s caps :
  run (Seq (Atom a) r) s caps
  = match s with
    | ch :: s' => if matches a ch then run r s' caps else []
    | [] => []
    end.
Proof.
  cbn [run]. destruct s as [|ch s]; [done|].
  destruct (matches a ch); [|done]. cbn. by rewrite app_nil_r.
Qed.

Lemma seq_of_literal_cons ch t rs :
  seq_of (literal (ch :: t) ++ rs)
  = Seq (Atom (Lit ch)) (seq_of (literal t ++ rs)).
Proof. done. Qed.

(** The literal part of a pattern matches itself... *)
Lemma run_literal_app t rs s caps :
  run (seq_of (literal t ++ rs)) (t ++ s) caps = run (seq_of rs) s caps.
Proof.
  induction t as [|ch t IH]; [done|].
  rewrite seq_of_literal_cons, run_Seq_Atom. cbn [app matches].
  by rewrite N.eqb_refl.
Qed.

(** ... and nothing else. *)
Lemma run_literal_elem t rs s caps e c :
  (e, c) ∈ run (seq_of (literal t ++ rs)) s caps →
  ∃ s', s = t ++ s' ∧ (e, c) ∈ run (seq_of rs) s' caps.
Proof.
  revert s. induction t as [|ch t IH]; intros s; [by eauto|].
  rewrite seq_of_literal_cons, run_Seq_Atom.
  destruct s as [|ch' s]; [by intros ?%elem_of_nil|]. cbn [matches].
  destruct (N.eqb_spec ch' ch) as [->|]; [|by intros ?%elem_of_nil].
  intros (s' & -> & ?)%IH. by exists s'.
Qed.

Lemma run_literal_end t s caps e c :
  (e, c) ∈ run (seq_of (literal t)) s caps → s = t ++ e ∧ c = caps.
Proof.
  rewrite <- (app_nil_r (literal t)).
  intros (s' & -> & [= -> ->]%list_elem_of_singleton)%run_literal_elem. done.
Qed.

(** A group around a single repetition: one candidate per text that the
    repetition may leave, with what was consumed as the capture. *)
Lemma run_group_star i lazy a r s caps :
  run (Seq (Group i (Seq (Star lazy a) Empty)) r) s caps
  = (if lazy then star_lazy a s else star_greedy a s)
      ≫= λ s', run r s' (<[i := take (length s - length s') s]> caps).
Proof.
  cbn [run]. generalize (if lazy then star_lazy a s else star_greedy a s).
  intros l. induction l as [|x l IH]; [done|].
  cbn in *. by rewrite IH.
Qed.

Lemma take_consumed (x y : str) : take (length (x ++ y) - length y) (x ++ y) = x.
Proof.
  rewrite length_app. replace (_ + _ - _)%nat with (length x) by lia.
  by rewrite take_app_length.
Qed.

Lemma matches_Any_LF g :
  Forall (λ ch, matches Any ch = true) g ↔ LF ∉ g.
Proof.
  induction g as [|ch g IH].
  - split; [intros _; apply not_elem_of_nil|constructor].
  - rewrite Forall_cons, not_elem_of_cons, IH. cbn [matches].
    destruct (N.eqb_spec ch LF); cbn [negb]; intuition congruence.
Qed.

(** Every way to match the pattern of a raw trigger reads the prefix, a
    quote, the name, a quote, a gap and the suffix, with no newline in the
    name or the gap; the name is the capture. *)
Lemma run_literal_tree_sound prefix suffix s e c :
  (e, c) ∈ run (literal_tree (prefix, suffix)) s ∅ →
  ∃ q x q' gap,
    s = prefix ++ q :: x ++ q' :: gap ++ suffix ++ e ∧
    c !! 1%nat = Some x ∧
    matches quote q = true ∧ matches quote q' = true ∧
    (LF ∉ x) ∧ (LF ∉ gap).
Proof.
  unfold literal_tree. cbn [fst snd].
  intros (s1 & -> & H)%run_literal_elem. revert H.
  cbn [seq_of foldr app]. rewrite run_Seq_Atom.
  destruct s1 as [|q s2]; [by intros ?%elem_of_nil|].
  destruct (matches quote q) eqn:Hq; [|by intros ?%elem_of_nil].
  rewrite run_group_star.
  intros (s4 & H & (x & -> & Hx)%elem_of_star_lazy)%list_elem_of_bind.
  revert H. rewrite run_Seq_Atom.
  destruct s4 as [|q' s5]; [by intros ?%elem_of_nil|].
  destruct (matches quote q') eqn:Hq'; [|by intros ?%elem_of_nil].
  cbn [run].
  intros ([s6 c6] & H & (s6' & [= <- ->] & (gap & -> & Hgap)%elem_of_star_lazy)
            %list_elem_of_fmap)%list_elem_of_bind.
  apply run_literal_end in H as [-> ->].
  exists q, x, q', gap. split_and!; [done| |done|done|..].
  - rewrite lookup_insert_eq. f_equal. apply take_consumed.
  - by apply matches_Any_LF.
  - by apply matches_Any_LF.
Qed.

(** Candidates that lead nowhere are passed over. *)
Lemma bind_star_lazy_skip {X} a name x (K : str → list X) :
  Forall (λ ch, matches a ch = true) name →
  (∀ ch suf, ch :: suf `suffix_of` name → K (ch :: suf ++ x) = []) →
  star_lazy a (name ++ x) ≫= K = star_lazy a x ≫= K.
Proof.
  induction name as [|ch name IH]; intros Hname HK; [done|].
  apply Forall_cons in Hname as [Hch Hname].
  cbn [app star_lazy]. rewrite Hch. cbn [mbind list_bind].
  rewrite (HK ch name) by done. cbn [app]. apply IH; [done|].
  intros ch' suf Hsuf. apply HK. by apply suffix_cons_r.
Qed.

(** The first way to match a reference that starts the text: its capture
    is the quoted name, whatever the two quotes are. *)
Lemma run_literal_tree_first prefix suffix q name q' gap post :
  matches quote q = true → matches quote q' = true →
  Forall (λ ch, matches quote ch = false ∧ ch ≠ LF) name →
  LF ∉ gap →
  ∃ e c,
    head (run (literal_tree (prefix, suffix))
            (prefix ++ q :: name ++ q' :: gap ++ suffix ++ post) ∅)
    = Some (e, c) ∧
    c !! 1%nat = Some name.
Proof.
  intros Hq Hq' Hname Hgap. unfold literal_tree. cbn [fst snd].
  rewrite run_literal_app. cbn [seq_of foldr app].
  rewrite run_Seq_Atom, Hq, run_group_star.
  set (tail := gap ++ suffix ++ post).
  set (R3 := Seq (Star true Any) (foldr Seq Empty (literal suffix))).
  rewrite bind_star_lazy_skip; cycle 1.
  { apply matches_Any_LF. intros Hin.
    eapply Forall_forall in Hname as [_ ?]; done. }
  { intros ch suf Hsuf. rewrite run_Seq_Atom.
    assert (ch ∈ name) as Hch.
    { destruct Hsuf as [k ->]. set_solver. }
    eapply Forall_forall in Hname as [-> _]; done. }
  cbn [star_lazy mbind list_bind]. rewrite run_Seq_Atom, Hq'.
  set (capsN := <[1%nat := take _ _]> ∅).
  assert (capsN !! 1%nat = Some name) as HcapsN.
  { unfold capsN. rewrite lookup_insert_eq. f_equal. apply take_consumed. }
  assert ((post, capsN) ∈ run R3 tail capsN) as Hin.
  { unfold R3. cbn [run]. apply list_elem_of_bind.
    exists (suffix ++ post, capsN). split.
    - rewrite <- (app_nil_r (literal suffix)), run_literal_app. cbn.
      apply list_elem_of_singleton. done.
    - apply list_elem_of_fmap. exists (suffix ++ post). split; [done|].
      apply elem_of_star_lazy. exists gap. split; [done|].
      by apply matches_Any_LF. }
  destruct (run R3 tail capsN) as [|[e c] l] eqn:E; [by apply elem_of_nil in Hin|].
  exists e, c. split; [done|].
  assert ((e, c) ∈ run R3 tail capsN) as He by (rewrite E; left).
  unfold R3 in He. cbn [run] in He.
  apply list_elem_of_bind in He
    as ([s6 c6] & He & (s6' & [= <- ->] & _)%list_elem_of_fmap).
  apply run_literal_end in He as [_ ->]. done.
Qed.

End Literal.

(** ** Claims about [params_extract] *)

Section Sorted.

Lemma sorted_Sorted l : Sorted str_le (sorted l).
Proof. apply (Sorted_merge_sort _). Qed.

Lemma elem_of_sorted x l : x ∈ sorted l ↔ x ∈ l.
Proof. unfold sorted. by rewrite merge_sort_Permutation. Qed.

Lemma NoDup_sorted l : NoDup l → NoDup (sorted l).
Proof. unfold sorted. by rewrite merge_sort_Permutation. Qed.

Lemma NoDup_list_set l : NoDup (list_set l).
Proof. unfold list_set. apply NoDup_elements. Qed.

Lemma elem_of_list_set x l : x ∈ list_set l ↔ x ∈ l.
Proof. unfold list_set. by rewrite elem_of_elements, elem_of_list_to_set. Qed.

Lemma sorted_list_set_nil : sorted (list_set []) = [].
Proof. unfold list_set. rewrite list_to_set_nil, elements_empty. done. Qed.

End Sorted.

Section Extract.

Variable b64decode_decode : option str → exn + str.

Lemma params_extract_of_findall trigger content already_escaped :
  params_extract_of trigger content already_escaped
  = ms ← Re.findall (pattern_of trigger already_escaped) content;
    Some (sorted (list_set ms)).
Proof. done. Qed.

(** For a raw trigger [findall] runs the loop on [literal_tree]. *)
Lemma findall_raw trigger content :
  Re.findall (pattern_of trigger false) content
  = Re.findall_loop (2 * length content + 2)
      {| Re.tree := literal_tree trigger; Re.groups := 1 |} content false.
Proof.
  unfold Re.findall, pattern_of. cbn [negb].
  rewrite compile_literal_pattern. cbn [mbind option_bind Re.groups].
  by destruct trigger.
Qed.

Lemma findall_raw_total trigger content :
  is_Some (Re.findall (pattern_of trigger false) content).
Proof. rewrite findall_raw. apply findall_loop_fuel. lia. Qed.

(** The method applies [params_extract_of] to the text that is fetched. *)
Lemma params_extract_Return trigger path_ already_escaped σ content σ1 l :
  read_file b64decode_decode path_ σ = (Return content, σ1) →
  params_extract_of trigger content already_escaped = Some l →
  params_extract b64decode_decode trigger path_ already_escaped σ
  = (Return l, σ1).
Proof.
  intros Hread Hl. unfold params_extract.
  rewrite (bind_Return _ _ _ _ _ Hread). by rewrite Hl.
Qed.

(** C3: with a raw trigger, literal-mode extraction returns a list for
    every content, and the same list when the trigger is handed over
    already escaped; whenever it returns, the list is sorted ascending,
    has no duplicates and holds exactly the names that [findall] matched,
    so it is empty when nothing matches; the method returns that list for
    the text it fetches; and the documented scenario gives
    [["bar"; "foo"]]. *)
Theorem params_extract_sorted_set trigger content :
  is_Some (params_extract_of trigger content false) ∧
  params_extract_of (Re.escape trigger.1, Re.escape trigger.2) content true
  = params_extract_of trigger content false ∧
  (∀ already_escaped l,
     params_extract_of trigger content already_escaped = Some l →
     Sorted str_le l ∧ NoDup l ∧
     ∃ ms, Re.findall (pattern_of trigger already_escaped) content = Some ms ∧
           (∀ x, x ∈ l ↔ x ∈ ms) ∧ (ms = [] → l = [])) ∧
  (∀ path_ σ σ1,
     read_file b64decode_decode path_ σ = (Return content, σ1) →
     ∃ l, params_extract b64decode_decode trigger path_ false σ
          = (Return l, σ1) ∧
          params_extract_of trigger content false = Some l) ∧
  params_extract_of (lit "obs[", lit "]")
    (lit "x = obs['foo']" ++ [LF] ++ lit "y = obs['bar']") false
  = Some [lit "bar"; lit "foo"].
Proof.
  assert (is_Some (params_extract_of trigger content false)) as Hsome.
  { rewrite params_extract_of_findall.
    by destruct (findall_raw_total trigger content) as [ms ->]. }
  split_and!.
  - done.
  - done.
  - intros already_escaped l. rewrite params_extract_of_findall.
    destruct (Re.findall _ content) as [ms|]; [|done].
    intros [= <-]. split_and!.
    + apply sorted_Sorted.
    + apply NoDup_sorted, NoDup_list_set.
    + exists ms. split_and!; [done| |].
      * intros x. by rewrite elem_of_sorted, elem_of_list_set.
      * intros ->. apply sorted_list_set_nil.
  - intros path_ σ σ1 Hread. destruct Hsome as [l Hl]. exists l.
    split; [|done]. by eapply params_extract_Return.
  - vm_compute. reflexivity.
Qed.

(** C4 (as amended): [.] matches every character but a newline.  A name
    that literal-mode extraction returns stands in the content after the
    prefix and a quote and before a quote, a gap and the suffix, and
    neither the name nor the gap holds a newline; a reference that opens
    the content, with a name free of quotes and newlines and the suffix on
    the same line, is extracted; and when a newline separates the quoted
    name from the suffix, as in [obs['foo'] + newline + []]], no name is
    extracted. *)
Theorem params_extract_same_line :
  (∀ trigger content l x,
     params_extract_of trigger content false = Some l → x ∈ l →
     ∃ before q q' gap after,
       content = before ++ trigger.1 ++ q :: x ++ q' :: gap
                        ++ trigger.2 ++ after ∧
       Re.matches quote q = true ∧ Re.matches quote q' = true ∧
       (LF ∉ x) ∧ (LF ∉ gap)) ∧
  (∀ prefix suffix q name q' gap after,
     Re.matches quote q = true → Re.matches quote q' = true →
     Forall (λ ch, Re.matches quote ch = false ∧ ch ≠ LF) name →
     LF ∉ gap →
     ∃ l, params_extract_of (prefix, suffix)
            (prefix ++ q :: name ++ q' :: gap ++ suffix ++ after) false
          = Some l ∧ name ∈ l) ∧
  params_extract_of (lit "obs[", lit "]") (lit "obs['foo'" ++ [LF] ++ lit "]")
    false
  = Some [].
Proof.
  split_and!.
  - intros trigger content l x. rewrite params_extract_of_findall, findall_raw.
    destruct (Re.findall_loop _ _ content false) as [ms|] eqn:E; [|done].
    intros [= <-]. rewrite elem_of_sorted, elem_of_list_set. intros Hx.
    destruct (findall_loop_sound _ _ _ _ _ _ E Hx)
      as (start & e & c & [before ->] & Hrun & ->).
    destruct trigger as [prefix suffix].
    apply run_literal_tree_sound in Hrun
      as (q & name & q' & gap & -> & Hc & Hq & Hq' & Hname & Hgap).
    exists before, q, q', gap, e. unfold Re.matched. cbn [Re.groups].
    rewrite Hc. done.
  - intros prefix suffix q name q' gap after Hq Hq' Hname Hgap.
    rewrite params_extract_of_findall, findall_raw.
    destruct (run_literal_tree_first prefix suffix q name q' gap after
                Hq Hq' Hname Hgap) as (e & c & Hhead & Hc).
    set (content := prefix ++ _) in *.
    replace (2 * length content + 2)%nat with (S (S (2 * length content)))
      by lia.
    rewrite findall_loop_S. cbn [Re.tree].
    assert (Re.search (literal_tree (prefix, suffix)) content false
            = Some (content, e, c)) as ->.
    { destruct content; cbn [Re.search];
        by rewrite match_here_head, Hhead. }
    destruct (findall_loop_fuel (S (2 * length content))
                {| Re.tree := literal_tree (prefix, suffix); Re.groups := 1 |}
                e (bool_decide (length e = length content))) as [ms Hms].
    { apply head_Some_elem_of, run_suffix, suffix_length in Hhead.
      case_bool_decide; lia. }
    rewrite Hms. eexists. split; [done|].
    rewrite elem_of_sorted, elem_of_list_set. unfold Re.matched.
    cbn [Re.groups]. rewrite Hc. left.
  - vm_compute. reflexivity.
Qed.

End Extract.

(** An instance: the script of the small repository. *)
Lemma params_extract_sorted_set_witness :
  Sorted str_le [lit "bar"; lit "foo"] ∧ NoDup [lit "bar"; lit "foo"].
Proof.
  destruct (params_extract_sorted_set Demo.b64decode_decode
              (lit "obs[", lit "]") Demo.script_text) as (_ & _ & H & _).
  destruct (H false [lit "bar"; lit "foo"]) as (Hs & Hn & _).
  - vm_compute. reflexivity.
  - split; [exact Hs|exact Hn].
Defined.

(** An instance: the reference [obs['foo']]. *)
Lemma params_extract_same_line_witness :
  ∃ l, params_extract_of (lit "obs[", lit "]") (lit "obs['foo']") false
       = Some l ∧ lit "foo" ∈ l.
Proof.
  destruct params_extract_same_line as (_ & H & _).
  apply (H (lit "obs[") (lit "]") (chr "'") (lit "foo") (chr "'") [] []).
  - reflexivity.
  - reflexivity.
  - repeat constructor; discriminate.
  - apply not_elem_of_nil.
Defined.

(** C4, as stated, fails: with a newline between the quoted name and the
    suffix, the name is not extracted. *)
Lemma params_extract_stops_at_newline :
  params_extract_of (lit "obs[", lit "]") (lit "obs['foo'" ++ [LF] ++ lit "]")
    false
  = Some [] ∧
  lit "foo" ∉ default [] (params_extract_of (lit "obs[", lit "]")
                            (lit "obs['foo'" ++ [LF] ++ lit "]") false).
Proof.
  assert (params_extract_of (lit "obs[", lit "]")
            (lit "obs['foo'" ++ [LF] ++ lit "]") false = Some []) as E
    by (vm_compute; reflexivity).
  split; [exact E|]. rewrite E. apply not_elem_of_nil.
Qed.

(** C9: the two quotes of a reference are matched independently: with
    mismatched quotes the name is extracted just as with matching ones. *)
Theorem params_extract_mismatched_quotes :
  params_extract_of (lit "obs[", lit "]")
    (lit "obs[" ++ [DQUOTE] ++ lit "foo']") false
  = Some [lit "foo"] ∧
  params_extract_of (lit "obs[", lit "]")
    (lit "obs['foo" ++ [DQUOTE] ++ lit "]") false
  = Some [lit "foo"] ∧
  params_extract_of (lit "obs[", lit "]") (lit "obs['foo']") false
  = Some [lit "foo"] ∧
  params_extract_of (lit "obs[", lit "]")
    (lit "obs[" ++ [DQUOTE] ++ lit "foo" ++ [DQUOTE] ++ lit "]") false
  = Some [lit "foo"].
Proof. split_and!; vm_compute; reflexivity. Qed.
(** ** More about [diff] *)

Section DiffMore.

Implicit Types declared used : list str.

(** X1: Every declared name is reported once per declaration: the ['used']
    and ['not_used'] lists together are a rearrangement of the declared
    list, so their lengths add up to its length. *)
Theorem diff_accounts_for_declared declared used :
  let ret := diff declared used in
  ret !!! lit "used" ++ ret !!! lit "not_used" ≡ₚ declared ∧
  (length (ret !!! lit "used") + length (ret !!! lit "not_used")
   = length declared)%nat.
Proof.
  intros ret. subst ret.
  rewrite !lookup_total_alt, diff_used, diff_not_used. simpl.
  assert (filter (λ p, p ∈ used) declared ++ filter (λ p, p ∉ used) declared
          ≡ₚ declared) as Hperm by apply filter_app_complement.
  split; [done|]. by rewrite <- length_app, Hperm.
Qed.

(** X2: The report is clean -- nothing unused, nothing undeclared -- exactly
    when the two lists hold the same names; the ['used'] list is then the
    declared list itself. *)
Theorem diff_clean_iff_same_names declared used :
  let ret := diff declared used in
  (ret !!! lit "not_used" = [] ∧ ret !!! lit "not_declared" = []
   ↔ ∀ x, x ∈ declared ↔ x ∈ used) ∧
  (ret !!! lit "not_used" = [] → ret !!! lit "used" = declared).
Proof.
  intros ret. subst ret.
  rewrite !lookup_total_alt, diff_used, diff_not_used, diff_not_declared.
  simpl. split.
  - split.
    + intros [Hn Hd] x. split; intros Hx.
      * destruct (decide (x ∈ used)) as [|Hno]; [done|].
        by destruct (filter_nil_not_elem_of _ _ x Hn Hno).
      * destruct (decide (x ∈ declared)) as [|Hno]; [done|].
        by destruct (filter_nil_not_elem_of _ _ x Hd Hno).
    + intros Hsame. split.
      * apply elem_of_nil_inv. intros x [Hno Hx]%list_elem_of_filter.
        apply Hno. by apply Hsame.
      * apply elem_of_nil_inv. intros x [Hno Hx]%list_elem_of_filter.
        apply Hno. by apply Hsame.
  - intros Hn. induction declared as [|p l IH]; [done|].
    destruct (decide (p ∈ used)) as [Hp|Hp].
    + rewrite filter_cons_True by done.
      rewrite filter_cons_False in Hn by tauto. f_equal. by apply IH.
    + by rewrite filter_cons_True in Hn.
Qed.

(** X3: Swapping the arguments swaps the two difference lists: what
    [diff(declared, used)] reports as not declared is, element for
    element, what [diff(used, declared)] reports as not used; and a name is
    in the ['used'] list of the one exactly when it is in that of the
    other. *)
Theorem diff_swap declared used :
  diff used declared !!! lit "not_used"
  = diff declared used !!! lit "not_declared" ∧
  diff used declared !!! lit "not_declared"
  = diff declared used !!! lit "not_used" ∧
  (∀ x, x ∈ diff used declared !!! lit "used"
        ↔ x ∈ diff declared used !!! lit "used").
Proof.
  rewrite !lookup_total_alt, !diff_used, !diff_not_used, !diff_not_declared.
  simpl. split_and!; [done..|].
  intros x. rewrite !list_elem_of_filter. tauto.
Qed.

End DiffMore.

(** An instance: the same names in another order. *)
Lemma diff_clean_iff_same_names_witness :
  diff [lit "a"; lit "b"] [lit "b"; lit "a"] !!! lit "used"
  = [lit "a"; lit "b"].
Proof.
  destruct (diff_clean_iff_same_names [lit "a"; lit "b"] [lit "b"; lit "a"])
    as [_ H].
  apply H. vm_compute. reflexivity.
Defined.
(** ** More about [list_files] and [get_file_dict] *)

Section Listing.

Lemma listed_nil f : ¬ listed f [].
Proof. inversion 1 as [? Hin|? ? ? Hin]; by apply elem_of_nil in Hin. Qed.

Lemma listed_app f l1 l2 : listed f (l1 ++ l2) ↔ listed f l1 ∨ listed f l2.
Proof.
  split.
  - inversion 1 as [? Hin Ht|? d below Hin Ht He Hb]; subst;
      apply elem_of_app in Hin as [Hin|Hin];
      eauto using listed_here, listed_below.
  - intros [H|H]; inversion H as [? Hin Ht|? d below Hin Ht He Hb]; subst.
    + apply listed_here; [|done]. apply elem_of_app. by left.
    + eapply listed_below; [|done..]. apply elem_of_app. by left.
    + apply listed_here; [|done]. apply elem_of_app. by right.
    + eapply listed_below; [|done..]. apply elem_of_app. by right.
Qed.

Lemma listed_cons_file f f0 rest :
  type_ f0 ≠ lit "dir" → listed f (f0 :: rest) ↔ f = f0 ∨ listed f rest.
Proof.
  intros Hf0. split.
  - inversion 1 as [? Hin Ht|? d below Hin Ht He Hb]; subst;
      apply elem_of_cons in Hin as [->|Hin];
      eauto using listed_here, listed_below. done.
  - intros [->|H].
    + apply listed_here; [left|done].
    + change (f0 :: rest) with ([f0] ++ rest). apply listed_app. by right.
Qed.

Lemma listed_cons_dir f d below rest :
  type_ d = lit "dir" → entries d = inr below →
  listed f (d :: rest) ↔ listed f rest ∨ listed f below.
Proof.
  intros Hd He. split.
  - inversion 1 as [? Hin Ht|? d' below' Hin Ht He' Hb]; subst;
      apply elem_of_cons in Hin as [->|Hin];
      eauto using listed_here, listed_below.
    + done.
    + right. congruence.
  - intros [H|H].
    + change (d :: rest) with ([d] ++ rest). apply listed_app. by right.
    + eapply listed_below; [left|done..].
Qed.


(** The loop appends to [self.__content] the files that the listing
    reaches. *)
Lemma list_files_loop_listed fuel full_name contents σ σ1 files :
  list_files_loop fuel full_name contents σ = (Return (), σ1) →
  content_ σ = Some files →
  ∃ new, content_ σ1 = Some (files ++ new) ∧
         ∀ f, f ∈ new ↔ listed f contents.
Proof.
  revert contents σ files. induction fuel as [|fuel IH];
    intros contents σ files; [done|].
  destruct contents as [|f0 contents]; cbn [list_files_loop].
  - intros [= <-] Hfiles. exists []. rewrite app_nil_r. split; [done|].
    intros f. split; [by intros ?%elem_of_nil|by intros ?%listed_nil].
  - case_bool_decide as Hdir.
    + intros (below & σa & Hask & Hloop)%bind_Return_inv Hfiles.
      unfold ask, lift in Hask.
      destruct (entries f0) as [e|below'] eqn:He; [done|].
      injection Hask as -> <-.
      destruct (IH _ _ files Hloop) as (new & Hnew & Hin); [done|].
      exists new. split; [done|]. intros f. rewrite Hin, listed_app.
      by rewrite (listed_cons_dir f f0 below).
    + intros (files' & σa & Hget & H)%bind_Return_inv Hfiles.
      unfold get_content in Hget. rewrite Hfiles in Hget.
      injection Hget as <- <-.
      apply bind_Return_inv in H as ([] & σb & Hset & Hloop).
      injection Hset as <-.
      destruct (IH _ _ (files ++ [f0]) Hloop) as (new & Hnew & Hin);
        [done|].
      exists (f0 :: new). split.
      * rewrite Hnew. f_equal. by rewrite <- app_assoc.
      * intros f. rewrite elem_of_cons, Hin. by rewrite listed_cons_file.
Qed.

(** The pieces of a path with a ['/']. *)
Lemma splitn_at_sep sep n a rest :
  sep ∉ a → splitn sep (S n) (a ++ sep :: rest) = a :: splitn sep n rest.
Proof.
  induction a as [|c a IH]; intros Ha; simpl.
  - by rewrite N.eqb_refl.
  - apply not_elem_of_cons in Ha as [Hc Ha].
    destruct (N.eqb_spec c sep) as [->|_]; [done|]. by rewrite IH.
Qed.

(** The pieces of a path cut at its first two ['/']. *)
Lemma splitn_2_cases sep s :
  ((sep ∉ s) ∧ splitn sep 2 s = [s])
  ∨ (∃ a b, s = a ++ sep :: b ∧ (sep ∉ a) ∧ (sep ∉ b) ∧
            splitn sep 2 s = [a; b])
  ∨ (∃ a b c, s = a ++ sep :: b ++ sep :: c ∧ (sep ∉ a) ∧ (sep ∉ b) ∧
              splitn sep 2 s = [a; b; c]).
Proof.
  destruct (decide (sep ∈ s)) as [Hin|Hno].
  - apply list_elem_of_split_l in Hin as (a & r & -> & Ha).
    destruct (decide (sep ∈ r)) as [Hin|Hno].
    + apply list_elem_of_split_l in Hin as (b & c & -> & Hb).
      right. right. exists a, b, c. by rewrite splitn_join3.
    + right. left. exists a, r. split_and!; [done..|].
      by rewrite splitn_at_sep, splitn_no_sep.
  - left. by rewrite splitn_no_sep.
Qed.


(** What a call of [list_files] that returns went through: the path has
    an owner and a repository, with or without a directory; the
    repository of that name and the listing of that directory were asked
    for, in this order, and answered; the loop ran on the listing from an
    empty [self.__content], and the paths of what it stored are
    returned. *)
Lemma list_files_anatomy path_ σ names σ1 :
  list_files path_ σ = (Return names, σ1) →
  ∃ user repository directory repo top files,
    (chr "/" ∉ user) ∧ (chr "/" ∉ repository) ∧
    (path_ = user ++ chr "/" :: repository ++ chr "/" :: directory
     ∨ (path_ = user ++ chr "/" :: repository ∧ directory = [])) ∧
    get_repo (g σ) (user ++ lit "/" ++ repository) = inr repo ∧
    get_contents repo directory = inr top ∧
    list_files_loop
      (S (sizes (match top with One f => [f] | Many l => l end)))
      (user ++ lit "/" ++ repository)
      (match top with One f => [f] | Many l => l end)
      (State (g σ) (Some [])
         (sent σ ++ [GetRepo (user ++ lit "/" ++ repository);
                     GetContents (user ++ lit "/" ++ repository) directory])
         (printed σ))
    = (Return (), σ1) ∧
    content_ σ1 = Some files ∧ names = path <$> files.
Proof.
  intros H.
  assert (∃ user repository directory,
    (chr "/" ∉ user) ∧ (chr "/" ∉ repository) ∧
    (path_ = user ++ chr "/" :: repository ++ chr "/" :: directory
     ∨ (path_ = user ++ chr "/" :: repository ∧ directory = [])) ∧
    list_files path_ σ
    = (let full_name := user ++ lit "/" ++ repository in
       gh ← client;
       repo ← ask (GetRepo full_name) (get_repo gh full_name);
       contents ← ask (GetContents full_name directory)
                      (get_contents repo directory);
       let contents := match contents with One f => [f] | Many l => l end in
       _ ← set_content [];
       _ ← list_files_loop (S (sizes contents)) full_name contents;
       files ← get_content;
       mret (path <$> files)) σ)
    as (user & repository & directory & Huser & Hrepo & Hpath & Heq).
  { destruct (splitn_2_cases (chr "/") path_)
      as [[Hno Hs]|[(a & b & Hp & Ha & Hb & Hs)|(a & b & c & Hp & Ha & Hb & Hs)]].
    - exfalso. unfold list_files in H. by rewrite Hs in H.
    - exists a, b, []. split_and!; [done..|by right|].
      unfold list_files. by rewrite Hs.
    - exists a, b, c. split_and!; [done..|by left|].
      unfold list_files. by rewrite Hs. }
  rewrite Heq in H. clear Heq. cbv zeta in H.
  apply bind_Return_inv in H as (gh & σb & Hgh & H).
  apply bind_Return_inv in H as (repo & σc & Hask & H).
  apply bind_Return_inv in H as (top & σd & Htop & H).
  apply bind_Return_inv in H as ([] & σe & Hset & H).
  apply bind_Return_inv in H as ([] & σf & Hloop & H).
  apply bind_Return_inv in H as (files & σg & Hget & H).
  injection Hgh as <- <-.
  unfold ask, lift in Hask, Htop.
  destruct (get_repo (g σ) _) as [e|repo'] eqn:Erepo; [done|].
  injection Hask as -> <-.
  destruct (get_contents repo _) as [e|top'] eqn:Etop; [done|].
  injection Htop as -> <-. injection Hset as <-.
  cbn [g content_ sent printed] in Hloop. rewrite <- app_assoc in Hloop.
  unfold get_content in Hget. destruct (content_ σf) as [files'|] eqn:Ef;
    [|done].
  injection Hget as <- <-. injection H as <- <-.
  exists user, repository, directory, repo, top, files'.
  split_and!; done.
Qed.


(** X6: A path that holds no ['/'] is refused with [IndexError] before any
    request is sent; the object is left as it was. *)
Theorem list_files_needs_owner_and_repository path_ σ :
  chr "/" ∉ path_ →
  list_files path_ σ
  = (Raise (Exn IndexError
              (lit "'username/repository' must be included in the path.")),
     σ).
Proof.
  intros Hpath. unfold list_files. by rewrite splitn_no_sep.
Qed.

(** X7: When the repository cannot be opened, the exception of the remote
    leaves [list_files] after that one request, and [self.__content] keeps
    what an earlier call stored. *)
Theorem list_files_repository_failure user repository rest σ e :
  chr "/" ∉ user → chr "/" ∉ repository →
  rest = [] ∨ (∃ directory, rest = chr "/" :: directory) →
  get_repo (g σ) (user ++ lit "/" ++ repository) = inl e →
  list_files (user ++ chr "/" :: repository ++ rest) σ
  = (Raise e,
     State (g σ) (content_ σ)
       (sent σ ++ [GetRepo (user ++ lit "/" ++ repository)]) (printed σ)).
Proof.
  intros Huser Hrepo Hrest Hfail. unfold list_files.
  rewrite splitn_at_sep by done.
  assert (∃ pieces, splitn (chr "/") 1 (repository ++ rest)
                    = repository :: pieces ∧ (length pieces ≤ 1)%nat)
    as (pieces & -> & Hlen).
  { destruct Hrest as [->|[directory ->]].
    - exists []. rewrite app_nil_r, splitn_no_sep by done.
      split; [done|simpl; lia].
    - exists [directory]. rewrite splitn_before_sep by done.
      split; [done|simpl; lia]. }
  change (lit "/" ++ repository) with (chr "/" :: repository) in Hfail.
  destruct pieces as [|directory [|? ?]]; simpl in Hlen; [| |lia].
  - simpl. unfold mbind, M_bind, mret, M_ret, client, ask, lift. simpl.
    by rewrite Hfail.
  - simpl. unfold mbind, M_bind, mret, M_ret, client, ask, lift. simpl.
    by rewrite Hfail.
Qed.

End Listing.


(** An instance: a bare repository name. *)
Lemma list_files_needs_owner_and_repository_witness :
  (list_files (lit "repo") Demo.self).1
  = Raise (Exn IndexError
             (lit "'username/repository' must be included in the path.")).
Proof.
  rewrite (list_files_needs_owner_and_repository (lit "repo") Demo.self).
  - reflexivity.
  - apply (bool_decide_unpack _). vm_compute. exact I.
Defined.

(** An instance: a repository that does not exist. *)
Lemma list_files_repository_failure_witness :
  list_files (lit "owner/other/README.md") Demo.self
  = (Raise Demo.not_found,
     State Demo.github None [GetRepo (lit "owner/other")] []).
Proof.
  apply (list_files_repository_failure (lit "owner") (lit "other")
           (lit "/README.md") Demo.self Demo.not_found).
  - apply (bool_decide_unpack _). vm_compute. exact I.
  - apply (bool_decide_unpack _). vm_compute. exact I.
  - right. eexists. reflexivity.
  - reflexivity.
Defined.
(** ** What a call depends on *)

Section Frame.

Lemma respects_bind {A B} (P Q R : state → state → Prop)
  (m : M A) (f : A → M B) :
  respects P Q m → (∀ a, respects Q R (f a)) → respects P R (m ≫= f).
Proof.
  intros Hm Hf σ σ' HP. destruct (Hm σ σ' HP) as [Hout HQ].
  unfold mbind, M_bind.
  destruct (m σ) as [[a| | |] σ1], (m σ') as [[a'| | |] σ1'];
    simpl in *; try discriminate; try (split; [congruence|by intros]).
  injection Hout as <-. apply Hf. by apply (HQ a).
Qed.

Lemma respects_weaken {A} (P P' Q Q' : state → state → Prop) (m : M A) :
  respects P Q m →
  (∀ σ σ', P' σ σ' → P σ σ') → (∀ σ σ', Q σ σ' → Q' σ σ') →
  respects P' Q' m.
Proof.
  intros Hm HP HQ σ σ' H. destruct (Hm σ σ' (HP _ _ H)) as [Hout Hfin].
  split; [done|]. intros a Ha. by eapply HQ, Hfin.
Qed.

Lemma respects_ret {A} (P : state → state → Prop) (a : A) :
  respects P P (mret a).
Proof. intros σ σ' H. split; [done|]. by intros. Qed.

Lemma respects_raise {A} (P Q : state → state → Prop) c msg :
  respects P Q (raise (A:=A) c msg).
Proof. intros σ σ' H. split; [done|]. by intros. Qed.

Lemma respects_out_of_fuel {A} (P Q : state → state → Prop) :
  respects P Q (out_of_fuel (A:=A)).
Proof. intros σ σ' H. split; [done|]. by intros. Qed.

Lemma respects_client : respects same_client same_client client.
Proof.
  intros σ σ' H. unfold client. simpl. split; [by rewrite H|]. by intros.
Qed.

Lemma respects_ask_client {A} q (r : exn + A) :
  respects same_client same_client (ask q r).
Proof. intros σ σ' H. unfold ask, lift. by destruct r. Qed.

Lemma respects_ask_fields {A} q (r : exn + A) :
  respects same_fields same_fields (ask q r).
Proof. intros σ σ' H. unfold ask, lift. by destruct r. Qed.

Lemma respects_lift {A} (P : state → state → Prop) (r : exn + A) :
  respects P P (lift r).
Proof. intros σ σ' H. unfold lift. destruct r; (split; [done|by intros]). Qed.

Lemma respects_item {A} (P : state → state → Prop) (l : list A) i :
  respects P P (item l i).
Proof.
  unfold item. destruct (l !! i); [apply respects_ret|apply respects_raise].
Qed.

Lemma respects_set_content l :
  respects same_client same_fields (set_content l).
Proof. intros σ σ' H. split; [done|]. intros _ _. split; [exact H|done]. Qed.

Lemma respects_get_content : respects same_fields same_fields get_content.
Proof.
  intros σ σ' [Hg Hc]. unfold get_content. rewrite <- Hc.
  destruct (content_ σ) eqn:E; (split; [done|]); intros a Ha; [|done].
  split; [done|]. simpl. by rewrite E.
Qed.

Lemma respects_list_files_loop fuel full_name contents :
  respects same_fields same_fields (list_files_loop fuel full_name contents).
Proof.
  revert contents. induction fuel as [|fuel IH]; intros contents;
    cbn [list_files_loop]; [apply respects_out_of_fuel|].
  destruct contents as [|f contents]; [apply respects_ret|].
  case_bool_decide.
  - eapply respects_bind; [apply respects_ask_fields|]. intros below. apply IH.
  - eapply respects_bind; [apply respects_get_content|]. intros files.
    eapply respects_bind; [|intros []; apply IH].
    eapply respects_weaken; [apply respects_set_content|by intros ?? []|done].
Qed.

(** The outcome of [list_files] and the listing it stores depend on the
    client only. *)
Lemma respects_list_files path_ :
  respects same_client same_fields (list_files path_).
Proof.
  unfold list_files.
  eapply (respects_bind _ same_client).
  { set (l := splitn (chr "/") 2 path_).
    destruct (l !! 0%nat), (l !! 1%nat), (l !! 2%nat);
      apply respects_ret || apply respects_raise. }
  intros [[user repository] directory].
  eapply respects_bind; [apply respects_client|]. intros gh.
  eapply respects_bind; [apply respects_ask_client|]. intros repo.
  eapply respects_bind; [apply respects_ask_client|]. intros contents.
  eapply respects_bind; [apply respects_set_content|]. intros [].
  eapply respects_bind; [apply respects_list_files_loop|]. intros [].
  eapply respects_bind; [apply respects_get_content|]. intros files.
  apply respects_ret.
Qed.

Lemma respects_read_file b64decode_decode path_ :
  respects same_client same_fields (read_file b64decode_decode path_).
Proof.
  unfold read_file.
  eapply respects_bind; [apply respects_list_files|]. intros names.
  eapply respects_bind; [apply respects_get_content|]. intros files.
  case_bool_decide; [apply respects_raise|].
  eapply respects_bind; [apply respects_item|]. intros first.
  apply respects_lift.
Qed.

Lemma keeps_client_bind {A B} (m : M A) (f : A → M B) :
  keeps_client m → (∀ a, keeps_client (f a)) → keeps_client (m ≫= f).
Proof.
  intros Hm Hf σ. specialize (Hm σ). unfold mbind, M_bind.
  destruct (m σ) as [[a| | |] σ1]; simpl in *; [|done..].
  by rewrite Hf.
Qed.

Lemma keeps_client_lift {A} (r : exn + A) : keeps_client (lift r).
Proof. intros σ. unfold lift. by destruct r. Qed.

Lemma keeps_client_ask {A} q (r : exn + A) : keeps_client (ask q r).
Proof. intros σ. unfold ask, lift. by destruct r. Qed.

Lemma keeps_client_item {A} (l : list A) i : keeps_client (item l i).
Proof. intros σ. unfold item. by destruct (l !! i). Qed.

Lemma keeps_client_get_content : keeps_client get_content.
Proof. intros σ. unfold get_content. by destruct (content_ σ). Qed.

Lemma keeps_client_list_files_loop fuel full_name contents :
  keeps_client (list_files_loop fuel full_name contents).
Proof.
  revert contents. induction fuel as [|fuel IH]; intros contents;
    cbn [list_files_loop]; [done|].
  destruct contents as [|f contents]; [done|].
  case_bool_decide.
  - apply keeps_client_bind; [apply keeps_client_ask|]. intros below. apply IH.
  - apply keeps_client_bind; [apply keeps_client_get_content|]. intros files.
    apply keeps_client_bind; [done|]. intros []. apply IH.
Qed.

Lemma keeps_client_list_files path_ : keeps_client (list_files path_).
Proof.
  unfold list_files.
  apply keeps_client_bind.
  { set (l := splitn (chr "/") 2 path_).
    destruct (l !! 0%nat), (l !! 1%nat), (l !! 2%nat); done. }
  intros [[user repository] directory].
  apply keeps_client_bind; [done|]. intros gh.
  apply keeps_client_bind; [apply keeps_client_ask|]. intros repo.
  apply keeps_client_bind; [apply keeps_client_ask|]. intros contents.
  apply keeps_client_bind; [done|]. intros [].
  apply keeps_client_bind; [apply keeps_client_list_files_loop|]. intros [].
  apply keeps_client_bind; [apply keeps_client_get_content|]. by intros files.
Qed.

Lemma keeps_client_read_file b64decode_decode path_ :
  keeps_client (read_file b64decode_decode path_).
Proof.
  unfold read_file.
  apply keeps_client_bind; [apply keeps_client_list_files|]. intros names.
  apply keeps_client_bind; [apply keeps_client_get_content|]. intros files.
  case_bool_decide; [done|].
  apply keeps_client_bind; [apply keeps_client_item|]. intros first.
  apply keeps_client_lift.
Qed.

(** X9: [list_files] starts from an empty [self.__content]: how it ends, what
    it returns and the listing it stores are the same whatever an earlier
    call stored, sent or printed; so is the outcome of [read_file].  No
    call replaces the client. *)
Theorem read_file_ignores_history b64decode_decode path_ σ σ' :
  g σ = g σ' →
  (list_files path_ σ).1 = (list_files path_ σ').1 ∧
  (∀ names,
     (list_files path_ σ).1 = Return names →
     content_ (list_files path_ σ).2 = content_ (list_files path_ σ').2) ∧
  (read_file b64decode_decode path_ σ).1
  = (read_file b64decode_decode path_ σ').1 ∧
  g (read_file b64decode_decode path_ σ).2 = g σ.
Proof.
  intros Hg.
  destruct (respects_list_files path_ σ σ' Hg) as [Hout Hfin].
  destruct (respects_read_file b64decode_decode path_ σ σ' Hg) as [Hread _].
  split_and!; [done| |done|apply keeps_client_read_file].
  intros names Hnames. by destruct (Hfin names Hnames).
Qed.

End Frame.

(** An instance: the README is read after a directory was listed. *)
Lemma read_file_ignores_history_witness :
  (read_file Demo.b64decode_decode (lit "owner/repo/README.md")
     (list_files (lit "owner/repo/launch") Demo.self).2).1
  = Return (lit "# ros1_test").
Proof.
  destruct (read_file_ignores_history Demo.b64decode_decode
              (lit "owner/repo/README.md")
              (list_files (lit "owner/repo/launch") Demo.self).2 Demo.self)
    as (_ & _ & H & _).
  - reflexivity.
  - rewrite H. vm_compute. reflexivity.
Defined.

(** ** The file dictionary *)

Section FileDict.

(** The last piece of a split: the text after the last separator. *)
Lemma last_split sep s :
  ∃ dir name,
    s = dir ++ name ∧ (sep ∉ name) ∧
    (dir = [] ∨ ∃ dir', dir = dir' ++ [sep]) ∧
    last_item (split sep s) = Some name.
Proof.
  unfold last_item. remember (length s) as n eqn:Hlen. revert s Hlen.
  induction (lt_wf n) as [n _ IH]. intros s ->.
  destruct (decide (sep ∈ s)) as [Hin|Hno].
  - apply list_elem_of_split_l in Hin as (k & v & -> & Hk).
    destruct (IH (length v)) with (s := v) as (dir & name & -> & Hn & Hd & Hl);
      [rewrite length_app; simpl; lia|done|].
    exists (k ++ sep :: dir), name. split_and!.
    + by rewrite <- app_assoc.
    + done.
    + right. destruct Hd as [->|[dir' ->]].
      * by exists k.
      * exists (k ++ sep :: dir'). by rewrite <- app_assoc.
    + rewrite split_before_sep by done.
      pose proof (split_nonempty sep (dir ++ name)).
      destruct (split sep (dir ++ name)); [done|]. by rewrite last_cons_cons.
  - exists [], s. split_and!; [done|done|by left|].
    by rewrite split_no_sep.
Qed.

Lemma file_dicts_Return files σ :
  ∃ dicts,
    file_dicts files σ = (Return dicts, σ) ∧
    Forall2
      (λ d p, ∃ dir name,
         p = dir ++ name ∧ (chr "/" ∉ name) ∧
         (dir = [] ∨ ∃ dir', dir = dir' ++ [chr "/"]) ∧
         d = {[name := p]})
      dicts (path <$> files).
Proof.
  induction files as [|f files (dicts & Hdicts & Hall)]; cbn [file_dicts].
  - exists []. split; [done|constructor].
  - destruct (last_split (chr "/") (path f)) as (dir & name & Hp & Hn & Hd & Hl).
    exists ({[name := path f]} :: dicts). split.
    + unfold last_of. rewrite Hl.
      unfold mbind, M_bind, mret, M_ret. by rewrite Hdicts.
    + rewrite fmap_cons. constructor; [|done]. by exists dir, name.
Qed.

(** X10: [get_file_dict] returns whenever [list_files] does, with one dict per
    path that [list_files] returns, in the same order: its one key is the
    text after the last ['/'] of the path and its value the path.
    An exception of [list_files] is that of [get_file_dict]. *)
Theorem get_file_dict_names_the_files path_ σ :
  (∀ names σ1,
     list_files path_ σ = (Return names, σ1) →
     ∃ dicts,
       get_file_dict path_ σ = (Return dicts, σ1) ∧
       Forall2
         (λ d p, ∃ dir name,
            p = dir ++ name ∧ (chr "/" ∉ name) ∧
            (dir = [] ∨ ∃ dir', dir = dir' ++ [chr "/"]) ∧
            d = {[name := p]})
         dicts names) ∧
  (∀ e σ1,
     list_files path_ σ = (Raise e, σ1) →
     get_file_dict path_ σ = (Raise e, σ1)).
Proof.
  split.
  - intros names σ1 Hlist.
    destruct (list_files_Return _ _ _ _ Hlist) as (files & Hfiles & ->).
    destruct (file_dicts_Return files σ1) as (dicts & Hdicts & Hall).
    exists dicts. split; [|done]. unfold get_file_dict.
    rewrite (bind_Return _ _ _ _ _ Hlist).
    assert (get_content σ1 = (Return files, σ1)) as Hget.
    { unfold get_content. by rewrite Hfiles. }
    by rewrite (bind_Return _ _ _ _ _ Hget).
  - intros e σ1 Hlist. unfold get_file_dict. by apply bind_Raise.
Qed.

End FileDict.

(** An instance: the directory [launch] of the small repository. *)
Lemma get_file_dict_names_the_files_witness :
  ∃ dicts,
    get_file_dict (lit "owner/repo/launch") Demo.self
    = (Return dicts, (list_files (lit "owner/repo/launch") Demo.self).2) ∧
    Forall2
      (λ d p, ∃ dir name,
         p = dir ++ name ∧ (chr "/" ∉ name) ∧
         (dir = [] ∨ ∃ dir', dir = dir' ++ [chr "/"]) ∧
         d = {[name := p]})
      dicts
      [lit "launch/top.launch"; lit "launch/sub.launch";
       lit "launch/flat.launch"].
Proof.
  destruct (get_file_dict_names_the_files (lit "owner/repo/launch") Demo.self)
    as [H _].
  apply H. vm_compute. reflexivity.
Defined.
(** ** More about [get_obsparams] *)

Section ObsparamsMore.

(** The lines that contribute: a key without ['='], an ['='], and a value
    that starts with another character. *)
Lemma declared_key_Some line k :
  declared_key line = Some k
  ↔ ∃ ch v, line = k ++ chr "=" :: ch :: v ∧ (chr "=" ∉ k) ∧ ch ≠ chr "=".
Proof.
  split.
  - destruct (decide (chr "=" ∈ line)) as [Hin|Hno].
    + apply list_elem_of_split_l in Hin as (k0 & v0 & -> & Hk0).
      rewrite declared_key_value by done.
      destruct v0 as [|ch v]; [done|].
      destruct (N.eqb_spec ch (chr "=")) as [|Hch]; [done|].
      intros [= <-]. by exists ch, v.
    + by rewrite declared_key_no_equals.
  - intros (ch & v & -> & Hk & Hch). rewrite declared_key_value by done.
    by destruct (N.eqb_spec ch (chr "=")).
Qed.

(** A line of [splitlines] holds no line boundary. *)
Lemma splitlines_from_no_linebreak n s cur line :
  (length s < n)%nat →
  Forall (λ c, is_linebreak c = false) cur →
  line ∈ splitlines_from cur s →
  Forall (λ c, is_linebreak c = false) line.
Proof.
  revert s cur. induction n as [|n IH]; intros s cur Hn Hcur; [lia|].
  destruct s as [|c s]; cbn [splitlines_from].
  - destruct cur; [by intros ?%elem_of_nil|].
    by intros ->%list_elem_of_singleton.
  - simpl in Hn. destruct (is_linebreak c) eqn:Hc.
    + assert (line ∈ cur :: splitlines_from [] s ∨
              (∃ s', line ∈ cur :: splitlines_from [] s' ∧
                     (length s' < length s)%nat) →
              Forall (λ c, is_linebreak c = false) line) as Hstep.
      { intros [[->|H]%elem_of_cons|(s' & [->|H]%elem_of_cons & Hs')];
          try done; (eapply (IH _ []); [|constructor|done]); lia. }
      destruct s as [|d s'']; [intros H; apply Hstep; by left|].
      destruct ((c =? CR) && (d =? LF)); intros H; apply Hstep.
      * right. exists s''. split; [done|]. simpl. lia.
      * by left.
    + apply IH; [lia|]. apply Forall_app. split; [done|]. by constructor.
Qed.

(** X11: A name is returned exactly when some line of the text reads name,
    ['='], value, where the name holds no ['='] and the value starts with
    a character other than ['=']; a name therefore holds neither an ['=']
    nor a line boundary (and may be empty). *)
Theorem get_obsparams_names content k :
  (k ∈ get_obsparams_of content
   ↔ ∃ ch v, k ++ chr "=" :: ch :: v ∈ splitlines content ∧
             (chr "=" ∉ k) ∧ ch ≠ chr "=") ∧
  (k ∈ get_obsparams_of content →
   (chr "=" ∉ k) ∧ Forall (λ c, is_linebreak c = false) k).
Proof.
  assert (k ∈ get_obsparams_of content
          ↔ ∃ ch v, k ++ chr "=" :: ch :: v ∈ splitlines content ∧
                    (chr "=" ∉ k) ∧ ch ≠ chr "=") as Hiff.
  { rewrite get_obsparams_of_lines, list_elem_of_omap. split.
    - intros (line & Hline & (ch & v & -> & Hk & Hch)%declared_key_Some).
      by exists ch, v.
    - intros (ch & v & Hline & Hk & Hch). eexists. split; [done|].
      apply declared_key_Some. by exists ch, v. }
  split; [done|].
  intros (ch & v & Hline & Hk & Hch)%Hiff. split; [done|].
  eapply (splitlines_from_no_linebreak _ content []) in Hline;
    [|apply Nat.lt_succ_diag_r|constructor].
  by apply Forall_app in Hline as [? _].
Qed.

Lemma splitlines_from_LF cur s :
  splitlines_from cur (LF :: s) = cur :: splitlines s.
Proof. by destruct s. Qed.

Lemma declared_lines_app n c1 c2 cur :
  (length c1 < n)%nat →
  omap declared_key (splitlines_from cur (c1 ++ LF :: c2))
  = omap declared_key (splitlines_from cur c1)
      ++ omap declared_key (splitlines c2).
Proof.
  revert c1 cur. induction n as [|n IH]; intros c1 cur Hn; [lia|].
  destruct c1 as [|c c1].
  - cbn [app]. rewrite splitlines_from_LF.
    destruct cur as [|ch cur]; cbn [splitlines_from omap list_omap].
    + by change (declared_key []) with (@None str).
    + by destruct (declared_key (ch :: cur)).
  - simpl in Hn. cbn [app splitlines_from].
    destruct (is_linebreak c) eqn:Hc.
    + destruct c1 as [|d c1].
      * cbn [app]. change (LF =? LF) with true. rewrite andb_true_r.
        change (splitlines_from [] []) with (@nil str).
        destruct (c =? CR).
        -- cbn [omap list_omap]. by destruct (declared_key cur).
        -- rewrite splitlines_from_LF. cbn [omap list_omap].
           change (declared_key []) with (@None str).
           by destruct (declared_key cur).
      * cbn [app].
        destruct ((c =? CR) && (d =? LF)); cbn [omap list_omap].
        -- rewrite (IH c1 []) by (simpl in Hn; lia).
           by destruct (declared_key cur).
        -- change (d :: c1 ++ LF :: c2) with ((d :: c1) ++ LF :: c2).
           rewrite (IH (d :: c1) []) by lia.
           by destruct (declared_key cur).
    + apply IH. lia.
Qed.

(** X12: Two texts joined by a newline declare what the first declares,
    followed by what the second declares. *)
Theorem get_obsparams_of_joined c1 c2 :
  get_obsparams_of (c1 ++ LF :: c2)
  = get_obsparams_of c1 ++ get_obsparams_of c2.
Proof.
  rewrite !get_obsparams_of_lines. unfold splitlines.
  by apply (declared_lines_app (S (length c1))), Nat.lt_succ_diag_r.
Qed.

End ObsparamsMore.

(** An instance: the declaration file of the small repository. *)
Lemma get_obsparams_names_witness :
  (chr "=" ∉ lit "a") ∧ Forall (λ c, is_linebreak c = false) (lit "a").
Proof.
  destruct (get_obsparams_names Demo.obs_text (lit "a")) as [_ H].
  apply H. apply (bool_decide_unpack _). vm_compute. exact I.
Defined.
(** ** More about the patterns of a raw trigger *)

Section FirstMatch.

Import Re.

(** A match that [search] finds is the first match at its position. *)
Lemma search_Some_here r s must_advance start e c :
  search r s must_advance = Some (start, e, c) →
  ∃ must_advance', match_here r start must_advance' = Some (e, c).
Proof.
  revert must_advance. induction s as [|ch s IH]; intros must_advance;
    cbn [search].
  - destruct (match_here r [] must_advance) as [[e' c']|] eqn:E; [|done].
    intros [= <- <- <-]. eauto.
  - destruct (match_here r (ch :: s) must_advance) as [[e' c']|] eqn:E.
    + intros [= <- <- <-]. eauto.
    + apply IH.
Qed.

(** Each item that [findall] returns comes from the first match at some
    position of the text. *)
Lemma findall_loop_first fuel p s must_advance ms x :
  findall_loop fuel p s must_advance = Some ms → x ∈ ms →
  ∃ start e c must_advance',
    match_here (tree p) start must_advance' = Some (e, c) ∧
    x = matched p start e c.
Proof.
  revert s must_advance ms. induction fuel as [|fuel IH];
    intros s must_advance ms; cbn [findall_loop]; [done|].
  destruct (search (tree p) s must_advance) as [[[start e] c]|] eqn:E.
  - destruct (findall_loop fuel p e _) as [ms'|] eqn:E'; [|done].
    intros [= <-]. apply search_Some_here in E as [must_advance' E].
    intros [->|Hx]%elem_of_cons; [by eauto 6|]. by eapply IH.
  - intros [= <-]. by intros ?%elem_of_nil.
Qed.

(** When no way to match is empty, the first match is the first way to
    match. *)
Lemma match_here_advancing r s must_advance :
  (∀ e c, (e, c) ∈ run r s ∅ → length e ≠ length s) →
  match_here r s must_advance = head (run r s ∅).
Proof.
  unfold match_here. intros Hall. f_equal.
  induction (run r s ∅) as [|[e c] l IH]; [done|].
  rewrite filter_cons_True.
  - f_equal. apply IH. intros e' c' Hin. apply (Hall e' c'). by right.
  - intros [_ Hlen]. by apply (Hall e c); [left|].
Qed.

(** A text is free of the characters that [f] marks, or has a first one. *)
Lemma first_marked (f : char → bool) (x : str) :
  Forall (λ ch, f ch = false) x ∨
  ∃ before ch after,
    x = before ++ ch :: after ∧ Forall (λ ch, f ch = false) before ∧
    f ch = true.
Proof.
  induction x as [|ch x [IH|(before & ch' & after & -> & Hb & Hch)]].
  - left. constructor.
  - destruct (f ch) eqn:Hf.
    + right. exists [], ch, x. by repeat split.
    + left. by constructor.
  - destruct (f ch) eqn:Hf.
    + right. exists [], ch, (before ++ ch' :: after). by repeat split.
    + right. exists (ch :: before), ch', after. split_and!; [done| |done].
      by constructor.
Qed.

Lemma quote_not_LF q : matches quote q = true → q ≠ LF.
Proof.
  cbn [matches quote]. intros H%bool_decide_eq_true ->.
  apply elem_of_cons in H as [H|H]; [done|].
  apply elem_of_cons in H as [H|H]; [done|]. by apply elem_of_nil in H.
Qed.

(** The first way to match the pattern of a raw trigger captures a name
    without quotes: the name ends at the first quote after which the
    suffix follows on the line. *)
Lemma literal_tree_first_no_quote prefix suffix s e c x :
  head (run (literal_tree (prefix, suffix)) s ∅) = Some (e, c) →
  c !! 1%nat = Some x →
  Forall (λ ch, matches quote ch = false) x.
Proof.
  intros Hhead Hc. pose proof Hhead as Hin%head_Some_elem_of.
  apply run_literal_tree_sound in Hin
    as (q & x' & q' & gap & -> & Hc' & Hq & Hq' & Hx & Hgap).
  assert (x' = x) as -> by congruence. clear Hc'.
  destruct (first_marked (matches quote) x)
    as [Hfree|(n1 & qq & n2 & -> & Hn1 & Hqq)]; [done|].
  exfalso.
  destruct (run_literal_tree_first prefix suffix q n1 qq (n2 ++ q' :: gap) e)
    as (e' & c' & Hhead' & Hc'); [done|done| | |].
  - apply Forall_forall. intros ch Hch. split.
    + by eapply Forall_forall in Hn1.
    + intros ->. apply Hx. apply elem_of_app. by left.
  - intros [Hin|Hin]%elem_of_app.
    + apply Hx. apply elem_of_app. right. by right.
    + apply elem_of_cons in Hin as [Hin|Hin]; [|done].
      by apply (quote_not_LF q').
  - rewrite <- !app_assoc in Hhead. cbn [app] in Hhead.
    rewrite <- !app_assoc in Hhead'. cbn [app] in Hhead'.
    rewrite Hhead in Hhead'. injection Hhead' as <- <-.
    rewrite Hc in Hc'. injection Hc' as Hlen%(f_equal length).
    rewrite length_app in Hlen. simpl in Hlen. lia.
Qed.

Lemma literal_tree_advances prefix suffix s e c :
  (e, c) ∈ run (literal_tree (prefix, suffix)) s ∅ → length e ≠ length s.
Proof.
  intros (q & x & q' & gap & -> & _)%run_literal_tree_sound.
  rewrite !length_app. simpl. rewrite !length_app. simpl.
  rewrite !length_app. lia.
Qed.

(** *** The pattern of [params_extract_match] for any span *)

Lemma lex_span_middle rest :
  lex Plain (lit "(.*?).*?" ++ rest)
  = ([TOpen; TAtom Any; TStar; TQuest; TClose; TAtom Any; TStar; TQuest] ++.)
      <$> lex Plain rest.
Proof.
  change (lit "(.*?).*?" ++ rest) with
    (chr "(" :: chr "." :: chr "*" :: chr "?" :: chr ")" :: chr "."
       :: chr "*" :: chr "?" :: rest).
  rewrite lex_open, lex_dot, lex_star, lex_quest, lex_close.
  rewrite lex_dot, lex_star, lex_quest.
  by destruct (lex Plain rest).
Qed.

(** An escaped trigger around [(.*?).*?] compiles to [span_tree], with one
    group. *)
Lemma compile_span_pattern prefix suffix :
  compile (span_pattern (escape prefix, escape suffix))
  = Some {| tree := span_tree (prefix, suffix); groups := 1 |}.
Proof.
  unfold compile, span_pattern. cbn [fst snd].
  rewrite (lex_escape prefix _
             ([TOpen; TAtom Any; TStar; TQuest; TClose; TAtom Any; TStar;
               TQuest] ++ (TAtom ∘ Lit <$> suffix))); cycle 1.
  { rewrite lex_span_middle. rewrite <- (app_nil_r (escape suffix)).
    by rewrite (lex_escape suffix [] []), app_nil_r. }
  cbn [mbind option_bind]. rewrite parse_literal.
  cbn [parse_tokens parse_token app mbind option_bind].
  repeat (unfold push_item;
          cbn [index alts items current enclosing ngroups mbind option_bind];
          rewrite ?map_last_snoc).
  rewrite <- (app_nil_r (TAtom ∘ Lit <$> suffix)), parse_literal.
  cbn [parse_tokens mbind option_bind enclosing current ngroups].
  unfold close, span_tree. cbn [alts items app alt_of fst snd].
  by rewrite <- !app_assoc.
Qed.

(** The ways to match a gap and the suffix: they capture nothing. *)
Lemma run_gap_suffix suffix s caps e c :
  (e, c) ∈ run (Seq (Star true Any) (seq_of (literal suffix))) s caps
  ↔ c = caps ∧ ∃ gap, s = gap ++ suffix ++ e ∧ (LF ∉ gap).
Proof.
  cbn [run]. rewrite list_elem_of_bind. split.
  - intros ([s' c'] & He & (s'' & [= <- <-] & Hs)%list_elem_of_fmap).
    apply run_literal_end in He as [-> ->].
    apply elem_of_star_lazy in Hs as (gap & -> & Hgap).
    split; [done|]. exists gap. split; [done|]. by apply matches_Any_LF.
  - intros (-> & gap & -> & Hgap). exists (suffix ++ e, caps). split.
    + rewrite <- (app_nil_r (literal suffix)), run_literal_app. cbn.
      by apply list_elem_of_singleton.
    + apply list_elem_of_fmap. exists (suffix ++ e). split; [done|].
      apply elem_of_star_lazy. exists gap. split; [done|].
      by apply matches_Any_LF.
Qed.

Lemma star_lazy_head a s :
  ∃ others, star_lazy a s = s :: others ∧
            ∀ s', s' ∈ others → s' ∈ star_lazy a s.
Proof.
  destruct s; cbn [star_lazy]; eexists; (split; [done|]); intros; by right.
Qed.

(** In [prefix(.*?).*?suffix] the group is lazy and what follows it
    matches whatever the group could: the first match, empty or not,
    leaves the group empty. *)
Lemma span_tree_first_empty prefix suffix s must_advance e c :
  match_here (span_tree (prefix, suffix)) s must_advance = Some (e, c) →
  c !! 1%nat = Some [].
Proof.
  intros Hhere. pose proof Hhere as [Hin _]%match_here_Some.
  unfold span_tree in Hin. cbn [fst snd] in Hin.
  apply run_literal_elem in Hin as (s1 & -> & _).
  revert Hhere. unfold match_here, span_tree. cbn [fst snd].
  rewrite run_literal_app. cbn [seq_of foldr app].
  rewrite run_group_star.
  set (R := Seq (Star true Any) (foldr Seq Empty (literal suffix))).
  destruct (star_lazy_head Any s1) as (others & Hstar & Hothers).
  rewrite Hstar. cbn [mbind list_bind]. rewrite Nat.sub_diag, take_0.
  set (caps0 := <[1%nat := []]> (∅ : gmap nat str)).
  set (P := λ '(s', _), ¬ (must_advance = true ∧ _)).
  rewrite filter_app.
  assert (∀ e' c', (e', c') ∈ run R s1 caps0 → c' !! 1%nat = Some [])
    as Hfirst.
  { intros e' c' [-> _]%run_gap_suffix. apply lookup_insert_eq. }
  match goal with
  | |- context [?first ++ _] =>
      assert (∀ x, x ∈ first → x ∈ run R s1 caps0) as Hsub
        by (by intros x [_ ?]%list_elem_of_filter);
      revert Hsub; destruct first as [|[e0 c0] l0] eqn:Ef; intros Hsub
  end; cbn [app head].
  - intros Hhead. exfalso.
    apply head_Some_elem_of, list_elem_of_filter in Hhead as [HP Hin].
    eapply (filter_nil_not_elem_of _ _ (e, caps0) Ef); [exact HP|].
    apply run_gap_suffix. split; [done|].
    apply list_elem_of_bind in Hin as (s' & Hin & Hs').
    apply run_gap_suffix in Hin as (_ & gap & -> & Hgap).
    apply Hothers, elem_of_star_lazy in Hs' as (g & -> & Hg).
    exists (g ++ gap). split; [by rewrite <- app_assoc|].
    apply matches_Any_LF, Forall_app. split; [done|].
    by apply matches_Any_LF.
  - intros [= -> ->]. apply (Hfirst e), Hsub. left.
Qed.

End FirstMatch.
(** ** More about [params_extract], and [params_extract_match] *)

Section ExtractMore.

Variable b64decode_decode : option str → exn + str.

Local Notation "'read_file''" := (read_file b64decode_decode).
Local Notation "'params_extract_match''" :=
  (params_extract_match b64decode_decode).

(** X13: With a raw trigger no name that literal-mode extraction returns holds
    a quote: a name ends at the first quote after it. *)
Theorem params_extract_names_hold_no_quote trigger content l x :
  params_extract_of trigger content false = Some l → x ∈ l →
  (chr "'" ∉ x) ∧ (DQUOTE ∉ x).
Proof.
  rewrite params_extract_of_findall, findall_raw.
  destruct (Re.findall_loop _ _ content false) as [ms|] eqn:E; [|done].
  intros [= <-]. rewrite elem_of_sorted, elem_of_list_set. intros Hx.
  destruct (findall_loop_first _ _ _ _ _ _ E Hx)
    as (start & e & c & must_advance & Hhere & ->).
  destruct trigger as [prefix suffix]. cbn [Re.tree] in Hhere.
  rewrite match_here_advancing in Hhere by apply literal_tree_advances.
  pose proof Hhere as Hin%head_Some_elem_of.
  apply run_literal_tree_sound in Hin as (q & name & q' & gap & _ & Hc & _).
  unfold Re.matched. cbn [Re.groups]. rewrite Hc. cbn [default].
  pose proof (literal_tree_first_no_quote _ _ _ _ _ _ Hhere Hc) as Hfree.
  split; intros Hin; eapply Forall_forall in Hfree; try exact Hin;
    by vm_compute in Hfree.
Qed.

(** The second pattern of [params_extract_match] never captures anything:
    every item of [all_params] is the empty text. *)
Lemma span_pattern_captures_nothing trigger content :
  ∃ all_params,
    Re.findall (span_pattern (Re.escape trigger.1, Re.escape trigger.2))
      content = Some all_params ∧
    Forall (λ param, param = []) all_params.
Proof.
  unfold Re.findall. rewrite compile_span_pattern.
  cbn [mbind option_bind Re.groups].
  rewrite bool_decide_eq_true_2 by done.
  destruct (findall_loop_fuel (2 * length content + 2)
              {| Re.tree := span_tree (trigger.1, trigger.2); Re.groups := 1 |}
              content false) as [ms Hms]; [lia|].
  exists ms. split; [done|]. apply Forall_forall. intros x Hx.
  destruct (findall_loop_first _ _ _ _ _ _ Hms Hx)
    as (start & e & c & must_advance & Hhere & ->).
  apply span_tree_first_empty in Hhere.
  unfold Re.matched. cbn [Re.groups]. by rewrite Hhere.
Qed.

Lemma assignment_pattern_total content :
  is_Some (Re.findall (assignment_pattern []) content).
Proof.
  unfold Re.findall.
  destruct (Re.compile (assignment_pattern [])) as [p|] eqn:E;
    [|vm_compute in E; discriminate].
  vm_compute in E. injection E as <-. cbn [mbind option_bind Re.groups].
  rewrite bool_decide_eq_true_2 by done. apply findall_loop_fuel. lia.
Qed.

(** The loop of [params_extract_match] when every span is empty: unless
    the empty text is one of the quoted names, each round looks for
    [ = '...'] anywhere in the content and takes the first value, or
    prints the message when there is none. *)
Lemma match_references_empty path_ content params values n true_params σ :
  Re.findall (assignment_pattern []) content = Some values →
  match_references path_ content params (replicate n []) true_params σ
  = if contains [] params then (Return true_params, σ)
    else match values with
         | value :: _ => (Return (true_params ++ replicate n value), σ)
         | [] =>
             (Return true_params,
              State (g σ) (content_ σ) (sent σ)
                (printed σ
                   ++ replicate n (print [lit "couldn't parse" ++ path_])))
         end.
Proof.
  intros Hvalues. revert true_params σ.
  induction n as [|n IH]; intros true_params σ;
    cbn [replicate match_references].
  - destruct (contains [] params); [done|].
    destruct values; rewrite app_nil_r; [|done]. by destruct σ.
  - destruct (contains [] params) eqn:Hc; cbn [negb].
    + by rewrite IH, ?Hc.
    + rewrite Hvalues. unfold re. unfold mbind at 1, M_bind, mret, M_ret.
      destruct values as [|value values]; cbn [lookup list_lookup].
      * unfold mbind, M_bind, static. cbn [fst snd].
        rewrite IH, ?Hc. cbn [g content_ sent printed].
        by rewrite <- app_assoc.
      * rewrite IH, ?Hc. by rewrite <- app_assoc.
Qed.

Lemma Forall_eq_replicate {A} (x : A) l :
  Forall (λ y, y = x) l → l = replicate (length l) x.
Proof. induction 1 as [|y l -> _ IH]; [done|]. simpl. by f_equal. Qed.

(** X14: With a raw trigger [params_extract_match] never looks at the name of
    a variable: the span it captures with [(.*?)] is always empty, so the
    assignment it then looks for is [ = '...'], whatever stands before.
    It returns, for every text fetched, the sorted duplicate-free list of
    the quoted names, together with -- when some reference is found and
    the empty text is not a quoted name -- the first quoted value that the
    content assigns to anything. *)
Theorem params_extract_match_ignores_the_name trigger path_ σ content σ1 :
  read_file' path_ σ = (Return content, σ1) →
  ∃ params all_params values l σ2,
    Re.findall (literal_pattern (Re.escape trigger.1, Re.escape trigger.2))
      content = Some params ∧
    Re.findall (span_pattern (Re.escape trigger.1, Re.escape trigger.2))
      content = Some all_params ∧
    Forall (λ param, param = []) all_params ∧
    Re.findall (assignment_pattern []) content = Some values ∧
    params_extract_match' trigger path_ false σ = (Return l, σ2) ∧
    (∀ x, x ∈ l
          ↔ x ∈ params
            ∨ (all_params ≠ [] ∧ ([] ∉ params) ∧ head values = Some x)) ∧
    Sorted str_le l ∧ NoDup l.
Proof.
  intros Hread.
  destruct (findall_raw_total trigger content) as [params Hparams].
  unfold pattern_of in Hparams. cbn [negb] in Hparams.
  destruct (span_pattern_captures_nothing trigger content)
    as (all_params & Hall & Hempty).
  destruct (assignment_pattern_total content) as [values Hvalues].
  pose proof (match_references_empty path_ content params values
                (length all_params) [] σ1 Hvalues) as Hloop.
  match type of Hloop with
  | context [match_references _ _ _ ?spans _ _] =>
      replace spans with all_params in Hloop
        by (by apply Forall_eq_replicate)
  end.
  assert (∃ true_params σ2,
    match_references path_ content params all_params [] σ1
    = (Return true_params, σ2) ∧
    ∀ x, x ∈ true_params
         ↔ all_params ≠ [] ∧ ([] ∉ params) ∧ head values = Some x)
    as (true_params & σ2 & Hrefs & Htrue).
  { rewrite Hloop. unfold contains. case_bool_decide as Hin.
    - exists [], σ1. split; [done|]. intros x.
      split; [by intros ?%elem_of_nil|tauto].
    - destruct values as [|value values].
      + eexists [], _. split; [done|]. intros x.
        split; [by intros ?%elem_of_nil|by intros (_ & _ & ?)].
      + eexists _, σ1. split; [done|]. intros x. cbn [app head].
        rewrite elem_of_replicate. split.
        * intros [-> Hlen]. split_and!; [|done..].
          intros ->. by apply Hlen.
        * intros (Hne & _ & [= ->]). split; [done|].
          by destruct all_params. }
  exists params, all_params, values, (sorted (list_set (params ++ true_params))),
    σ2.
  split_and!; [done..| | | |].
  - unfold params_extract_match. cbn [negb].
    rewrite (bind_Return _ _ _ _ _ Hread), Hparams, Hall.
    unfold re. unfold mbind at 1 2, M_bind, mret, M_ret.
    by rewrite (bind_Return _ _ _ _ _ Hrefs).
  - intros x. by rewrite elem_of_sorted, elem_of_list_set, elem_of_app, Htrue.
  - apply sorted_Sorted.
  - apply NoDup_sorted, NoDup_list_set.
Qed.

End ExtractMore.

(** An instance: the names of the script of the small repository. *)
Lemma params_extract_names_hold_no_quote_witness :
  (chr "'" ∉ lit "foo") ∧ (DQUOTE ∉ lit "foo").
Proof.
  apply (params_extract_names_hold_no_quote (lit "obs[", lit "]")
           Demo.script_text [lit "bar"; lit "foo"]).
  - vm_compute. reflexivity.
  - apply (bool_decide_unpack _). vm_compute. exact I.
Defined.

(** An instance: [key = 'foo'] and [x = obs[key]]. *)
Lemma params_extract_match_ignores_the_name_witness :
  ∃ l σ2,
    params_extract_match Demo.b64decode_decode (lit "obs[", lit "]")
      (lit "owner/repo/indirect.py") false Demo.self
    = (Return l, σ2) ∧
    Sorted str_le l ∧ NoDup l.
Proof.
  destruct (params_extract_match_ignores_the_name Demo.b64decode_decode
              (lit "obs[", lit "]") (lit "owner/repo/indirect.py") Demo.self
              Demo.indirect_text
              (read_file Demo.b64decode_decode
                 (lit "owner/repo/indirect.py") Demo.self).2)
    as (params & all_params & values & l & σ2 & _ & _ & _ & _ & Hl & _ & Hs
        & Hn).
  - vm_compute. reflexivity.
  - exists l, σ2. split; [exact Hl|]. split; [exact Hs|exact Hn].
Defined.
(** ** More about [eval_param] and [params_extract_eval] *)

Section ModuleName.

Lemma find_dot_None s : find_dot s = None ↔ chr "." ∉ s.
Proof.
  induction s as [|c s IH]; cbn [find_dot].
  - split; [intros _; apply not_elem_of_nil|done].
  - rewrite not_elem_of_cons. destruct (N.eqb_spec c (chr ".")) as [->|Hc].
    + split; [done|]. by intros [? _].
    + destruct (find_dot s); cbn [fmap option_fmap option_map].
      * split; [done|]. intros [_ H]. by apply IH in H.
      * split; [|done]. intros _. split; [congruence|]. by apply IH.
Qed.

Lemma find_dot_Some s start :
  find_dot s = Some start →
  ∃ ext, s = prefix_slice start s ++ chr "." :: ext ∧
         (chr "." ∉ prefix_slice start s).
Proof.
  unfold prefix_slice. revert start.
  induction s as [|c s IH]; intros start; cbn [find_dot]; [done|].
  destruct (N.eqb_spec c (chr ".")) as [->|Hc].
  - intros [= <-]. exists s. split; [done|]. apply not_elem_of_nil.
  - destruct (find_dot s) as [n|]; [|done].
    intros [= <-]. destruct (IH n eq_refl) as (ext & Hs & Hno).
    exists ext. cbn [take app]. split; [by f_equal|].
    apply not_elem_of_cons. split; [congruence|done].
Qed.

Lemma split_two_pieces sep s :
  sep ∈ s → ∃ p q r, split sep s = p :: q :: r.
Proof.
  intros (k & v & -> & Hk)%list_elem_of_split_l.
  rewrite split_before_sep by done.
  pose proof (split_nonempty sep v). destruct (split sep v); [done|]. eauto.
Qed.

Lemma last_split_after sep a b :
  last_item (split sep (a ++ sep :: b)) = last_item (split sep b).
Proof.
  unfold last_item. induction a as [|c a IH]; cbn [app].
  - rewrite split_cons_sep. pose proof (split_nonempty sep b).
    destruct (split sep b); [done|]. by rewrite last_cons_cons.
  - destruct (N.eqb_spec c sep) as [->|Hc].
    + rewrite split_cons_sep. pose proof (split_nonempty sep (a ++ sep :: b)).
      destruct (split sep (a ++ sep :: b)); [done|].
      by rewrite last_cons_cons.
    + cbn [split]. destruct (N.eqb_spec c sep) as [|_]; [done|].
      destruct (split_two_pieces sep (a ++ sep :: b)) as (p & q & r & Hs).
      { apply elem_of_app. right. left. }
      rewrite Hs in IH |- *. by rewrite last_cons_cons in IH |- *.
Qed.

(** The text after the last separator is the last piece. *)
Lemma last_split_of sep dir file :
  sep ∉ file → dir = [] ∨ (∃ dir', dir = dir' ++ [sep]) →
  last_item (split sep (dir ++ file)) = Some file.
Proof.
  intros Hfile [->|[dir' ->]].
  - by rewrite split_no_sep.
  - rewrite <- app_assoc. cbn [app]. rewrite last_split_after.
    by rewrite split_no_sep.
Qed.

(** X16: The name that [eval_param] gives the module is the text between the
    last ['/'] of the path and the first ['.'] after it; there is none
    exactly when no ['.'] follows the last ['/']. *)
Theorem module_name_is_up_to_the_first_dot path_ :
  (∀ name,
     module_name path_ = Some name →
     (chr "." ∉ name) ∧ (chr "/" ∉ name) ∧
     ∃ dir ext,
       path_ = dir ++ name ++ chr "." :: ext ∧ (chr "/" ∉ ext) ∧
       (dir = [] ∨ ∃ dir', dir = dir' ++ [chr "/"])) ∧
  (module_name path_ = None
   ↔ ∃ dir file,
       path_ = dir ++ file ∧ (chr "/" ∉ file) ∧ (chr "." ∉ file) ∧
       (dir = [] ∨ ∃ dir', dir = dir' ++ [chr "/"])).
Proof.
  split; [|split].
  - destruct (last_split (chr "/") path_)
      as (dir & file & -> & Hfile & Hdir & Hl).
    unfold module_name. rewrite Hl. cbn [mbind option_bind].
    intros name. destruct (find_dot file) as [start|] eqn:E; [|done].
    intros [= <-]. destruct (find_dot_Some _ _ E) as (ext & Hf & Hno).
    split_and!; [done| |].
    + intros Hin. apply Hfile. rewrite Hf. apply elem_of_app. by left.
    + exists dir, ext. split_and!; [by rewrite <- Hf| |done].
      intros Hin. apply Hfile. rewrite Hf. apply elem_of_app. right.
      by right.
  - destruct (last_split (chr "/") path_)
      as (dir & file & -> & Hfile & Hdir & Hl).
    unfold module_name. rewrite Hl. cbn [mbind option_bind].
    destruct (find_dot file) as [start|] eqn:E; [done|]. intros _.
    exists dir, file. split_and!; [done..| |done]. by apply find_dot_None.
  - intros (dir & file & -> & Hfile & Hdot & Hdir).
    unfold module_name. rewrite last_split_of by done.
    cbn [mbind option_bind]. apply find_dot_None in Hdot. by rewrite Hdot.
Qed.

End ModuleName.

Section EvalMore.

Variable namespace : Type.
Variable object : Type.
Variable module_from_spec : str → namespace.
Variable exec : str → namespace → namespace * option exn.
Variable eval : namespace → str → exn + object.
Variable str_ : object → exn + str.
Variable b64decode_decode : option str → exn + str.

Local Notation "'eval_param''" :=
  (eval_param namespace object module_from_spec exec eval str_).
Local Notation "'resolve''" := (resolve namespace object eval str_).
Local Notation "'eval_references''" :=
  (eval_references namespace object module_from_spec exec eval str_).
Local Notation "'params_extract_eval''" :=
  (params_extract_eval namespace object module_from_spec exec eval str_
     b64decode_decode).

(** X17: A path whose last segment holds no ['.'] makes [eval_param] raise
    [AttributeError] (the search for the extension finds nothing) before
    the content is run: nothing is printed, whatever the interpreter
    does. *)
Theorem eval_param_needs_an_extension path_ content param :
  module_name path_ = None →
  eval_param' path_ content param
  = ([], Raise (Exn AttributeError
                  (lit "'NoneType' object has no attribute 'start'"))).
Proof.
  unfold module_name, eval_param.
  destruct (last_split (chr "/") path_) as (dir & file & _ & _ & _ & ->).
  cbn [mbind option_bind]. by destruct (find_dot file).
Qed.




Lemma eval_param_arrow path_ content param token :
  (eval_param' path_ content param).2 = Return token →
  ∃ text, token = param ++ lit " -> " ++ text.
Proof.
  unfold eval_param.
  destruct (last_item _) as [filename|]; [|done].
  destruct (find_dot filename) as [start|]; [|done].
  destruct (exec _ _) as [ns [e|]]; [|apply resolve_arrow].
  destruct (caught_by ModuleNotFoundError e); [apply resolve_arrow|].
  destruct (caught_by NameError e); [apply resolve_arrow|].
  destruct (caught_by IndentationError e); [apply resolve_arrow|done].
Qed.

(** The tokens that the loop of [params_extract_eval] appends: one per
    span that is not a quoted name, in the arrow form. *)
Lemma eval_references_tokens path_ content params all_params true_params σ
  tokens σ1 :
  eval_references' path_ content params all_params true_params σ
  = (Return tokens, σ1) →
  ∀ x, x ∈ tokens →
       x ∈ true_params
       ∨ ∃ span text,
           span ∈ all_params ∧ (span ∉ params) ∧
           x = span ++ lit " -> " ++ text.
Proof.
  revert true_params σ. induction all_params as [|param all_params IH];
    intros true_params σ; cbn [eval_references].
  - intros [= <- <-] x Hx. by left.
  - unfold contains. case_bool_decide as Hparam; cbn [negb].
    + intros H x Hx. destruct (IH _ _ H x Hx) as [?|(span & text & ? & ? & ?)];
        [by left|].
      right. exists span, text. split_and!; [by right|done..].
    + intros (token & σa & Hstatic & H)%bind_Return_inv x Hx.
      unfold static in Hstatic. injection Hstatic as Htoken _.
      apply eval_param_arrow in Htoken as [text ->].
      destruct (IH _ _ H x Hx) as [Hin|(span & text' & ? & ? & ?)].
      * apply elem_of_app in Hin as [?|Hin]; [by left|].
        apply list_elem_of_singleton in Hin as ->.
        right. exists param, text. split_and!; [left|done..].
      * right. exists span, text'. split_and!; [by right|done..].
Qed.

(** X15: Whenever [params_extract_eval] returns, its list is sorted and free
    of duplicates; it holds every quoted name that the first pattern
    finds, and anything else in it is a token [span -> text] for a span
    that the second pattern finds and that is not one of the quoted
    names. *)
Theorem params_extract_eval_items trigger path_
  (already_escaped ignore_import : bool) σ l σ2 :
  params_extract_eval' trigger path_ already_escaped ignore_import σ
  = (Return l, σ2) →
  let trigger' :=
    if negb already_escaped
    then (Re.escape trigger.1, Re.escape trigger.2)
    else trigger in
  ∃ content σ1 params all_params,
    read_file b64decode_decode path_ σ = (Return content, σ1) ∧
    Re.findall (quoted_pattern trigger') content = Some params ∧
    Re.findall (any_pattern trigger') content = Some all_params ∧
    Sorted str_le l ∧ NoDup l ∧
    (∀ x, x ∈ params → x ∈ l) ∧
    (∀ x, x ∈ l →
          x ∈ params
          ∨ ∃ span text,
              span ∈ all_params ∧ (span ∉ params) ∧
              x = span ++ lit " -> " ++ text).
Proof.
  intros H trigger'. unfold params_extract_eval in H. fold trigger' in H.
  apply bind_Return_inv in H as (content & σ1 & Hread & H).
  apply bind_Return_inv in H as (params & σa & Hparams & H).
  apply bind_Return_inv in H as (all_params & σb & Hall & H).
  apply bind_Return_inv in H as (content' & σc & _ & H).
  apply bind_Return_inv in H as (tokens & σd & Hrefs & H).
  injection H as <- <-.
  revert Hparams Hall. unfold re. cbv [unmodelled mret M_ret].
  destruct (Re.findall (quoted_pattern trigger') content) as [params'|]
    eqn:Eparams; cbv beta; [|done].
  intros [= -> <-].
  destruct (Re.findall (any_pattern trigger') content) as [all_params'|]
    eqn:Eall; cbv beta; [|done].
  intros [= -> <-].
  exists content, σ1, params, all_params.
  split_and!; [done..|apply sorted_Sorted|apply NoDup_sorted, NoDup_list_set
              | |].
  - intros x Hx. rewrite elem_of_sorted, elem_of_list_set, elem_of_app.
    by left.
  - intros x. rewrite elem_of_sorted, elem_of_list_set, elem_of_app.
    intros [?|Hx]; [by left|].
    destruct (eval_references_tokens _ _ _ _ _ _ _ _ Hrefs x Hx)
      as [Hnil|?]; [by apply elem_of_nil in Hnil|by right].
Qed.

End EvalMore.

(** An instance: a script two directories down. *)
Lemma module_name_is_up_to_the_first_dot_witness :
  (chr "." ∉ lit "otf") ∧ (chr "/" ∉ lit "otf").
Proof.
  destruct (module_name_is_up_to_the_first_dot
              (lit "owner/repo/obs_scripts/otf.v2.py")) as [H _].
  destruct (H (lit "otf")) as (Hdot & Hslash & _).
  - reflexivity.
  - split; [exact Hdot|exact Hslash].
Defined.

(** An instance: a path without extension. *)
Lemma eval_param_needs_an_extension_witness :
  eval_param unit unit (λ _, ()) Demo.exec Demo.eval (λ _, inr [])
    (lit "owner/repo/Makefile") [] (lit "x")
  = ([], Raise (Exn AttributeError
                  (lit "'NoneType' object has no attribute 'start'"))).
Proof.
  apply eval_param_needs_an_extension. reflexivity.
Defined.



(** An instance: [x = obs[key]] with a variable that cannot be read. *)
Lemma params_extract_eval_items_witness :
  ∃ content σ1 params all_params,
    read_file Demo.b64decode_decode (lit "owner/repo/indirect.py") Demo.self
    = (Return content, σ1) ∧
    Re.findall (quoted_pattern (Re.escape (lit "obs["), Re.escape (lit "]")))
      content = Some params ∧
    Re.findall (any_pattern (Re.escape (lit "obs["), Re.escape (lit "]")))
      content = Some all_params ∧
    (∀ x, x ∈ [lit "key -> ???"] →
          x ∈ params
          ∨ ∃ span text,
              span ∈ all_params ∧ (span ∉ params) ∧
              x = span ++ lit " -> " ++ text).
Proof.
  destruct (params_extract_eval_items unit unit (λ _, ()) Demo.exec Demo.eval
              (λ _, inr []) Demo.b64decode_decode (lit "obs[", lit "]")
              (lit "owner/repo/indirect.py") false false Demo.self
              [lit "key -> ???"]
              (params_extract_eval unit unit (λ _, ()) Demo.exec Demo.eval
                 (λ _, inr []) Demo.b64decode_decode (lit "obs[", lit "]")
                 (lit "owner/repo/indirect.py") false false Demo.self).2)
    as (content & σ1 & params & all_params & Hr & Hp & Ha & _ & _ & _ & Hx).
  - vm_compute. reflexivity.
  - exists content, σ1, params, all_params.
    split; [exact Hr|]. split; [exact Hp|]. split; [exact Ha|exact Hx].
Defined.
(** ** More about [list_from_launch] *)

Section LaunchMore.

Variable b64decode_decode : option str → exn + str.
Variable fromstring : str → exn + ET.Element.

Local Notation "'read_file''" := (read_file b64decode_decode).
Local Notation "'expand''" := (expand b64decode_decode fromstring).
Local Notation "'list_from_launch''" :=
  (list_from_launch b64decode_decode fromstring).

(** The loop moves the elements before the first [include] to the
    nodes. *)
Lemma expand_nodes_first fuel user repository before rest nodes σ :
  Forall (λ child, ET.tag child ≠ lit "include") before →
  expand' (length before + fuel) user repository (before ++ rest) nodes σ
  = expand' fuel user repository rest (nodes ++ before) σ.
Proof.
  revert nodes. induction before as [|child before IH]; intros nodes Hno.
  - by rewrite app_nil_r.
  - apply Forall_cons in Hno as [Hchild Hno]. cbn [length Nat.add app expand].
    rewrite bool_decide_eq_false_2 by done. rewrite IH by done.
    by rewrite <- app_assoc.
Qed.

(** After the fetch and the parse, [list_from_launch] is the loop on the
    children of the root. *)
Lemma list_from_launch_unfold fuel path_ path_dict σ code σ1 user repository
  file_path root :
  suffix_slice 7 path_ = lit ".launch" →
  read_file' path_ σ = (Return code, σ1) →
  splitn (chr "/") 2 path_ = [user; repository; file_path] →
  fromstring code = inr root →
  list_from_launch' fuel path_ path_dict σ
  = (nodes ← expand' fuel user repository (ET.children root) [];
     mret (describe <$> nodes)) σ1.
Proof.
  intros Hsuffix Hread Hsplit Hroot. unfold list_from_launch.
  rewrite bool_decide_eq_false_2 by (by intros ?).
  rewrite (bind_Return _ _ _ _ _ Hread), Hsplit. simpl.
  unfold mbind at 1 2 3 4, M_bind, item, lift. simpl. by rewrite Hroot.
Qed.

(** X20: An [include] element that cannot be followed ends the call with an
    exception, after the launch file itself was fetched and before
    anything else is: without a [file] attribute, [None.split] raises
    [AttributeError]; with a [file] that holds no ['/'], the piece after
    the first ['/'] is missing and [IndexError] is raised. *)
Theorem list_from_launch_include_errors fuel path_ path_dict σ code σ1
  user repository file_path root before include after :
  suffix_slice 7 path_ = lit ".launch" →
  read_file' path_ σ = (Return code, σ1) →
  splitn (chr "/") 2 path_ = [user; repository; file_path] →
  fromstring code = inr root →
  ET.children root = before ++ include :: after →
  Forall (λ child, ET.tag child ≠ lit "include") before →
  ET.tag include = lit "include" →
  (length before < fuel)%nat →
  (ET.get include (lit "file") = None →
   list_from_launch' fuel path_ path_dict σ
   = (Raise (Exn AttributeError
               (lit "'NoneType' object has no attribute 'split'")), σ1)) ∧
  (∀ file,
     ET.get include (lit "file") = Some file → chr "/" ∉ file →
     list_from_launch' fuel path_ path_dict σ
     = (Raise (Exn IndexError (lit "list index out of range")), σ1)).
Proof.
  intros Hsuffix Hread Hsplit Hroot Hchildren Hbefore Htag Hfuel.
  rewrite (list_from_launch_unfold _ _ _ _ _ _ _ _ _ _
             Hsuffix Hread Hsplit Hroot), Hchildren.
  replace fuel with (length before + S (fuel - S (length before)))%nat by lia.
  split; [intros Hget|intros file Hget Hfile].
  all: unfold mbind at 1; unfold M_bind at 1.
  all: rewrite expand_nodes_first by done.
  all: cbn [expand]; rewrite bool_decide_eq_true_2 by done; rewrite Hget.
  - reflexivity.
  - unfold mbind, M_bind, mret, M_ret, item. by rewrite splitn_no_sep.
Qed.

Lemma expand_Return_bind {B} fuel user repository elements nodes σ result σ1
  (f : list ET.Element → M B) :
  expand' fuel user repository elements nodes σ = (Return result, σ1) →
  (expand' fuel user repository elements nodes ≫= f) σ = f result σ1.
Proof. apply bind_Return. Qed.

(** X21: The nodes of an included file come after all the nodes of the file
    that includes it, also after those that follow the [include]
    element: the loop appends the children of the included root to the
    end of its work list. *)
Theorem list_from_launch_included_nodes_come_last fuel path_ path_dict σ
  code σ1 user repository file_path root before include after
  scope launch_path code' σ2 root' :
  suffix_slice 7 path_ = lit ".launch" →
  read_file' path_ σ = (Return code, σ1) →
  splitn (chr "/") 2 path_ = [user; repository; file_path] →
  fromstring code = inr root →
  ET.children root = before ++ include :: after →
  Forall (λ child, ET.tag child ≠ lit "include") (before ++ after) →
  ET.tag include = lit "include" →
  ET.get include (lit "file") = Some (scope ++ chr "/" :: launch_path) →
  chr "/" ∉ scope →
  read_file' (user ++ lit "/" ++ repository ++ lit "/" ++ launch_path) σ1
  = (Return code', σ2) →
  fromstring code' = inr root' →
  Forall (λ child, ET.tag child ≠ lit "include") (ET.children root') →
  (length before + length after + length (ET.children root') + 1 < fuel)%nat →
  list_from_launch' fuel path_ path_dict σ
  = (Return (describe <$> before ++ after ++ ET.children root'), σ2).
Proof.
  intros Hsuffix Hread Hsplit Hroot Hchildren Hno Htag Hfile Hscope Hread'
    Hroot' Hno' Hfuel.
  apply Forall_app in Hno as [Hbefore Hafter].
  rewrite (list_from_launch_unfold _ _ _ _ _ _ _ _ _ _
             Hsuffix Hread Hsplit Hroot), Hchildren.
  erewrite expand_Return_bind; [reflexivity|].
  replace fuel with (length before + S (fuel - S (length before)))%nat by lia.
  rewrite expand_nodes_first by done.
  cbn [expand]. rewrite bool_decide_eq_true_2 by done. rewrite Hfile.
  unfold mbind at 1. unfold M_bind at 1. unfold mret at 1. unfold M_ret at 1.
  rewrite splitn_before_sep by done.
  unfold mbind at 1. unfold M_bind at 1. unfold item at 1.
  cbn [lookup list_lookup mret M_ret join].
  rewrite (bind_Return _ _ _ _ _ Hread'). rewrite Hroot'.
  unfold mbind at 1. unfold M_bind at 1. unfold lift at 1.
  rewrite expand_no_include.
  - done.
  - apply Forall_app. by split.
  - rewrite length_app. lia.
Qed.

Lemma splitn_three_join sep s a b c :
  splitn sep 2 s = [a; b; c] → s = a ++ sep :: b ++ sep :: c.
Proof.
  revert a. induction s as [|x s IH]; intros a; simpl; [done|].
  destruct (N.eqb_spec x sep) as [->|Hx].
  - intros [= <- H]. cbn [app]. f_equal. clear IH. revert b H.
    induction s as [|y s IHs]; intros b; simpl; [done|].
    destruct (N.eqb_spec y sep) as [->|Hy].
    + rewrite splitn_zero. by intros [= <- <-].
    + destruct (splitn sep 1 s) as [|p ps] eqn:E; [done|].
      intros [= <- ->]. cbn [app]. f_equal. by apply IHs.
  - destruct (splitn sep 2 s) as [|p ps] eqn:E; [done|].
    intros [= <- ->]. cbn [app]. f_equal. by apply IH.
Qed.

Lemma bind_OutOfFuel {A B} (m : M A) (f : A → M B) σ :
  (m σ).1 = OutOfFuel → ((m ≫= f) σ).1 = OutOfFuel.
Proof. unfold mbind, M_bind. by destruct (m σ) as [[a| | |] σ1]. Qed.

(** X22: Nothing stops a launch file that includes itself: whatever fuel the
    loop is given, it runs out of it.  The same holds when other nodes
    stand beside the [include] element. *)
Theorem list_from_launch_self_include_never_ends path_ path_dict σ code
  user repository launch_path root include scope :
  suffix_slice 7 path_ = lit ".launch" →
  (read_file' path_ σ).1 = Return code →
  splitn (chr "/") 2 path_ = [user; repository; launch_path] →
  fromstring code = inr root →
  include ∈ ET.children root →
  Forall (λ child, child = include ∨ ET.tag child ≠ lit "include")
    (ET.children root) →
  ET.tag include = lit "include" →
  ET.get include (lit "file") = Some (scope ++ chr "/" :: launch_path) →
  chr "/" ∉ scope →
  ∀ fuel, (list_from_launch' fuel path_ path_dict σ).1 = OutOfFuel.
Proof.
  intros Hsuffix Hread Hsplit Hroot Hin Hall Htag Hfile Hscope fuel.
  assert (∀ σ', g σ' = g σ →
    read_file' path_ σ' = (Return code, (read_file' path_ σ').2) ∧
    g (read_file' path_ σ').2 = g σ) as Hagain.
  { intros σ' Hg.
    destruct (respects_read_file b64decode_decode path_ σ' σ Hg) as [Hout _].
    rewrite Hread in Hout. split.
    - rewrite <- Hout. by destruct (read_file' path_ σ').
    - by rewrite keeps_client_read_file. }
  assert (user ++ lit "/" ++ repository ++ lit "/" ++ launch_path = path_)
    as Hpath by (symmetry; by apply splitn_three_join).
  assert (∀ fuel elements nodes σ',
    g σ' = g σ → include ∈ elements →
    Forall (λ child, child = include ∨ ET.tag child ≠ lit "include") elements →
    (expand' fuel user repository elements nodes σ').1 = OutOfFuel) as Hloop.
  { clear fuel. induction fuel as [|fuel IH];
      intros elements nodes σ' Hg Hinc Hel; [done|].
    destruct elements as [|child elements];
      [by apply elem_of_nil in Hinc|].
    apply Forall_cons in Hel as [Hchild Hel]. cbn [expand].
    case_bool_decide as Hc.
    - destruct Hchild as [->|?]; [|done]. rewrite Hfile.
      unfold mbind at 1. unfold M_bind at 1. unfold mret at 1.
      unfold M_ret at 1. rewrite splitn_before_sep by done.
      unfold mbind at 1. unfold M_bind at 1. unfold item at 1.
      cbn [lookup list_lookup mret M_ret join]. rewrite Hpath.
      destruct (Hagain σ' Hg) as [Hr Hg'].
      rewrite (bind_Return _ _ _ _ _ Hr), Hroot.
      unfold mbind at 1. unfold M_bind at 1. unfold lift at 1.
      apply IH; [done| |].
      + apply elem_of_app. by right.
      + apply Forall_app. by split.
    - apply IH; [done| |done].
      apply elem_of_cons in Hinc as [->|?]; [by destruct Hc|done]. }
  destruct (Hagain σ eq_refl) as [Hr Hg].
  rewrite (list_from_launch_unfold _ _ _ _ _ _ _ _ _ _
             Hsuffix Hr Hsplit Hroot).
  apply bind_OutOfFuel. by apply Hloop.
Qed.

End LaunchMore.

(** An instance: an include without [file]. *)
Lemma list_from_launch_include_errors_witness :
  (list_from_launch Launches.decode Launches.parse 1
     (lit "owner/pkg/launch/nofile.launch") [] Launches.checker).1
  = Raise (Exn AttributeError
             (lit "'NoneType' object has no attribute 'split'")).
Proof.
  destruct (list_from_launch_include_errors Launches.decode
              Launches.parse 1 (lit "owner/pkg/launch/nofile.launch") []
              Launches.checker Launches.nofile_text
              (read_file Launches.decode
                 (lit "owner/pkg/launch/nofile.launch") Launches.checker).2
              (lit "owner") (lit "pkg") (lit "launch/nofile.launch")
              Launches.nofile_root [] Launches.include_nothing [])
    as [H _].
  - reflexivity.
  - vm_compute. reflexivity.
  - reflexivity.
  - reflexivity.
  - reflexivity.
  - constructor.
  - reflexivity.
  - simpl. lia.
  - rewrite H; reflexivity.
Defined.

(** An instance: an include between two nodes. *)
Lemma list_from_launch_included_nodes_come_last_witness :
  (list_from_launch Launches.decode Launches.parse 5
     (lit "owner/pkg/launch/mixed.launch") [] Launches.checker).1
  = Return
      (describe
         <$> [Launches.node_a; Launches.node_b]
               ++ ET.children Demo.sub_root).
Proof.
  erewrite (list_from_launch_included_nodes_come_last
              Launches.decode Launches.parse 5
              (lit "owner/pkg/launch/mixed.launch") [] Launches.checker
              Launches.mixed_text _ (lit "owner") (lit "pkg")
              (lit "launch/mixed.launch") Launches.mixed_root
              [Launches.node_a] Launches.include_sub [Launches.node_b]
              (lit "$(find pkg)") (lit "launch/sub.launch")
              Demo.sub_text _ Demo.sub_root).
  - reflexivity.
  - reflexivity.
  - vm_compute. reflexivity.
  - reflexivity.
  - reflexivity.
  - reflexivity.
  - repeat constructor; discriminate.
  - reflexivity.
  - vm_compute. reflexivity.
  - apply (bool_decide_unpack _). vm_compute. exact I.
  - vm_compute. reflexivity.
  - reflexivity.
  - repeat constructor; discriminate.
  - simpl. lia.
Defined.

(** An instance: [loop.launch] includes [loop.launch]. *)
Lemma list_from_launch_self_include_never_ends_witness :
  (list_from_launch Launches.decode Launches.parse 1000
     (lit "owner/pkg/launch/loop.launch") [] Launches.checker).1
  = OutOfFuel.
Proof.
  apply (list_from_launch_self_include_never_ends Launches.decode
           Launches.parse (lit "owner/pkg/launch/loop.launch") []
           Launches.checker Launches.loop_text (lit "owner") (lit "pkg")
           (lit "launch/loop.launch") Launches.loop_root
           Launches.self_include (lit "$(find pkg)")).
  - reflexivity.
  - vm_compute. reflexivity.
  - reflexivity.
  - reflexivity.
  - left.
  - repeat constructor.
  - reflexivity.
  - vm_compute. reflexivity.
  - apply (bool_decide_unpack _). vm_compute. exact I.
Defined.
(** ** About [extract_mapping] *)

Section Mapping.

Variable b64decode_decode : option str → exn + str.
Variable re_sub : str → str → str → str.

Local Notation "'read_file''" := (read_file b64decode_decode).
Local Notation "'extract_mapping''" :=
  (extract_mapping b64decode_decode re_sub).

(** The loop of [extract_mapping] keeps, in the order of the lines, the
    dict of each line that is cut in two with a second piece that is not
    empty. *)
Lemma extract_mapping_loop lines mapping :
  fold_left
    (λ mapping line,
       match line !! 1%nat with
       | Some value =>
           if truthy value
           then match line !! 0%nat with
                | Some key => mapping ++ [{[key := value]}]
                | None => mapping
                end
           else mapping
       | None => mapping
       end)
    (splitn (chr "=") 1 <$> lines) mapping
  = mapping
      ++ omap (λ line, match splitn (chr "=") 1 line with
                       | key :: value :: _ =>
                           if truthy value
                           then Some ({[key := value]} : gmap str str)
                           else None
                       | _ => None
                       end) lines.
Proof.
  revert mapping. induction lines as [|line lines IH]; intros mapping;
    cbn [fmap list_fmap fold_left omap list_omap].
  - by rewrite app_nil_r.
  - rewrite IH.
    destruct (splitn (chr "=") 1 line) as [|key [|value rest]];
      cbn [lookup list_lookup]; [done..|].
    destruct (truthy value); [|done]. by rewrite <- app_assoc.
Qed.

(** A line gives a dict exactly when it reads key, ['='], value with no
    ['='] in the key and a value that is not empty; the value is all that
    follows the first ['=']. *)
Lemma mapping_line_Some (line : str) (d : gmap str str) :
  match splitn (chr "=") 1 line with
  | key :: value :: _ => if truthy value then Some {[key := value]} else None
  | _ => None
  end = Some d
  ↔ ∃ key ch value,
      line = key ++ chr "=" :: ch :: value ∧ (chr "=" ∉ key) ∧
      d = {[key := ch :: value]}.
Proof.
  split.
  - destruct (decide (chr "=" ∈ line)) as [Hin|Hno].
    + apply list_elem_of_split_l in Hin as (key & v & -> & Hkey).
      rewrite splitn_before_sep by done.
      destruct v as [|ch value]; [done|]. intros [= <-].
      by exists key, ch, value.
    + by rewrite splitn_no_sep.
  - intros (key & ch & value & -> & Hkey & ->).
    by rewrite splitn_before_sep.
Qed.

(** X23: [extract_mapping] returns for every text that is fetched.  A dict is
    in its list exactly when some line, as the three substitutions leave
    it, reads key, ['='], value, with no ['='] in the key and a value
    that is not empty; the dict maps the key to all that follows the
    first ['='], so that key, ['='] and value put together give the line
    back.  Lines without ['='] or with nothing after it give nothing. *)
Theorem extract_mapping_entries path_ σ code σ1 :
  read_file' path_ σ = (Return code, σ1) →
  ∃ mapping,
    extract_mapping' path_ σ = (Return mapping, σ1) ∧
    (∀ d, d ∈ mapping
          ↔ ∃ key ch value,
              key ++ chr "=" :: ch :: value ∈ mapping_lines re_sub code ∧
              (chr "=" ∉ key) ∧ d = {[key := ch :: value]}) ∧
    (length mapping ≤ length (mapping_lines re_sub code))%nat.
Proof.
  intros Hread. unfold extract_mapping.
  rewrite (bind_Return _ _ _ _ _ Hread), extract_mapping_loop.
  eexists. split; [reflexivity|]. cbn [app]. split.
  - intros d. rewrite list_elem_of_omap. split.
    + intros (line & Hline & (key & ch & value & -> & Hkey & ->)
                                %mapping_line_Some).
      by exists key, ch, value.
    + intros (key & ch & value & Hline & Hkey & ->).
      eexists. split; [done|]. apply mapping_line_Some.
      by exists key, ch, value.
  - generalize (mapping_lines re_sub code). intros lines.
    induction lines as [|line lines IH]; cbn [omap list_omap length]; [lia|].
    destruct (splitn (chr "=") 1 line) as [|key [|value rest]];
      [lia..|].
    destruct (truthy value); cbn [length]; lia.
Qed.

End Mapping.

(** An instance: the file of mappings of the second repository. *)
Lemma extract_mapping_entries_witness :
  ∃ mapping,
    extract_mapping Launches.decode Launches.re_sub
      (lit "owner/pkg/mapping.txt") Launches.checker
    = (Return mapping,
       (read_file Launches.decode (lit "owner/pkg/mapping.txt")
          Launches.checker).2) ∧
    (∀ d, d ∈ mapping
          ↔ ∃ key ch value,
              key ++ chr "=" :: ch :: value
                ∈ mapping_lines Launches.re_sub Launches.mapping_text ∧
              (chr "=" ∉ key) ∧ d = {[key := ch :: value]}) ∧
    (length mapping
     ≤ length (mapping_lines Launches.re_sub Launches.mapping_text))%nat.
Proof.
  apply extract_mapping_entries. vm_compute. reflexivity.
Defined.
(** ** Termination, order and the pipeline *)

Section ListingOrder.

(** X8: The listing calls always end: [list_files] gives its loop the size of
    the top listing as fuel, which is enough for every finite remote, and
    [get_file_dict] adds a loop over the files found; they return or
    raise, and never run out of fuel. *)
Theorem listing_calls_end path_ σ :
  ends (list_files path_ σ) ∧ ends (get_file_dict path_ σ).
Proof.
  split; [apply list_files_ends|]. unfold get_file_dict.
  apply ends_bind; [apply list_files_ends|]. intros names σ1 _.
  apply ends_bind; [apply ends_get_content|]. intros files σ2 _.
  destruct (file_dicts_Return files σ2) as (dicts & Hdicts & _).
  unfold ends. by rewrite Hdicts.
Qed.

(** The loop takes the entries in order: the files among the entries at
    the head of its work list are stored first, in their order; what is
    stored after them comes from the rest of the list or from below a
    directory among those entries. *)
Lemma list_files_loop_head_first first fuel full_name queue σ σ1 files :
  list_files_loop fuel full_name (first ++ queue) σ = (Return (), σ1) →
  content_ σ = Some files →
  ∃ later,
    content_ σ1
    = Some (files ++ filter (λ f, type_ f ≠ lit "dir") first ++ later) ∧
    ∀ f, f ∈ later →
         listed f queue
         ∨ ∃ d below, d ∈ first ∧ type_ d = lit "dir" ∧
                      entries d = inr below ∧ listed f below.
Proof.
  revert fuel queue σ files.
  induction first as [|f0 first IH]; intros fuel queue σ files Hloop Hfiles.
  - destruct (list_files_loop_listed _ _ _ _ _ _ Hloop Hfiles)
      as (new & Hnew & Hin).
    exists new. split; [done|]. intros f Hf. left. by apply Hin.
  - destruct fuel as [|fuel]; [done|].
    cbn [app list_files_loop] in Hloop. case_bool_decide as Hdir.
    + apply bind_Return_inv in Hloop as (below & σa & Hask & Hloop).
      unfold ask, lift in Hask.
      destruct (entries f0) as [e|below'] eqn:He; [done|].
      injection Hask as -> <-. rewrite <- app_assoc in Hloop.
      destruct (IH _ _ _ files Hloop) as (later & Hlater & Hin); [done|].
      exists later. split.
      * by rewrite filter_cons_False by (by intros ?).
      * intros f Hf.
        destruct (Hin f Hf) as [Hq|(d & b & Hd & Ht & Hb & Hl)].
        -- apply listed_app in Hq as [Hq|Hq]; [by left|].
           right. exists f0, below. split_and!; [left|done..].
        -- right. exists d, b. split_and!; [by right|done..].
    + apply bind_Return_inv in Hloop as (files' & σa & Hget & Hloop).
      unfold get_content in Hget. rewrite Hfiles in Hget.
      injection Hget as <- <-.
      apply bind_Return_inv in Hloop as ([] & σb & Hset & Hloop).
      injection Hset as <-.
      destruct (IH _ _ _ (files ++ [f0]) Hloop) as (later & Hlater & Hin);
        [done|].
      exists later. split.
      * rewrite filter_cons_True by done. by rewrite Hlater, <- app_assoc.
      * intros f Hf.
        destruct (Hin f Hf) as [Hq|(d & b & Hd & Ht & Hb & Hl)];
          [by left|].
        right. exists d, b. split_and!; [by right|done..].
Qed.

(** X5: [list_files] goes through the tree level by level.  When it
    returns, the path given names an owner and a repository, with or
    without a directory below it; the listing of that directory in that
    repository was answered; and the paths returned are those of the
    files of this listing, in its order, followed by paths of files that
    the listing of one of its directories reaches. *)
Theorem list_files_top_level_first path_ σ names σ1 :
  list_files path_ σ = (Return names, σ1) →
  ∃ user repository directory repo top later,
    (chr "/" ∉ user) ∧ (chr "/" ∉ repository) ∧
    (path_ = user ++ chr "/" :: repository ++ chr "/" :: directory
     ∨ (path_ = user ++ chr "/" :: repository ∧ directory = [])) ∧
    get_repo (g σ) (user ++ lit "/" ++ repository) = inr repo ∧
    get_contents repo directory = inr top ∧
    names
    = (path <$> filter (λ f, type_ f ≠ lit "dir")
                  (match top with One f => [f] | Many l => l end))
        ++ (path <$> later) ∧
    ∀ f, f ∈ later →
         ∃ d below,
           d ∈ (match top with One f => [f] | Many l => l end) ∧
           type_ d = lit "dir" ∧ entries d = inr below ∧ listed f below.
Proof.
  intros (user & repository & directory & repo & top & files & Huser & Hrepo
          & Hpath & Hget & Htop & Hloop & Hfiles & ->)%list_files_anatomy.
  rewrite <- (app_nil_r (match top with One f => [f] | Many l => l end))
    in Hloop at 2.
  destruct (list_files_loop_head_first _ _ _ _ _ _ [] Hloop)
    as (later & Hlater & Hin); [done|].
  cbn [app] in Hlater.
  assert (files
          = filter (λ f, type_ f ≠ lit "dir")
              (match top with One f => [f] | Many l => l end) ++ later)
    as -> by congruence.
  exists user, repository, directory, repo, top, later.
  split_and!; [done..|by rewrite fmap_app|].
  intros f Hf. destruct (Hin f Hf) as [Hnil|?]; [|done].
  by apply listed_nil in Hnil.
Qed.

End ListingOrder.

Section Pipeline.

(** X24: The documented use [diff(get_obsparams(...), params_extract(...))]:
    whatever is declared, the names reported as not declared are names
    that were extracted, in ascending order and without duplicates,
    because the list of [params_extract] is sorted and free of
    duplicates and [diff] keeps its order. *)
Theorem diff_of_extracted_names trigger content already_escaped used
  declared :
  params_extract_of trigger content already_escaped = Some used →
  let report := diff declared used in
  Sorted str_le (report !!! lit "not_declared") ∧
  NoDup (report !!! lit "not_declared") ∧
  (∀ x, x ∈ report !!! lit "not_declared" → x ∈ used ∧ x ∉ declared) ∧
  (∀ x, x ∈ report !!! lit "used" → x ∈ used).
Proof.
  rewrite params_extract_of_findall.
  destruct (Re.findall _ content) as [ms|]; [|done]. intros [= <-] report.
  subst report. rewrite !lookup_total_alt, diff_used, diff_not_declared.
  simpl. split_and!.
  - apply Sorted_filter, sorted_Sorted.
  - apply NoDup_filter, NoDup_sorted, NoDup_list_set.
  - intros x [? ?]%list_elem_of_filter. done.
  - intros x [? ?]%list_elem_of_filter. done.
Qed.

End Pipeline.

(** An instance: the top of the small repository. *)
Lemma list_files_top_level_first_witness :
  ∃ user repository directory repo top later,
    (chr "/" ∉ user) ∧ (chr "/" ∉ repository) ∧
    (lit "owner/repo" = user ++ chr "/" :: repository ++ chr "/" :: directory
     ∨ (lit "owner/repo" = user ++ chr "/" :: repository ∧ directory = [])) ∧
    get_repo (g Demo.self) (user ++ lit "/" ++ repository) = inr repo ∧
    get_contents repo directory = inr top ∧
    [lit "README.md"; lit "horizon.obs"; lit "bad.obs"; lit "script.py";
     lit "indirect.py"; lit "launch/top.launch"; lit "launch/sub.launch";
     lit "launch/flat.launch"]
    = (path <$> filter (λ f, type_ f ≠ lit "dir")
                  (match top with One f => [f] | Many l => l end))
        ++ (path <$> later) ∧
    ∀ f, f ∈ later →
         ∃ d below,
           d ∈ (match top with One f => [f] | Many l => l end) ∧
           type_ d = lit "dir" ∧ entries d = inr below ∧ listed f below.
Proof.
  apply (list_files_top_level_first (lit "owner/repo") Demo.self _
           (list_files (lit "owner/repo") Demo.self).2).
  vm_compute. reflexivity.
Defined.

(** An instance: the script and the declarations of the small
    repository. *)
Lemma diff_of_extracted_names_witness :
  Sorted str_le
    (diff (get_obsparams_of Demo.obs_text) [lit "bar"; lit "foo"]
       !!! lit "not_declared").
Proof.
  destruct (diff_of_extracted_names (lit "obs[", lit "]") Demo.script_text
              false [lit "bar"; lit "foo"] (get_obsparams_of Demo.obs_text))
    as (H & _).
  - vm_compute. reflexivity.
  - exact H.
Defined.
(** ** The [ignore_import] substitutions *)

Section Strip.

Import Re.









End Strip.
